(** * Grid-to-grid rate remapping of fecsep: a shallow embedding

    The remapping engine of [fecsep/utils.py] (and of its older copy
    [code/utils.py]) re-expresses the rates of a gridded forecast on another
    grid.  This file embeds the functions

      - [create_polygon], [calc_cell_area],
      - [_map_overlapping_cells], [_map_exact_inside_cells],
      - [_forecast_mapping_generic]

    together with the small parts of numpy, shapely and multiprocessing
    they call, and proves the properties the specification states about
    them.

    Numbers: the floats of the program are the rationals [Q] here, so every
    equation between rates is an equation of exact arithmetic ([==]); what
    the program adds to it is rounding. *)

From Stdlib Require Import String.
From Stdlib Require Import QArith Qabs Lqa Lia ZArith Arith Bool List.
From Stdlib Require Import Permutation Morphisms Setoid.
Import ListNotations.

Set Implicit Arguments.
Open Scope Q_scope.

(* ================================================================= *)
(** ** Python values: exceptions, standard output *)

Inductive exn : Type :=
| ValueError
| IndexError.

Inductive res (A : Type) : Type :=
| Ok (a : A)
| Raise (e : exn).
Arguments Ok {A} a.
Arguments Raise {A} e.

(** One line written by [print(label, n)]. *)
Inductive line : Type :=
| Print (label : string) (n : Z).

(** A computation of the parent process: what it printed, and its result. *)
Definition py (A : Type) : Type := (list line * res A)%type.

Definition ret {A} (a : A) : py A := ([], Ok a).
Definition lift {A} (r : res A) : py A := ([], r).
Definition print (label : string) (n : Z) : py unit := ([Print label n], Ok tt).

Definition bind {A B} (m : py A) (k : A -> py B) : py B :=
  match m with
  | (out, Ok a) => let (out', r) := k a in (out ++ out', r)
  | (out, Raise e) => (out, Raise e)
  end.

Definition rbind {A B} (m : res A) (k : A -> res B) : res B :=
  match m with
  | Ok a => k a
  | Raise e => Raise e
  end.

Declare Scope py_scope.
Delimit Scope py_scope with py.
Notation "x <- m ;; k" := (bind m (fun x => k))
  (at level 61, m at next level, right associativity) : py_scope.
Notation "x <~ m ;; k" := (rbind m (fun x => k))
  (at level 61, m at next level, right associativity) : py_scope.
Open Scope py_scope.

(** What the caller receives. *)
Definition returned {A} (m : py A) : res A := snd m.
Definition printed {A} (m : py A) : list line := fst m.

Fixpoint mapM {A B} (f : A -> res B) (l : list A) : res (list B) :=
  match l with
  | [] => Ok []
  | a :: l' => b <~ f a ;; bs <~ mapM f l' ;; Ok (b :: bs)
  end.

Definition getitem {A} (l : list A) (j : nat) : res A :=
  match nth_error l j with
  | Some a => Ok a
  | None => Raise IndexError
  end.

(* ================================================================= *)
(** ** numpy *)

Module Numpy.

(** A one-dimensional array of floats. *)
Definition vec : Type := list Q.

(** A two-dimensional array: [numpy.shape(a) = (length (rows a), ncols a)].
    numpy keeps every row at [ncols] entries; see [wf]. *)
Record ndarray : Type := mk_ndarray { ncols : nat; rows : list vec }.

Definition wf (a : ndarray) : Prop :=
  Forall (fun r => length r = ncols a) (rows a).

Definition zeros (n : nat) : vec := repeat 0 n.

Fixpoint zip_with {A B C} (f : A -> B -> C) (u : list A) (v : list B) : list C :=
  match u, v with
  | a :: u', b :: v' => f a b :: zip_with f u' v'
  | _, _ => []
  end.

(** [v * k] for a scalar [k]. *)
Definition scale (v : vec) (k : Q) : vec := map (fun x => x * k) v.

(** [u + v] on one-dimensional arrays, with broadcasting of a length-one
    operand; any other pair of lengths is a ValueError. *)
Definition add1 (u v : vec) : res vec :=
  if (length u =? length v)%nat then Ok (zip_with Qplus u v)
  else if (length u =? 1)%nat then Ok (map (fun y => hd 0 u + y) v)
  else if (length v =? 1)%nat then Ok (map (fun x => x + hd 0 v) u)
  else Raise ValueError.

(** [numpy.sum(a, axis=0)] of [rs], the rows of an array of [m] columns. *)
Definition sum_axis0 (m : nat) (rs : list vec) : vec :=
  fold_left (zip_with Qplus) rs (zeros m).

(** [numpy.where(c == True)[0]]: the positions at which the mask holds. *)
Fixpoint where_from (i : nat) (c : list bool) : list nat :=
  match c with
  | [] => []
  | b :: c' => if b then i :: where_from (S i) c' else where_from (S i) c'
  end.
Definition where_true (c : list bool) : list nat := where_from 0 c.

Fixpoint select {A} (c : list bool) (l : list A) : list A :=
  match c, l with
  | b :: c', a :: l' => if b then a :: select c' l' else select c' l'
  | _, _ => []
  end.

(** [a[c]] for a boolean mask [c]: the mask must be as long as [a]. *)
Definition getmask {A} (l : list A) (c : list bool) : res (list A) :=
  if (length c =? length l)%nat then Ok (select c l) else Raise IndexError.

(** [numpy.concatenate]: refuses an empty sequence of arrays. *)
Definition concatenate {A} (ls : list (list A)) : res (list A) :=
  match ls with
  | [] => Raise ValueError
  | _ => Ok (concat ls)
  end.

Definition mem (i : nat) (idx : list nat) : bool := existsb (Nat.eqb i) idx.

Fixpoint drop_from {A} (i : nat) (idx : list nat) (l : list A) : list A :=
  match l with
  | [] => []
  | a :: l' => if mem i idx then drop_from (S i) idx l'
               else a :: drop_from (S i) idx l'
  end.

(** [numpy.delete(a, idx, axis=0)]: the rows whose position is not in
    [idx]; a position outside the array is an IndexError. *)
Definition delete {A} (l : list A) (idx : list nat) : res (list A) :=
  if forallb (fun i => (i <? length l)%nat) idx then Ok (drop_from 0 idx l)
  else Raise IndexError.

(** The common row length of a list of arrays turned into one array;
    [None] when the rows are ragged. *)
Definition row_length (l : list vec) : option nat :=
  match l with
  | [] => Some 0%nat
  | r :: l' => if forallb (fun r' => (length r' =? length r)%nat) l'
               then Some (length r) else None
  end.

Fixpoint zipM {A B C} (f : A -> B -> res C) (u : list A) (v : list B) : res (list C) :=
  match u, v with
  | a :: u', b :: v' => c <~ f a b ;; cs <~ zipM f u' v' ;; Ok (c :: cs)
  | _, _ => Ok []
  end.

(** [numpy.add(a, b)] on two lists of one-dimensional arrays: both are
    turned into two-dimensional arrays (ragged rows are refused) and added
    with broadcasting along both axes. *)
Definition add2 (a b : list vec) : res (list vec) :=
  match row_length a, row_length b with
  | Some _, Some _ =>
      if (length a =? length b)%nat then zipM add1 a b
      else if (length a =? 1)%nat then mapM (add1 (hd [] a)) b
      else if (length b =? 1)%nat then mapM (fun r => add1 r (hd [] b)) a
      else Raise ValueError
  | _, _ => Raise ValueError
  end.

End Numpy.
Import Numpy.

(* ================================================================= *)
(** ** shapely, on axis-aligned rectangles *)

Module Shapely.

Definition qmin (a b : Q) : Q := if Qle_bool a b then a else b.
Definition qmax (a b : Q) : Q := if Qle_bool a b then b else a.

(** The polygons of the program are built from the four corners of a
    lon/lat box, so a polygon is kept as its envelope
    [(minx, miny, maxx, maxy)], which is what [.bounds] returns. *)
Record Polygon : Type := mk_polygon { minx : Q; miny : Q; maxx : Q; maxy : Q }.

(** [Polygon([(x0,y0), (x1,y0), (x1,y1), (x0,y1)])]. *)
Definition box (x0 y0 x1 y1 : Q) : Polygon :=
  {| minx := qmin x0 x1; miny := qmin y0 y1;
     maxx := qmax x0 x1; maxy := qmax y0 y1 |}.

(** [p.intersects(q)]: the two closed rectangles share a point; touching
    along an edge or at a corner counts. *)
Definition intersects (p q : Polygon) : bool :=
  (Qle_bool (minx p) (maxx q) && Qle_bool (minx q) (maxx p))
  && (Qle_bool (miny p) (maxy q) && Qle_bool (miny q) (maxy p)).

(** [p.intersection(q).bounds], for [p] and [q] that intersect: the
    rectangle, segment or point they share. *)
Definition intersection_bounds (p q : Polygon) : Q * Q * Q * Q :=
  (qmax (minx p) (minx q), qmax (miny p) (miny q),
   qmin (maxx p) (maxx q), qmin (maxy p) (maxy q)).

End Shapely.
Import Shapely.

(* ================================================================= *)
(** ** multiprocessing.Pool *)

Module Multiprocessing.

Record Pool : Type := mk_pool { processes : nat }.

(** [mp.Pool(n)] raises ValueError unless there is at least one process. *)
Definition new_pool (n : Z) : res Pool :=
  if (n <? 1)%Z then Raise ValueError else Ok {| processes := Z.to_nat n |}.

(** [Pool.map] without a chunk size: a quarter of a fair share per task. *)
Definition chunksize (p : Pool) (len : nat) : nat :=
  if (len =? 0)%nat then 0%nat
  else
    let d := (processes p * 4)%nat in
    if (len mod d =? 0)%nat then (len / d)%nat else S (len / d).

(** [Pool._get_tasks]: successive slices of [cs] items, until a slice is
    empty.  [fuel] bounds the number of slices. *)
Fixpoint get_tasks {A} (fuel cs : nat) (l : list A) : list (list A) :=
  match fuel with
  | O => []
  | S fuel' =>
      match firstn cs l with
      | [] => []
      | x => x :: get_tasks fuel' cs (skipn cs l)
      end
  end.

(** [MapResult._set(i, result)]: a successful task writes its results to
    the slots [i*cs .. (i+1)*cs) of the value list; the first failure to
    arrive replaces the value by its exception. *)
Definition set_result {B} (cs : nat) (st : res (list (option B)))
           (i : nat) (r : res (list B)) : res (list (option B)) :=
  match st, r with
  | Ok v, Ok bs => Ok (firstn (i * cs) v ++ map Some bs ++ skipn ((i + 1) * cs) v)
  | Ok _, Raise e => Raise e
  | Raise e, _ => Raise e
  end.

Definition filled {B} (v : list (option B)) : list B :=
  flat_map (fun o => match o with Some b => [b] | None => [] end) v.

(** [pool.map(f, l)] when the tasks complete in the order [order] (a list
    of task numbers).  Each task maps [f] over its slice in a worker; the
    parent collects the results as they arrive. *)
Definition pool_map {A B} (p : Pool) (order : list nat)
           (f : A -> res B) (l : list A) : res (list B) :=
  let cs := chunksize p (length l) in
  let tasks := get_tasks (length l) cs l in
  v <~ fold_left (fun st i => set_result cs st i (mapM f (nth i tasks [])))
                 order (Ok (repeat None (length l))) ;;
  Ok (filled v).

(** How many tasks [pool.map] submits for [len] items. *)
Definition task_count (p : Pool) (len : nat) : nat :=
  let cs := chunksize p len in
  if (cs =? 0)%nat then 0%nat
  else if (len mod cs =? 0)%nat then (len / cs)%nat else S (len / cs).

End Multiprocessing.
Import Multiprocessing.


(* ================================================================= *)
(** ** What the engine takes from its surroundings *)

(** [geographical_area_from_bounds] is pycsep's (it is imported, not
    defined, by both files), [cpu_count] is [mp.cpu_count()], and
    [completion k n] is the order in which the [n] tasks of the [k]-th
    [pool.map] of a call happen to complete. *)
Record Env : Type := mk_env {
  geographical_area_from_bounds : Q -> Q -> Q -> Q -> Q;
  cpu_count : Z;
  completion : nat -> nat -> list nat
}.

(** [pool.map(f, l)] as the [k]-th map of a call in the environment [E]. *)
Definition map_in {A B} (E : Env) (k : nat) (p : Pool)
           (f : A -> res B) (l : list A) : py (list B) :=
  lift (pool_map p (completion E k (task_count p (length l))) f l).

(** A row [[lon1, lat1, lon2, lat2]] of an [n x 4] array of bounds:
    bottom-left and top-right corners. *)
Record cell : Type := mk_cell { lon1 : Q; lat1 : Q; lon2 : Q; lat2 : Q }.

(* ================================================================= *)
(** ** fecsep/utils.py *)

Module Fecsep.

Definition create_polygon (fg : cell) : Polygon :=
  box (lon1 fg) (lat1 fg) (lon2 fg) (lat2 fg).

Definition calc_cell_area (E : Env) (c : cell) : Q :=
  geographical_area_from_bounds E (lon1 c) (lat1 c) (lon2 c) (lat2 c).

(** What one forecast cell, of polygon [p], rates [r] and area [a], adds to
    the target polygon: [r * (shared_area / a)].  The quotient is the
    program's where [a] is not zero.  Where [a] is zero the program has no
    rate to give: it raises ZeroDivisionError when both areas are pycsep's
    integer [0] (a cell without width or height), and computes nan or inf
    when a zero is a float; [Q] has neither and its quotient is [0] there.
    The area of a valid cell between the poles is not zero: what is
    stated below of the rates of phase two is stated of the program for
    source cells of an area that is not zero. *)
Definition contribution (E : Env) (target_poly p : Polygon) (r : vec) (a : Q) : vec :=
  let '(x0, y0, x1, y1) := intersection_bounds target_poly p in
  let shared_area := geographical_area_from_bounds E x0 y0 x1 y1 in
  scale r (shared_area / a).

(** One pass of the loop of [_map_overlapping_cells], for the index [j]. *)
Definition overlap_step (E : Env) (fcst_grid_poly : list Polygon)
           (fcst_cell_area : list Q) (fcst_rate_poly : list vec)
           (target_poly : Polygon) (acc : res vec) (j : nat) : res vec :=
  map_rate <~ acc ;;
  p <~ getitem fcst_grid_poly j ;;
  if intersects target_poly p then
    r <~ getitem fcst_rate_poly j ;;
    a <~ getitem fcst_cell_area j ;;
    add1 map_rate (contribution E target_poly p r a)
  else Ok map_rate.

Definition _map_overlapping_cells (E : Env) (fcst_grid_poly : list Polygon)
           (fcst_cell_area : list Q) (fcst_rate_poly : list vec)
           (target_poly : Polygon) : res vec :=
  fold_left (overlap_step E fcst_grid_poly fcst_cell_area fcst_rate_poly target_poly)
            (seq 0 (length fcst_grid_poly)) (Ok [0]).

(** One entry of the mask [c] of [_map_exact_inside_cells]: closed
    comparisons of the four bounds of a forecast cell [g]. *)
Definition inside (boundary g : cell) : bool :=
  (Qle_bool (lon1 boundary) (lon1 g) && Qle_bool (lat1 boundary) (lat1 g))
  && (Qle_bool (lon2 g) (lon2 boundary) && Qle_bool (lat2 g) (lat2 boundary)).

Definition inside_mask (fcst_grid : list cell) (boundary : cell) : list bool :=
  map (inside boundary) fcst_grid.

Definition _map_exact_inside_cells (fcst_grid : list cell) (fcst_rate : ndarray)
           (boundary : cell) : res (vec * list nat) :=
  let c := inside_mask fcst_grid boundary in
  let exact_cells := where_true c in
  inside <~ getmask (rows fcst_rate) c ;;
  Ok (sum_axis0 (ncols fcst_rate) inside, exact_cells).

Definition zero_pad (zero_pad_len : nat) (r : vec) : vec :=
  if (length r <? zero_pad_len)%nat then zeros zero_pad_len else r.

Definition _forecast_mapping_generic (E : Env) (target_grid fcst_grid : list cell)
           (fcst_rate : ndarray) (ncpu : option Z) : py (list vec) :=
  let ncpu := match ncpu with None => cpu_count E | Some n => n end in
  pool <- lift (new_pool ncpu) ;;
  _ <- print "Number of CPUs :" ncpu ;;
  exact_rate <- map_in E 0 pool (_map_exact_inside_cells fcst_grid fcst_rate) target_grid ;;
  let exact_cells := map snd exact_rate in
  let exact_rate_tgt := map fst exact_rate in
  exact_cells <- lift (concatenate exact_cells) ;;
  fcst_rate_poly <- lift (delete (rows fcst_rate) exact_cells) ;;
  lft_fcst_grid <- lift (delete fcst_grid exact_cells) ;;
  pool <- lift (new_pool ncpu) ;;
  fcst_grid_poly <- map_in E 1 pool (fun c => Ok (create_polygon c)) lft_fcst_grid ;;
  pool <- lift (new_pool ncpu) ;;
  fcst_cell_area <- map_in E 2 pool (fun c => Ok (calc_cell_area E c)) lft_fcst_grid ;;
  pool <- lift (new_pool ncpu) ;;
  target_grid_poly <- map_in E 3 pool (fun c => Ok (create_polygon c)) target_grid ;;
  pool <- lift (new_pool ncpu) ;;
  rate_tgt <- map_in E 4 pool
                (_map_overlapping_cells E fcst_grid_poly fcst_cell_area fcst_rate_poly)
                target_grid_poly ;;
  let zero_pad_len := ncols fcst_rate in
  let rate_tgt := map (zero_pad zero_pad_len) rate_tgt in
  lift (add2 rate_tgt exact_rate_tgt).

(** The caller of the engine: [forecast_mapping] reads the bounds of the two
    regions and the rate matrix and hands them over as they are; the matrix
    it gets back goes into a new [GriddedForecast] on the target region
    (pycsep's, not modelled). *)
Definition forecast_mapping (E : Env) (forecast_bounds : list cell)
           (forecast_data : ndarray) (target_bounds : list cell)
           (ncpu : option Z) : py (list vec) :=
  let bounds_target := target_bounds in
  let bounds := forecast_bounds in
  let data := forecast_data in
  _forecast_mapping_generic E bounds_target bounds data ncpu.

End Fecsep.

(* ================================================================= *)
(** ** code/utils.py: the older copy *)

Module Code.

Definition create_polygon (fg : cell) : Polygon :=
  box (lon1 fg) (lat1 fg) (lon2 fg) (lat2 fg).

Definition calc_cell_area (E : Env) (c : cell) : Q :=
  geographical_area_from_bounds E (lon1 c) (lat1 c) (lon2 c) (lat2 c).

(** The loop of [_map_overlapping_cells], with its division as in
    [Fecsep.contribution]: the program's where the area [a] is not zero. *)
Definition _map_overlapping_cells (E : Env) (fcst_grid_poly : list Polygon)
           (fcst_cell_area : list Q) (fcst_rate_poly : list vec)
           (target_poly : Polygon) : res vec :=
  fold_left
    (fun acc j =>
       map_rate <~ acc ;;
       p <~ getitem fcst_grid_poly j ;;
       if intersects target_poly p then
         let '(x0, y0, x1, y1) := intersection_bounds target_poly p in
         let shared_area := geographical_area_from_bounds E x0 y0 x1 y1 in
         r <~ getitem fcst_rate_poly j ;;
         a <~ getitem fcst_cell_area j ;;
         add1 map_rate (scale r (shared_area / a))
       else Ok map_rate)
    (seq 0 (length fcst_grid_poly)) (Ok [0]).

Definition _map_exact_inside_cells (fcst_grid : list cell) (fcst_rate : ndarray)
           (boundary : cell) : res (vec * list nat) :=
  let c := map (fun g => (Qle_bool (lon1 boundary) (lon1 g) && Qle_bool (lat1 boundary) (lat1 g))
                         && (Qle_bool (lon2 g) (lon2 boundary) && Qle_bool (lat2 g) (lat2 boundary)))
               fcst_grid in
  let exact_cells := where_true c in
  inside <~ getmask (rows fcst_rate) c ;;
  Ok (sum_axis0 (ncols fcst_rate) inside, exact_cells).

Definition _forecast_mapping_generic (E : Env) (target_grid fcst_grid : list cell)
           (fcst_rate : ndarray) (ncpu : option Z) : py (list vec) :=
  let ncpu := match ncpu with None => cpu_count E | Some n => n end in
  pool <- lift (new_pool ncpu) ;;
  _ <- print "Number of CPUs :" ncpu ;;
  exact_rate <- map_in E 0 pool (_map_exact_inside_cells fcst_grid fcst_rate) target_grid ;;
  let exact_cells := map snd exact_rate in
  let exact_rate_tgt := map fst exact_rate in
  exact_cells <- lift (concatenate exact_cells) ;;
  _ <- print "Number of Exact Cells: " (Z.of_nat (length exact_cells)) ;;
  fcst_rate_poly <- lift (delete (rows fcst_rate) exact_cells) ;;
  lft_fcst_grid <- lift (delete fcst_grid exact_cells) ;;
  pool <- lift (new_pool ncpu) ;;
  fcst_grid_poly <- map_in E 1 pool (fun c => Ok (create_polygon c)) lft_fcst_grid ;;
  pool <- lift (new_pool ncpu) ;;
  fcst_cell_area <- map_in E 2 pool (fun c => Ok (calc_cell_area E c)) lft_fcst_grid ;;
  pool <- lift (new_pool ncpu) ;;
  target_grid_poly <- map_in E 3 pool (fun c => Ok (create_polygon c)) target_grid ;;
  pool <- lift (new_pool ncpu) ;;
  rate_tgt <- map_in E 4 pool
                (_map_overlapping_cells E fcst_grid_poly fcst_cell_area fcst_rate_poly)
                target_grid_poly ;;
  let zero_pad_len := ncols fcst_rate in
  let rate_tgt :=
    map (fun r => if (length r <? zero_pad_len)%nat then zeros zero_pad_len else r)
        rate_tgt in
  lift (add2 rate_tgt exact_rate_tgt).

End Code.

(* ================================================================= *)
(** ** A concrete environment *)

(** A flat earth: the area of a box is width times height.  The tasks of a
    map complete last first. *)
Definition flat_area (x0 y0 x1 y1 : Q) : Q := Qabs ((x1 - x0) * (y1 - y0)).

Definition flat_env : Env :=
  {| geographical_area_from_bounds := flat_area;
     cpu_count := 2;
     completion := fun _ n => rev (seq 0 n) |}.


(* ================================================================= *)
(** ** The engine, phase by phase *)

(** The values the engine of [fecsep/utils.py] computes on its way, as
    functions of its arguments: they name what the statements below are
    about. *)
Section Phases.

Variable E : Env.
Variables target_grid fcst_grid : list cell.
Variable fcst_rate : ndarray.

(** Phase one, for the target cell [t]: the indices it consumes and the sum
    of their rates. *)
Definition consumed (t : cell) : list nat :=
  where_true (Fecsep.inside_mask fcst_grid t).

Definition exact_rate (t : cell) : vec :=
  sum_axis0 (ncols fcst_rate)
            (select (Fecsep.inside_mask fcst_grid t) (rows fcst_rate)).

(** Between the phases: every consumed index, and what [numpy.delete]
    leaves of the grid and of the rates. *)
Definition exact_cells : list nat := concat (map consumed target_grid).
Definition lft_fcst_grid : list cell := drop_from 0 exact_cells fcst_grid.
Definition fcst_rate_poly : list vec := drop_from 0 exact_cells (rows fcst_rate).

(** [u + v] when it does not fail: [u] is as long as [v], or is [[x]]. *)
Definition bc_add (u v : vec) : vec :=
  if (length u =? length v)%nat then zip_with Qplus u v
  else map (fun y => hd 0 u + y) v.

(** Phase two, for the target cell [t]: one forecast cell with its rates,
    and the loop over what is left. *)
Definition overlap_add (t : cell) (map_rate : vec) (cr : cell * vec) : vec :=
  if intersects (Fecsep.create_polygon t) (Fecsep.create_polygon (fst cr))
  then bc_add map_rate
              (Fecsep.contribution E (Fecsep.create_polygon t)
                 (Fecsep.create_polygon (fst cr)) (snd cr)
                 (Fecsep.calc_cell_area E (fst cr)))
  else map_rate.

Definition overlap_rate (t : cell) : vec :=
  fold_left (overlap_add t) (combine lft_fcst_grid fcst_rate_poly) [0].

(** The row of the result for the target cell [t]. *)
Definition remap_cell (t : cell) : vec :=
  zip_with Qplus (Fecsep.zero_pad (ncols fcst_rate) (overlap_rate t)) (exact_rate t).

End Phases.

(* ================================================================= *)
(** ** Well-formed inputs *)

(** The order of completion names every task once. *)
Definition fair (E : Env) : Prop :=
  forall k n, Permutation (completion E k n) (seq 0 n).

(** A worker count the pool accepts; without one, the machine has at least
    one CPU. *)
Definition workers_ok (E : Env) (ncpu : option Z) : Prop :=
  match ncpu with
  | None => (1 <= cpu_count E)%Z
  | Some n => (1 <= n)%Z
  end.

Definition workers (E : Env) (ncpu : option Z) : Z :=
  match ncpu with None => cpu_count E | Some n => n end.

(** pycsep's area of a lon/lat box, for latitudes on the sphere: the width
    in longitude times the difference of a primitive [G] of the latitude
    density (on a sphere, [G] is a multiple of the sine of the latitude).
    Between the poles [G] increases with the latitude; nothing is said of
    latitudes below -90 or above 90 degrees. *)
Definition area_law (area : Q -> Q -> Q -> Q -> Q) : Prop :=
  exists G : Q -> Q,
    (forall y y', -(90) <= y -> y <= y' -> y' <= 90 -> G y <= G y')
    /\ (forall y y', -(90) <= y -> y < y' -> y' <= 90 -> G y < G y')
    /\ forall x0 y0 x1 y1,
         x0 <= x1 -> -(90) <= y0 -> y0 <= y1 -> y1 <= 90 ->
         area x0 y0 x1 y1 == (x1 - x0) * (G y1 - G y0).

(** A latitude brought back between the poles. *)
Definition clamp (y : Q) : Q := qmax (-(90)) (qmin 90 y).

(** The cell invariant of the data model. *)
Definition valid_cell (c : cell) : Prop :=
  lon1 c < lon2 c /\ lat1 c < lat2 c.

(** The latitudes of the cell are latitudes: between the poles. *)
Definition on_sphere (c : cell) : Prop :=
  -(90) <= lat1 c /\ lat2 c <= 90.

Definition covers (c : cell) (x y : Q) : Prop :=
  (lon1 c <= x /\ x <= lon2 c) /\ (lat1 c <= y /\ y <= lat2 c).

Definition interior (c : cell) (x y : Q) : Prop :=
  (lon1 c < x /\ x < lon2 c) /\ (lat1 c < y /\ y < lat2 c).

(** Two cells overlap when they share an interior point. *)
Definition overlapping (c d : cell) : Prop :=
  exists x y, interior c x y /\ interior d x y.

Definition non_overlapping (P : list cell) : Prop :=
  forall i j c d, i <> j -> nth_error P i = Some c -> nth_error P j = Some d ->
                  ~ overlapping c d.

(** The footprint of a partition: the points its cells cover. *)
Definition footprint (P : list cell) (x y : Q) : Prop :=
  exists c, In c P /\ covers c x y.

Definition same_footprint (P P' : list cell) : Prop :=
  forall x y, footprint P x y <-> footprint P' x y.

(** [s] lies in [t], bounds included. *)
Definition contained (s t : cell) : Prop :=
  lon1 s >= lon1 t /\ lat1 s >= lat1 t /\ lon2 s <= lon2 t /\ lat2 s <= lat2 t.

(** Sums of rationals, and the total of the bin [k] over a list of rate
    vectors. *)
Definition qsum (l : list Q) : Q := fold_right Qplus 0 l.

Definition bin (k : nat) (v : vec) : Q := nth k v 0.

Definition total (k : nat) (m : list vec) : Q := qsum (map (bin k) m).

(** Equality of rate matrices, as numbers. *)
Definition vec_eq (u v : vec) : Prop := Forall2 Qeq u v.
Definition mat_eq (a b : list vec) : Prop := Forall2 vec_eq a b.

(** The value the engine returns, computed in sequence: what
    [numpy.concatenate] says of an empty target grid, what the mask says of
    a rate matrix that is not as long as the grid, and else the sum of the
    two phases. *)
Definition engine_value (E : Env) (target_grid fcst_grid : list cell)
           (fcst_rate : ndarray) : res (list vec) :=
  match target_grid with
  | [] => Raise ValueError
  | _ =>
      if (length (rows fcst_rate) =? length fcst_grid)%nat
      then add2 (map (fun t => Fecsep.zero_pad (ncols fcst_rate)
                                 (overlap_rate E target_grid fcst_grid fcst_rate t))
                     target_grid)
                (map (exact_rate fcst_grid fcst_rate) target_grid)
      else Raise IndexError
  end.

(** Checks that compute: a valid cell; two cells that do not overlap
    because one ends where the other begins, or before; a list of cells
    that pairwise do not overlap. *)
Definition valid_cellb (c : cell) : bool :=
  negb (Qle_bool (lon2 c) (lon1 c)) && negb (Qle_bool (lat2 c) (lat1 c)).

Definition on_sphereb (c : cell) : bool :=
  Qle_bool (-(90)) (lat1 c) && Qle_bool (lat2 c) 90.

Definition disjointb (c d : cell) : bool :=
  (Qle_bool (lon2 c) (lon1 d) || Qle_bool (lon2 d) (lon1 c))
  || (Qle_bool (lat2 c) (lat1 d) || Qle_bool (lat2 d) (lat1 c)).

Fixpoint pairwise_disjointb (P : list cell) : bool :=
  match P with
  | [] => true
  | c :: P' => forallb (disjointb c) P' && pairwise_disjointb P'
  end.

(** ** Cells that need not be well-formed *)

(** The four corners of the cell span a rectangle (possibly with its
    bounds in the wrong order). *)
Definition box_like (c : cell) : Prop :=
  ~ lon1 c == lon2 c /\ ~ lat1 c == lat2 c.

(** What the specification calls a malformed cell. *)
Definition malformed (c : cell) : Prop :=
  lon1 c >= lon2 c \/ lat1 c >= lat2 c \/ lat1 c < -(90) \/ 90 < lat2 c.

(** ** Measuring what a cell shares with a box *)

(** The length of what the intervals [[p1, p2]] and [[a1, a2]] share. *)
Definition ov (p1 p2 a1 a2 : Q) : Q := qmax 0 (qmin p2 a2 - qmax p1 a1).

(** The area the cell [t] shares with the box [B], for a latitude
    primitive [G]. *)
Definition shared (G : Q -> Q) (B t : cell) : Q :=
  ov (lon1 t) (lon2 t) (lon1 B) (lon2 B)
  * ov (G (lat1 t)) (G (lat2 t)) (G (lat1 B)) (G (lat2 B)).




(** What phase two takes from the source cell [s] for the target cell
    [t]: the share of the area of [s] that lies in [t]. *)
Definition weight (E : Env) (t s : cell) : Q :=
  if intersects (Fecsep.create_polygon t) (Fecsep.create_polygon s)
  then (let '(x0, y0, x1, y1) :=
          intersection_bounds (Fecsep.create_polygon t) (Fecsep.create_polygon s) in
        geographical_area_from_bounds E x0 y0 x1 y1)
       / Fecsep.calc_cell_area E s
  else 0.

(* ================================================================= *)
(** ** The engine as a matrix *)

(** The part of the rates of the source cell of index [j] that the target
    cell [t] receives: all of it when phase one consumes [j] for [t], its
    share when phase two is given [j], nothing when another target cell
    consumed it. *)
Definition coef (E : Env) (target_grid fcst_grid : list cell) (t : cell)
           (j : nat) : Q :=
  (if mem j (consumed fcst_grid t) then 1 else 0)
  + (if mem j (exact_cells target_grid fcst_grid) then 0
     else weight E t (nth j fcst_grid (mk_cell 0 0 0 0))).

(** [a + b] and [c * a] on rate matrices of the same shape. *)
Definition matrix_add (a b : ndarray) : ndarray :=
  {| ncols := ncols a; rows := zip_with (zip_with Qplus) (rows a) (rows b) |}.

Definition matrix_scale (c : Q) (a : ndarray) : ndarray :=
  {| ncols := ncols a; rows := map (fun r => scale r c) (rows a) |}.

(** Every rate of the matrix is at least zero. *)
Definition nonneg (m : list vec) : Prop :=
  Forall (Forall (fun x => 0 <= x)) m.

(* ================================================================= *)
(** ** An environment with the poles *)

(** On a sphere the latitude primitive of [area_law] is a multiple of the
    sine, which takes the same value at [90 + d] and at [90 - d] degrees.
    [tent] is the piecewise linear function with that symmetry about both
    poles; between the poles it is the latitude itself. *)
Definition tent (y : Q) : Q :=
  if Qle_bool y (-(90)) then -(180) - y
  else if Qle_bool y 90 then y
  else 180 - y.

(** The area of pycsep with [tent] for the sine: signed, the width times
    the difference of the primitive, zero for a box without width or
    height. *)
Definition polar_area (x0 y0 x1 y1 : Q) : Q := (x1 - x0) * (tent y1 - tent y0).

Definition polar_env : Env :=
  {| geographical_area_from_bounds := polar_area;
     cpu_count := 2;
     completion := fun _ n => rev (seq 0 n) |}.

(* ================================================================= *)
(** * The time configuration of an experiment

    [fecsep/utils.py] also builds the testing windows of an experiment:
    [parse_timedelta_string] reads the length of a window,
    [time_windows_ti] and [time_windows_td] cut the time span, and
    [read_time_config] puts the three together.  Their embedding needs
    Python's strings, its dynamically typed values and its dictionaries. *)

From Stdlib Require Import Ascii.

(* ================================================================= *)
(** ** Python strings *)

(** A [string] is a sequence of code points below 256. *)
Module Str.
#[local] Open Scope string_scope.

(** The class [\d] of [re]: below 256 the decimal digits are ['0'..'9']. *)
Definition is_digit (c : ascii) : bool :=
  (48 <=? nat_of_ascii c)%nat && (nat_of_ascii c <=? 57)%nat.

(** [c.lower()]: the letters ['A'..'Z'] and the capital letters of Latin-1
    (192..222 but the multiplication sign 215) move up by 32. *)
Definition lower_char (c : ascii) : ascii :=
  let n := nat_of_ascii c in
  if ((65 <=? n)%nat && (n <=? 90)%nat)
     || ((192 <=? n)%nat && (n <=? 222)%nat && negb (n =? 215)%nat)
  then ascii_of_nat (n + 32) else c.

(** [s.lower()] *)
Fixpoint lower (s : string) : string :=
  match s with
  | EmptyString => EmptyString
  | String c s' => String (lower_char c) (lower s')
  end.

(** [sub in s] *)
Fixpoint contains (sub s : string) : bool :=
  if prefix sub s then true
  else match s with
       | EmptyString => false
       | String _ s' => contains sub s'
       end.

(** [s[:-1]] *)
Fixpoint drop_last (s : string) : string :=
  match s with
  | EmptyString => EmptyString
  | String c EmptyString => EmptyString
  | String c s' => String c (drop_last s')
  end.

Definition nonempty (s : string) : bool :=
  match s with EmptyString => false | _ => true end.

(** [cur + c] *)
Definition snoc (cur : string) (c : ascii) : string :=
  cur ++ String c EmptyString.

(** [re.split(r'(\d+)', s)]: the text between the runs of digits and,
    because the pattern is a group, the runs themselves; [scan] reads [s]
    from the left, [cur] being the piece read so far, a run of digits when
    [in_digits]. *)
Fixpoint scan (in_digits : bool) (cur s : string) : list string :=
  match s with
  | EmptyString => if in_digits then [cur; EmptyString] else [cur]
  | String c s' =>
      if is_digit c
      then (if in_digits then scan true (snoc cur c) s'
            else cur :: scan true (String c EmptyString) s')
      else (if in_digits then cur :: scan false (String c EmptyString) s'
            else scan false (snoc cur c) s')
  end.

Definition re_split_digits (s : string) : list string :=
  scan false EmptyString s.

(** [s.split(sep)] for a separator of one character. *)
Fixpoint split_from (sep : ascii) (cur s : string) : list string :=
  match s with
  | EmptyString => [cur]
  | String c s' =>
      if Ascii.eqb c sep then cur :: split_from sep EmptyString s'
      else split_from sep (snoc cur c) s'
  end.

Definition split (sep : ascii) (s : string) : list string :=
  split_from sep EmptyString s.

(** Every character of [s] satisfies [p]. *)
Fixpoint all (p : ascii -> bool) (s : string) : bool :=
  match s with
  | EmptyString => true
  | String c s' => p c && all p s'
  end.

Definition digits (s : string) : Prop := all is_digit s = true.
Definition no_digit (s : string) : Prop :=
  all (fun c => negb (is_digit c)) s = true.

End Str.

(* ================================================================= *)
(** ** Python values, exceptions and dictionaries *)

Module Py.
#[local] Open Scope string_scope.

(** A moment in time ([datetime.datetime]), in seconds. *)
Definition datetime : Type := Z.

(** The values the time configuration holds. *)
Inductive value : Type :=
| VNone
| VInt (z : Z)
| VFloat (q : Q)
| VStr (s : string)
| VDate (t : datetime)
| VWindows (w : list (datetime * datetime)).

Inductive error : Type :=
| ValueError
| IndexError
| KeyError
| TypeError
| AttributeError
| ZeroDivisionError
| Exception.

Inductive outcome (A : Type) : Type :=
| Return (a : A)
| Throw (e : error).
Arguments Return {A} a.
Arguments Throw {A} e.

(** What [print] wrote: a value, or the message of an exception. *)
Inductive shown : Type :=
| Shown (v : value)
| ShownExc (e : error).

(** A computation that prints and then returns or raises. *)
Definition io (A : Type) : Type := (list shown * outcome A)%type.

Definition ret {A} (a : A) : io A := ([], Return a).
Definition throw {A} (e : error) : io A := ([], Throw e).
Definition print (v : value) : io unit := ([Shown v], Return tt).
Definition print_exc (e : error) : io unit := ([ShownExc e], Return tt).
Definition lift {A} (r : outcome A) : io A := ([], r).

Definition bind {A B} (m : io A) (k : A -> io B) : io B :=
  match snd m with
  | Return a => ((fst m ++ fst (k a))%list, snd (k a))
  | Throw e => (fst m, Throw e)
  end.

(** The same for a computation that prints nothing. *)
Definition obind {A B} (m : outcome A) (k : A -> outcome B) : outcome B :=
  match m with
  | Return a => k a
  | Throw e => Throw e
  end.

(** [bool(v)] *)
Definition truthy (v : value) : bool :=
  match v with
  | VNone => false
  | VInt z => negb (z =? 0)%Z
  | VFloat q => negb (Qeq_bool q 0)
  | VStr s => Str.nonempty s
  | VDate _ => true
  | VWindows w => match w with [] => false | _ => true end
  end.

(** [v is None] *)
Definition is_none (v : value) : bool :=
  match v with VNone => true | _ => false end.

(** [v == s] for a string literal [s] *)
Definition eq_str (v : value) (s : string) : bool :=
  match v with VStr s' => String.eqb s' s | _ => false end.

(** [v + 1]: defined on numbers only. *)
Definition add_one (v : value) : outcome value :=
  match v with
  | VInt z => Return (VInt (z + 1))
  | VFloat q => Return (VFloat (q + 1))
  | _ => Throw TypeError
  end.

(** [l.index(x)] *)
Fixpoint index (x : string) (l : list string) : outcome nat :=
  match l with
  | [] => Throw ValueError
  | y :: l' => if String.eqb y x then Return 0%nat
               else obind (index x l') (fun i => Return (S i))
  end.

(** [l[i]] *)
Definition item {A} (l : list A) (i : nat) : outcome A :=
  match nth_error l i with
  | Some a => Return a
  | None => Throw IndexError
  end.

(** A dictionary with string keys, the newest entry first; the code reads
    it by key only. *)
Definition dict : Type := list (string * value).

(** [d.get(k)] *)
Fixpoint get (d : dict) (k : string) : option value :=
  match d with
  | [] => None
  | (k', v) :: d' => if String.eqb k' k then Some v else get d' k
  end.

Fixpoint remove (k : string) (d : dict) : dict :=
  match d with
  | [] => []
  | (k', v) :: d' => if String.eqb k' k then remove k d'
                     else (k', v) :: remove k d'
  end.

(** [d[k] = v] *)
Definition set (d : dict) (k : string) (v : value) : dict :=
  (k, v) :: remove k d.

(** [d.update(e)], the entries of [e] in the order of [e.items()] *)
Definition update (d e : dict) : dict :=
  fold_left (fun d kv => set d (fst kv) (snd kv)) e d.

(** [k in d.keys()] *)
Definition has_key (d : dict) (k : string) : bool :=
  match get d k with Some _ => true | None => false end.

(** The argument that a call of [f] with the dictionary [d] unpacked as
    keywords gives to the parameter [k] of [f]. *)
Definition arg (d : dict) (k : string) (default : value) : value :=
  match get d k with Some v => v | None => default end.

(** What the program takes from the libraries: the text of a float in an
    f-string, [float(s)], [pandas.date_range(...).to_pydatetime()] and the
    sum and difference of a date and a [pandas.DateOffset] of [x] units. *)
Record Lib : Type := mk_lib {
  format_float : Q -> string;
  float_of_string : string -> outcome Q;
  date_range : value -> value -> value -> option string
               -> outcome (list datetime);
  plus_offset : value -> string -> Q -> outcome value;
  minus_offset : value -> string -> Q -> outcome value
}.

End Py.

Declare Scope io_scope.
Delimit Scope io_scope with io.
Notation "x <-- m ;; k" := (Py.bind m (fun x => k))
  (at level 61, m at next level, right associativity) : io_scope.
Notation "m ;;; k" := (Py.bind m (fun _ => k))
  (at level 61, right associativity) : io_scope.

(* ================================================================= *)
(** ** fecsep/utils.py: the time windows *)

Module Time.
Import Py.
#[local] Open Scope string_scope.
#[local] Open Scope io_scope.

Definition _UNITS : list string := ["years"; "months"; "weeks"; "days"].
Definition _PD_FORMAT : list string := ["YS"; "MS"; "W"; "D"].

(** [[i for i in [j[:-1] for j in _UNITS] if i in unit_.lower()][0]] *)
Definition find_unit (unit_ : string) : outcome string :=
  item (filter (fun i => Str.contains i (Str.lower unit_))
               (map Str.drop_last _UNITS)) 0.

(** [f'{n}-{unit}s'] *)
Definition window_text (n unit : string) : string :=
  n ++ "-" ++ unit ++ "s".

(** [parse_timedelta_string(window, exp_class)]: the length of a testing
    window, as the text [amount-units].  An unpacking that does not get two
    pieces raises [ValueError], a unit that is not found [IndexError]; the
    function turns both into its own [ValueError].  A window that is
    neither a [str] nor a [float] falls through both tests: the function
    returns [None]. *)
Definition parse_timedelta_string (L : Lib) (window exp_class : value)
  : outcome value :=
  match window with
  | VStr w =>
      match filter Str.nonempty (Str.re_split_digits w) with
      | [n; unit_] =>
          match find_unit unit_ with
          | Return unit => Return (VStr (window_text n unit))
          | Throw _ => Throw ValueError
          end
      | _ => Throw ValueError
      end
  | VFloat n =>
      let unit := if eq_str exp_class "ti" then "year" else "day" in
      Return (VStr (window_text (format_float L n) unit))
  | _ => Return VNone
  end.

(** [n, unit = horizon.split('-')] and
    [f'{n}{_PD_FORMAT[_UNITS.index(unit)]}'] *)
Definition frequency_of (horizon : string) : outcome string :=
  match Str.split "-" horizon with
  | [n; unit] =>
      obind (index unit _UNITS) (fun i =>
      obind (item _PD_FORMAT i) (fun code =>
      Return (n ++ code)))
  | _ => Throw ValueError
  end.

(** [.split] of a value: only a [str] has the method. *)
Definition horizon_frequency (horizon : value) : outcome string :=
  match horizon with
  | VStr h => frequency_of h
  | _ => Throw AttributeError
  end.

(** [intervals + 1 if intervals else intervals] *)
Definition periods_of (intervals : value) : outcome value :=
  if truthy intervals then add_one intervals else Return intervals.

(** [[(i, j) for i, j in zip(timelimits[:-1], timelimits[1:])]] *)
Definition incremental (timelimits : list datetime)
  : list (datetime * datetime) :=
  combine (removelast timelimits) (tl timelimits).

(** [[(timelimits[0], i) for i in timelimits[1:]]]: the first limit is
    read once for every window, so not at all when there is none. *)
Definition cumulative (timelimits : list datetime)
  : list (datetime * datetime) :=
  map (fun i => (hd 0%Z timelimits, i)) (tl timelimits).

(** [periods = intervals + 1 if intervals else intervals] and the call of
    [pandas.date_range] in its [try]: a [ValueError] is printed and
    raised again with the message of the function, any other exception
    passes. *)
Definition timelimits_of (L : Lib) (start_date end_date intervals : value)
           (frequency : option string) : io (list datetime) :=
  periods <-- lift (periods_of intervals) ;;
  match date_range L start_date end_date periods frequency with
  | Return t => ret t
  | Throw ValueError => print_exc ValueError ;;; throw ValueError
  | Throw e => throw e
  end.

(** The windows for [growth]; the function ends without a [return] when
    [growth] is neither of the two words. *)
Definition windows_of (growth : value) (timelimits : list datetime) : value :=
  if eq_str growth "incremental" then VWindows (incremental timelimits)
  else if eq_str growth "cumulative" then VWindows (cumulative timelimits)
  else VNone.

(** [time_windows_ti(start_date, end_date, intervals, horizon, growth)] *)
Definition time_windows_ti (L : Lib)
           (start_date end_date intervals horizon growth : value)
  : io value :=
  st <-- (if is_none intervals && is_none horizon
          then ret (VInt 1, None)
          else if truthy horizon
          then print horizon ;;;
               f <-- lift (horizon_frequency horizon) ;;
               ret (intervals, Some f)
          else ret (intervals, None)) ;;
  timelimits <-- timelimits_of L start_date end_date (fst st) (snd st) ;;
  ret (windows_of growth timelimits).

(** [base + offset if offset else other], the offset being
    [pandas.DateOffset] with the keyword [offset[1]] set to
    [float(offset[0])]; the key [offset[1]] of the keyword dictionary is
    read before its value. *)
Definition shifted (L : Lib)
           (shift : Lib -> value -> string -> Q -> outcome value)
           (offset : option (list string)) (base other : value)
  : outcome value :=
  match offset with
  | Some o =>
      obind (item o 1) (fun unit =>
      obind (item o 0) (fun n =>
      obind (float_of_string L n) (fun x =>
      shift L base unit x)))
  | None => Return other
  end.

(** [time_windows_td(start_date, end_date, timeintervals, timehorizon,
    timeoffset)]; the function ends without a [return]. *)
Definition time_windows_td (L : Lib)
           (start_date end_date timeintervals timehorizon timeoffset : value)
  : io value :=
  frequency <-- lift (if truthy timehorizon
                      then obind (horizon_frequency timehorizon)
                                 (fun f => Return (Some f))
                      else Return None) ;;
  periods <-- lift (periods_of timeintervals) ;;
  lift (
    obind (if truthy timeoffset
           then match timeoffset with
                | VStr o => Return (Some (Str.split "-" o))
                | _ => Throw AttributeError
                end
           else Return None) (fun offset =>
    obind (shifted L plus_offset offset start_date start_date)
          (fun start_offset =>
    obind (shifted L minus_offset offset end_date start_date)
          (fun end_offset =>
    obind (date_range L start_date end_offset periods frequency)
          (fun lower_limits =>
    obind (date_range L start_offset end_date periods frequency)
          (fun upper_limits =>
    Return VNone)))))).

Definition _attrs : list string :=
  ["start_date"; "end_date"; "intervals"; "horizon"; "offset"; "growth";
   "exp_class"].

(** [if k in time_config.keys():
        time_config[k] = parse_timedelta_string(time_config[k])] *)
Definition parse_entry (L : Lib) (time_config : dict) (k : string)
  : outcome dict :=
  match get time_config k with
  | Some v => obind (parse_timedelta_string L v (VStr "ti"))
                    (fun p => Return (set time_config k p))
  | None => Return time_config
  end.

(** [read_time_config(time_config, **kwargs)].  The default of
    [time_config.get('exp_class', kwargs['exp_class'])] is computed before
    [get] is called, so a missing keyword is a [KeyError] whatever the
    configuration holds. *)
Definition read_time_config (L : Lib) (time_config : option dict)
           (kwargs : dict) : io (option dict) :=
  let time_config := match time_config with Some d => d | None => [] end in
  let experiment_class :=
    match get kwargs "exp_class" with
    | Some default => arg time_config "exp_class" default
    | None => VStr "ti"
    end in
  let time_config :=
    match get kwargs "exp_class" with
    | Some _ => time_config
    | None => set time_config "exp_class" experiment_class
    end in
  let time_config :=
    update time_config
           (filter (fun kv => existsb (String.eqb (fst kv)) _attrs) kwargs) in
  time_config <-- lift (parse_entry L time_config "horizon") ;;
  time_config <-- lift (parse_entry L time_config "offset") ;;
  if eq_str experiment_class "ti"
  then w <-- time_windows_ti L (arg time_config "start_date" VNone)
                               (arg time_config "end_date" VNone)
                               (arg time_config "intervals" VNone)
                               (arg time_config "horizon" VNone)
                               (arg time_config "growth" (VStr "incremental")) ;;
       ret (Some (set time_config "time_windows" w))
  else if eq_str experiment_class "td"
  then w <-- time_windows_td L (arg time_config "start_date" VNone)
                               (arg time_config "end_date" VNone)
                               (arg time_config "timeintervals" VNone)
                               (arg time_config "timehorizon" VNone)
                               (arg time_config "timeoffset" VNone) ;;
       ret (Some (set time_config "time_windows" w))
  else ret None.

End Time.

(* ================================================================= *)
(** * code/utils.py: the resampling of a model

    [resample_block_model] reads a model on a grid of [nx] by [ny] cells,
    adds up the rates of every block of [k] by [k] cells and writes the
    model of the blocks.  The embedding is of what it computes between
    the reading and the writing: the rates of the blocks from the array
    [data] of the file, the number [nm] of magnitudes of its header and
    [k]. *)

Module Resample.

(** [ordered.reshape(int(nx/k), k, int(ny/k), k, nm).sum(axis=(1, 3))] at
    [[I, J, m]], where [flat] holds the numbers of [ordered] in the order
    of its memory: the number at [[x, y, m]] of [ordered] is at
    [(x * ny + y) * nm + m], and the cell at [[I, a, J, b]] of the blocks
    is the cell at [[I * k + a, J * k + b]]. *)
Definition block (ny nm k : nat) (flat : list Q) (I J m : nat) : Q :=
  qsum (map (fun a =>
    qsum (map (fun b =>
      nth (((I * k + a) * ny + (J * k + b)) * nm + m) flat 0)
      (seq 0 k)))
    (seq 0 k)).

(** The rates of the blocks, one row for a block, in the order of
    [resampled.reshape(int(nx/k) * int(ny/k), nm)].  [nx % k] divides by
    zero when [k] is zero; [data[:, 6:].reshape((nx, ny, nm))] needs
    [nx * ny * nm] numbers; a negative [k] passes the test of the factors
    and gives [reshape] two negative lengths, which numpy refuses. *)
Definition resample (nx ny : nat) (data : list (list Q)) (nm : nat) (k : Z)
  : Py.outcome (list (list Q)) :=
  if (k =? 0)%Z then Py.Throw Py.ZeroDivisionError
  else if negb (Z.of_nat nx mod k =? 0)%Z || negb (Z.of_nat ny mod k =? 0)%Z
  then Py.Throw Py.Exception
  else
    let flat := concat (map (skipn 6) data) in
    if negb (length flat =? nx * ny * nm)%nat then Py.Throw Py.ValueError
    else if (k <? 0)%Z then Py.Throw Py.ValueError
    else
      let k := Z.to_nat k in
      Py.Return
        (flat_map (fun I =>
           map (fun J => map (fun m => block ny nm k flat I J m) (seq 0 nm))
               (seq 0 (ny / k)))
           (seq 0 (nx / k))).

(** [nx = 3600], [ny = 1800], [nm = len(magnitudes)] *)
Definition resample_block_model (data : list (list Q)) (magnitudes : list Q)
           (k : Z) : Py.outcome (list (list Q)) :=
  resample 3600 1800 data (length magnitudes) k.

End Resample.

(* ================================================================= *)
(** * Properties *)

(** ** Results and lists *)

Lemma mapM_pure {A B} (g : A -> B) (l : list A) :
  mapM (fun a => Ok (g a)) l = Ok (map g l).
Proof.
  induction l as [|a l IH]; simpl; [reflexivity|].
  now rewrite IH.
Qed.

Lemma mapM_ok_map {A B} (f : A -> res B) (g : A -> B) (l : list A) :
  (forall a, In a l -> f a = Ok (g a)) -> mapM f l = Ok (map g l).
Proof.
  induction l as [|a l IH]; simpl; intros H; [reflexivity|].
  rewrite (H a) by now left. simpl.
  rewrite IH by (intros; apply H; now right). reflexivity.
Qed.

Lemma mapM_length {A B} (f : A -> res B) (l : list A) (bs : list B) :
  mapM f l = Ok bs -> length bs = length l.
Proof.
  revert bs; induction l as [|a l IH]; simpl; intros bs H.
  - now inversion H.
  - destruct (f a); simpl in H; [|discriminate].
    destruct (mapM f l); simpl in H; [|discriminate].
    inversion H; subst; simpl. now rewrite (IH _ eq_refl).
Qed.

Lemma mapM_firstn {A B} (f : A -> res B) (k : nat) (l : list A) (bs : list B) :
  mapM f l = Ok bs -> mapM f (firstn k l) = Ok (firstn k bs).
Proof.
  revert l bs; induction k as [|k IH]; intros l bs H; [reflexivity|].
  destruct l as [|a l]; simpl in *.
  - now inversion H.
  - destruct (f a); simpl in *; [|discriminate].
    destruct (mapM f l) eqn:El; simpl in *; [|discriminate].
    inversion H; subst. now rewrite (IH _ _ El).
Qed.

Lemma mapM_skipn {A B} (f : A -> res B) (k : nat) (l : list A) (bs : list B) :
  mapM f l = Ok bs -> mapM f (skipn k l) = Ok (skipn k bs).
Proof.
  revert l bs; induction k as [|k IH]; intros l bs H; [exact H|].
  destruct l as [|a l]; simpl in *.
  - now inversion H.
  - destruct (f a); simpl in *; [|discriminate].
    destruct (mapM f l) eqn:El; simpl in *; [|discriminate].
    inversion H; subst. now apply IH.
Qed.

Lemma mapM_raise_head {A B} (f : A -> res B) (e : exn) (l : list A) :
  l <> [] -> (forall a, In a l -> f a = Raise e) -> mapM f l = Raise e.
Proof.
  destruct l as [|a l]; [congruence|]. intros _ H. simpl.
  now rewrite (H a) by now left.
Qed.

(** ** multiprocessing: the result of a map does not depend on the order
       in which its tasks complete *)

Section PoolMap.

Variables A B : Type.
Variable f : A -> res B.

Lemma chunksize_pos (p : Pool) (n : nat) :
  (0 < n)%nat -> (0 < chunksize p n)%nat.
Proof.
  intros Hn. unfold chunksize.
  destruct (Nat.eqb_spec n 0); [lia|].
  destruct (Nat.eqb_spec (n mod (processes p * 4)) 0) as [Hm|Hm]; [|lia].
  destruct (processes p * 4)%nat as [|d] eqn:Ed.
  - simpl in Hm. lia.
  - pose proof (Nat.div_mod_eq n (S d)). rewrite Hm in H.
    destruct (n / S d)%nat; lia.
Qed.

Lemma task_count_lt (p : Pool) (n i : nat) :
  (0 < n)%nat ->
  (i < task_count p n)%nat <-> (i * chunksize p n < n)%nat.
Proof.
  intros Hn. unfold task_count.
  pose proof (chunksize_pos p Hn) as Hc.
  set (cs := chunksize p n) in *.
  destruct (Nat.eqb_spec cs 0); [lia|].
  pose proof (Nat.div_mod_eq n cs) as Hd.
  pose proof (Nat.mod_upper_bound n cs ltac:(lia)) as Hm.
  destruct (Nat.eqb_spec (n mod cs) 0) as [H0|H0]; split; intros H; nia.
Qed.

Lemma task_count_0 (p : Pool) : task_count p 0 = 0%nat.
Proof. reflexivity. Qed.

Lemma nth_get_tasks (cs : nat) :
  (0 < cs)%nat ->
  forall (i fuel : nat) (l : list A),
    (i * cs < length l)%nat -> (length l <= fuel)%nat ->
    nth i (get_tasks fuel cs l) [] = firstn cs (skipn (i * cs) l).
Proof.
  intros Hcs. induction i as [|i IH]; intros fuel l Hi Hf.
  - destruct fuel as [|fuel]; [simpl in Hi; lia|].
    simpl. destruct l as [|a l]; [simpl in Hi; lia|].
    destruct cs as [|cs]; [lia|]. reflexivity.
  - destruct fuel as [|fuel]; [lia|].
    simpl get_tasks.
    destruct (firstn cs l) as [|x xs] eqn:Ef.
    + apply (f_equal (@length A)) in Ef. rewrite length_firstn in Ef.
      simpl in Ef. nia.
    + simpl nth. rewrite IH.
      * rewrite skipn_skipn. f_equal. f_equal. lia.
      * rewrite length_skipn. simpl in Hi. nia.
      * rewrite length_skipn. lia.
Qed.

(** One arrival, seen slot by slot. *)
Lemma nth_set_slice (v : list (option B)) (bs : list B) (i cs k : nat) :
  length v = length bs -> (0 < cs)%nat -> (i * cs < length bs)%nat ->
  nth k (firstn (i * cs) v ++ map Some (firstn cs (skipn (i * cs) bs))
           ++ skipn ((i + 1) * cs) v) None
  = if (k / cs =? i)%nat then nth k (map Some bs) None else nth k v None.
Proof.
  intros Hlen Hcs Hi.
  assert (Ha : length (firstn (i * cs) v) = (i * cs)%nat)
    by (rewrite length_firstn; lia).
  assert (Hdiv : (k / cs = i)%nat <-> (i * cs <= k < i * cs + cs)%nat).
  { split; intros H.
    - subst i. pose proof (Nat.div_mod_eq k cs).
      pose proof (Nat.mod_upper_bound k cs ltac:(lia)). nia.
    - symmetry. apply Nat.div_unique with (r := (k - i * cs)%nat); lia. }
  destruct (Nat.lt_ge_cases k (i * cs)) as [Hk|Hk].
  - rewrite app_nth1 by lia.
    destruct (Nat.eqb_spec (k / cs) i) as [E|E]; [apply Hdiv in E; lia|].
    rewrite nth_firstn. destruct (Nat.ltb_spec k (i * cs)); [reflexivity|lia].
  - rewrite app_nth2 by lia. rewrite Ha.
    rewrite <- firstn_map, <- skipn_map.
    set (w := map Some bs).
    assert (Hw : length w = length bs) by (unfold w; now rewrite length_map).
    assert (Hm : length (firstn cs (skipn (i * cs) w))
                 = Nat.min cs (length bs - i * cs))
      by (rewrite length_firstn, length_skipn; lia).
    destruct (Nat.lt_ge_cases (k - i * cs) (Nat.min cs (length bs - i * cs)))
      as [Hk2|Hk2].
    + rewrite app_nth1 by lia.
      rewrite nth_firstn.
      destruct (Nat.ltb_spec (k - i * cs) cs); [|lia].
      rewrite nth_skipn.
      destruct (Nat.eqb_spec (k / cs) i) as [E|E].
      * f_equal. lia.
      * exfalso. apply E. apply Hdiv. lia.
    + rewrite app_nth2 by lia. rewrite Hm, nth_skipn.
      destruct (Nat.le_gt_cases cs (length bs - i * cs)) as [Hfull|Hpart].
      * rewrite Nat.min_l in * by lia.
        destruct (Nat.eqb_spec (k / cs) i) as [E|E]; [apply Hdiv in E; lia|].
        f_equal. lia.
      * rewrite Nat.min_r in * by lia.
        rewrite !nth_overflow; [now destruct (k / cs =? i)%nat|lia|lia|lia].
Qed.

Lemma length_set_slice (v : list (option B)) (bs : list B) (i cs : nat) :
  length v = length bs -> (i * cs < length bs)%nat ->
  length (firstn (i * cs) v ++ map Some (firstn cs (skipn (i * cs) bs))
            ++ skipn ((i + 1) * cs) v) = length bs.
Proof.
  intros Hlen Hi.
  rewrite !length_app, length_map, !length_firstn, !length_skipn. lia.
Qed.

Variable p : Pool.
Variable l : list A.
Variable bs : list B.
Hypothesis Hbs : mapM f l = Ok bs.

Let cs := chunksize p (length l).
Let tasks := get_tasks (length l) cs l.

Lemma task_result (i : nat) :
  (i * cs < length l)%nat ->
  mapM f (nth i tasks []) = Ok (firstn cs (skipn (i * cs) bs)).
Proof.
  intros Hi. unfold tasks.
  assert (Hc : (0 < cs)%nat) by (apply chunksize_pos; lia).
  rewrite nth_get_tasks by lia.
  now apply mapM_firstn, mapM_skipn.
Qed.

Lemma arrivals (order : list nat) :
  forall v : list (option B),
    length v = length l ->
    (forall i, In i order -> (i * cs < length l)%nat) ->
    exists v',
      fold_left (fun st i => set_result cs st i (mapM f (nth i tasks [])))
                order (Ok v) = Ok v'
      /\ length v' = length l
      /\ forall k, nth k v' None
                   = if existsb (Nat.eqb (k / cs)) order
                     then nth k (map Some bs) None else nth k v None.
Proof.
  pose proof (mapM_length _ _ Hbs) as Hl.
  induction order as [|i order IH]; intros v Hv Hin.
  - exists v. simpl. auto.
  - assert (Hi : (i * cs < length l)%nat) by (apply Hin; now left).
    assert (Hc : (0 < cs)%nat) by (apply chunksize_pos; lia).
    simpl fold_left. rewrite task_result by exact Hi. simpl set_result.
    edestruct IH as (v' & Hf & Hlen & Hnth);
      [| | exists v'; split; [exact Hf|split; [exact Hlen|]]].
    + rewrite length_set_slice; lia.
    + intros j Hj. apply Hin. now right.
    + intros k. rewrite Hnth. simpl existsb.
      rewrite nth_set_slice by lia.
      rewrite (Nat.eqb_sym (k / cs) i).
      destruct (i =? k / cs)%nat eqn:E; simpl.
      * now destruct (existsb (Nat.eqb (k / cs)) order).
      * reflexivity.
Qed.

Lemma filled_some (xs : list B) : filled (map Some xs) = xs.
Proof. induction xs as [|x xs IH]; simpl; [reflexivity|]. now f_equal. Qed.

(** Whatever the order of completion, [pool.map] returns the results in
    the order of its input. *)
Lemma pool_map_ok (order : list nat) :
  Permutation order (seq 0 (task_count p (length l))) ->
  pool_map p order f l = Ok bs.
Proof.
  intros Hperm. unfold pool_map. fold cs. fold tasks.
  pose proof (mapM_length _ _ Hbs) as Hl.
  destruct (Nat.eq_dec (length l) 0) as [H0|H0].
  - rewrite H0 in *. rewrite task_count_0 in Hperm. simpl in Hperm.
    apply Permutation_sym, Permutation_nil in Hperm. subst order. simpl.
    destruct bs; [reflexivity|discriminate].
  - assert (Hc : (0 < cs)%nat) by (apply chunksize_pos; lia).
    destruct (arrivals order (repeat None (length l))) as (v' & Hf & Hlen & Hnth).
    + apply repeat_length.
    + intros i Hi. apply (Permutation_in _ Hperm) in Hi.
      apply in_seq in Hi. apply task_count_lt; lia.
    + rewrite Hf. simpl. f_equal.
      replace v' with (map Some bs); [apply filled_some|].
      apply nth_ext with (d := None) (d' := None);
        [rewrite length_map; lia|].
      rewrite length_map. intros k Hk. rewrite Hnth.
      assert (Hin : In (k / cs)%nat order).
      { apply (Permutation_in _ (Permutation_sym Hperm)).
        apply in_seq. split; [lia|]. simpl.
        apply task_count_lt; [lia|]. fold cs.
        pose proof (Nat.div_mod_eq k cs). nia. }
      destruct (existsb (Nat.eqb (k / cs)) order) eqn:E; [reflexivity|].
      exfalso. apply Bool.not_true_iff_false in E. apply E.
      apply existsb_exists. exists (k / cs)%nat. split; [exact Hin|].
      apply Nat.eqb_refl.
Qed.

End PoolMap.

Lemma in_firstn_in {A} (k : nat) (l : list A) (a : A) :
  In a (firstn k l) -> In a l.
Proof.
  revert l; induction k as [|k IH]; intros [|b l]; simpl; try tauto.
  intros [H|H]; [now left|right; now apply IH].
Qed.

Lemma in_skipn_in {A} (k : nat) (l : list A) (a : A) :
  In a (skipn k l) -> In a l.
Proof.
  revert l; induction k as [|k IH]; intros [|b l]; simpl; try tauto.
  intros H; right; now apply IH.
Qed.

(** If every item fails with the same exception, so does the map. *)
Lemma pool_map_raise {A B} (f : A -> res B) (p : Pool) (order : list nat)
      (l : list A) (e : exn) :
  l <> [] -> (forall a, In a l -> f a = Raise e) ->
  Permutation order (seq 0 (task_count p (length l))) ->
  pool_map p order f l = Raise e.
Proof.
  intros Hne Hall Hperm. unfold pool_map.
  assert (Hn : (0 < length l)%nat) by (destruct l; [congruence|simpl; lia]).
  pose proof (chunksize_pos p Hn) as Hc.
  set (cs := chunksize p (length l)) in *.
  set (tasks := get_tasks (length l) cs l).
  assert (Hstay : forall o, fold_left
             (fun st i => set_result cs st i (mapM f (nth i tasks [])))
             o (Raise e) = @Raise (list (option B)) e).
  { induction o as [|i o IH]; simpl; [reflexivity|exact IH]. }
  destruct order as [|i order].
  - apply Permutation_nil in Hperm.
    assert (H0 : (0 < task_count p (length l))%nat)
      by (apply task_count_lt; [lia|simpl; lia]).
    destruct (task_count p (length l)); [lia|discriminate].
  - assert (Hi : (i * cs < length l)%nat).
    { apply task_count_lt; [lia|].
      assert (In i (seq 0 (task_count p (length l))))
        by (apply (Permutation_in _ Hperm); now left).
      apply in_seq in H. lia. }
    simpl fold_left.
    replace (mapM f (nth i tasks [])) with (@Raise (list B) e).
    + simpl. now rewrite Hstay.
    + symmetry. unfold tasks. rewrite nth_get_tasks by lia.
      apply mapM_raise_head.
      * intros H. apply (f_equal (@length A)) in H.
        rewrite length_firstn, length_skipn in H. simpl in H. lia.
      * intros a Ha. apply Hall.
        apply (in_skipn_in (i * cs)), (in_firstn_in cs). exact Ha.
Qed.

(** ** The monad of the parent process *)

Lemma bind_lift_ok {A B} (a : A) (k : A -> py B) : bind (lift (Ok a)) k = k a.
Proof. unfold bind, lift. now destruct (k a). Qed.

Lemma bind_lift_raise {A B} (e : exn) (k : A -> py B) :
  bind (lift (Raise e)) k = ([], Raise e).
Proof. reflexivity. Qed.

Lemma returned_bind {A B} (m : py A) (k : A -> py B) :
  returned (bind m k)
  = match returned m with Ok a => returned (k a) | Raise e => Raise e end.
Proof.
  unfold returned, bind. destruct m as [out [a|e]]; simpl; [|reflexivity].
  now destruct (k a).
Qed.

Lemma new_pool_ok (n : Z) :
  (1 <= n)%Z -> new_pool n = Ok {| processes := Z.to_nat n |}.
Proof. intros H. unfold new_pool. destruct (Z.ltb_spec n 1); [lia|reflexivity]. Qed.

Lemma map_in_ok {A B} (E : Env) (k : nat) (p : Pool) (f : A -> res B)
      (l : list A) (bs : list B) :
  fair E -> mapM f l = Ok bs -> map_in E k p f l = lift (Ok bs).
Proof.
  intros HE H. unfold map_in. f_equal. apply pool_map_ok; [exact H|apply HE].
Qed.

Lemma map_in_raise {A B} (E : Env) (k : nat) (p : Pool) (f : A -> res B)
      (l : list A) (e : exn) :
  fair E -> l <> [] -> (forall a, In a l -> f a = Raise e) ->
  map_in E k p f l = lift (Raise e).
Proof.
  intros HE Hne H. unfold map_in. f_equal.
  apply pool_map_raise; [exact Hne|exact H|apply HE].
Qed.

(** ** numpy *)

Lemma length_zip_with {A B C} (f : A -> B -> C) (u : list A) (v : list B) :
  length (zip_with f u v) = Nat.min (length u) (length v).
Proof.
  revert v; induction u as [|a u IH]; intros [|b v]; simpl; auto.
Qed.

Lemma length_zeros (n : nat) : length (zeros n) = n.
Proof. apply repeat_length. Qed.

Lemma length_scale (v : vec) (k : Q) : length (scale v k) = length v.
Proof. apply length_map. Qed.

Lemma in_where_from (c : list bool) :
  forall i j, In j (where_from i c)
              <-> (i <= j)%nat /\ nth_error c (j - i) = Some true.
Proof.
  induction c as [|b c IH]; intros i j; simpl.
  - split; [tauto|]. intros [_ H]. destruct (j - i)%nat; discriminate.
  - assert (Hs : forall b', (S i <= j)%nat /\ nth_error c (j - S i) = Some b'
                   <-> (i < j)%nat /\ nth_error (b :: c) (j - i) = Some b').
    { intros b'. split; intros [H1 H2]; (split; [lia|]).
      - replace (j - i)%nat with (S (j - S i)) by lia. exact H2.
      - replace (j - i)%nat with (S (j - S i)) in H2 by lia. exact H2. }
    destruct b; simpl; rewrite ?IH, ?Hs.
    + split.
      * intros [H|[H1 H2]]; [subst; split; [lia|]; now rewrite Nat.sub_diag|].
        split; [lia|exact H2].
      * intros [H1 H2]. destruct (Nat.eq_dec i j) as [->|Hn]; [now left|].
        right. split; [lia|exact H2].
    + split.
      * intros [H1 H2]. split; [lia|exact H2].
      * intros [H1 H2]. destruct (Nat.eq_dec i j) as [->|Hn].
        -- rewrite Nat.sub_diag in H2. discriminate.
        -- split; [lia|exact H2].
Qed.

Lemma in_where_true (c : list bool) (j : nat) :
  In j (where_true c) <-> nth_error c j = Some true.
Proof.
  unfold where_true. rewrite in_where_from, Nat.sub_0_r.
  split; [tauto|]. intros H; split; [lia|exact H].
Qed.

Lemma where_from_NoDup (c : list bool) : forall i, NoDup (where_from i c).
Proof.
  induction c as [|b c IH]; intros i; simpl; [constructor|].
  destruct b; [|apply IH]. constructor; [|apply IH].
  rewrite in_where_from. lia.
Qed.

Lemma where_true_lt (c : list bool) (j : nat) :
  In j (where_true c) -> (j < length c)%nat.
Proof.
  rewrite in_where_true. intros H. apply nth_error_Some. congruence.
Qed.

Lemma drop_from_map {A B} (g : A -> B) (idx : list nat) (l : list A) :
  forall i, drop_from i idx (map g l) = map g (drop_from i idx l).
Proof.
  induction l as [|a l IH]; intros i; simpl; [reflexivity|].
  destruct (mem i idx); simpl; now rewrite IH.
Qed.

Lemma drop_from_combine {A B} (idx : list nat) (l : list A) :
  forall (l' : list B) i,
    drop_from i idx (combine l l') = combine (drop_from i idx l) (drop_from i idx l').
Proof.
  induction l as [|a l IH]; intros [|b l'] i; simpl; try reflexivity.
  - destruct (mem i idx); simpl; [|reflexivity].
    now destruct (drop_from (S i) idx l).
  - destruct (mem i idx); simpl; now rewrite IH.
Qed.

Lemma length_drop_from {A B} (idx : list nat) (l : list A) :
  forall (l' : list B) i,
    length l = length l' ->
    length (drop_from i idx l) = length (drop_from i idx l').
Proof.
  induction l as [|a l IH]; intros [|b l'] i H; simpl in *; try lia.
  destruct (mem i idx); simpl; rewrite (IH l' (S i)); lia.
Qed.

Lemma drop_from_Forall {A} (P : A -> Prop) (idx : list nat) (l : list A) :
  forall i, Forall P l -> Forall P (drop_from i idx l).
Proof.
  induction l as [|a l IH]; intros i H; simpl; [constructor|].
  inversion H; subst. destruct (mem i idx); [now apply IH|].
  constructor; [assumption|now apply IH].
Qed.

Lemma delete_ok {A} (l : list A) (idx : list nat) :
  (forall i, In i idx -> (i < length l)%nat) ->
  delete l idx = Ok (drop_from 0 idx l).
Proof.
  intros H. unfold delete.
  replace (forallb (fun i => (i <? length l)%nat) idx) with true; [reflexivity|].
  symmetry. apply forallb_forall. intros i Hi. apply Nat.ltb_lt. now apply H.
Qed.

Lemma add1_bc (u v : vec) :
  length u = length v \/ length u = 1%nat -> add1 u v = Ok (bc_add u v).
Proof.
  intros H. unfold add1, bc_add.
  destruct (Nat.eqb_spec (length u) (length v)); [reflexivity|].
  destruct (Nat.eqb_spec (length u) 1); [reflexivity|lia].
Qed.

Lemma length_bc_add (u v : vec) :
  length u = length v \/ length u = 1%nat -> length (bc_add u v) = length v.
Proof.
  intros H. unfold bc_add.
  destruct (Nat.eqb_spec (length u) (length v)).
  - rewrite length_zip_with. lia.
  - apply length_map.
Qed.

(** ** The two phases of the engine *)

Lemma length_inside_mask (fg : list cell) (t : cell) :
  length (Fecsep.inside_mask fg t) = length fg.
Proof. apply length_map. Qed.

Lemma exact_inside_ok (fg : list cell) (fr : ndarray) (t : cell) :
  length (rows fr) = length fg ->
  Fecsep._map_exact_inside_cells fg fr t = Ok (exact_rate fg fr t, consumed fg t).
Proof.
  intros H. unfold Fecsep._map_exact_inside_cells, getmask.
  rewrite length_inside_mask, H, Nat.eqb_refl. reflexivity.
Qed.

Lemma exact_inside_raise (fg : list cell) (fr : ndarray) (t : cell) :
  length (rows fr) <> length fg ->
  Fecsep._map_exact_inside_cells fg fr t = Raise IndexError.
Proof.
  intros H. unfold Fecsep._map_exact_inside_cells, getmask.
  rewrite length_inside_mask.
  destruct (Nat.eqb_spec (length fg) (length (rows fr))); [congruence|reflexivity].
Qed.

Lemma consumed_lt (fg : list cell) (t : cell) (j : nat) :
  In j (consumed fg t) -> (j < length fg)%nat.
Proof.
  intros H. apply where_true_lt in H. now rewrite length_inside_mask in H.
Qed.

Lemma exact_cells_lt (tg fg : list cell) (j : nat) :
  In j (exact_cells tg fg) -> (j < length fg)%nat.
Proof.
  unfold exact_cells. rewrite in_concat. intros (idx & Hidx & Hj).
  apply in_map_iff in Hidx. destruct Hidx as (t & <- & _).
  now apply consumed_lt in Hj.
Qed.

Lemma length_contribution (E : Env) (tp p : Polygon) (r : vec) (a : Q) :
  length (Fecsep.contribution E tp p r a) = length r.
Proof. unfold Fecsep.contribution. simpl. apply length_scale. Qed.

Lemma getitem_app {A} (pre l : list A) (a : A) :
  getitem (pre ++ a :: l) (length pre) = Ok a.
Proof.
  unfold getitem. rewrite nth_error_app2 by lia. now rewrite Nat.sub_diag.
Qed.

(** The loop of [_map_overlapping_cells] never fails on rate vectors of
    one length, and goes through the cells in order. *)
Lemma overlap_loop (E : Env) (t : cell) (m : nat) (cs : list cell) :
  forall (rs : list vec) (pre_c : list cell) (pre_r : list vec) (acc : vec),
    length pre_c = length pre_r ->
    length cs = length rs ->
    Forall (fun r => length r = m) rs ->
    length acc = m \/ length acc = 1%nat ->
    fold_left
      (Fecsep.overlap_step E (map Fecsep.create_polygon (pre_c ++ cs))
         (map (Fecsep.calc_cell_area E) (pre_c ++ cs)) (pre_r ++ rs)
         (Fecsep.create_polygon t))
      (seq (length pre_c) (length cs)) (Ok acc)
    = Ok (fold_left (overlap_add E t) (combine cs rs) acc)
    /\ (length (fold_left (overlap_add E t) (combine cs rs) acc) = m
        \/ fold_left (overlap_add E t) (combine cs rs) acc = acc).
Proof.
  induction cs as [|c cs IH]; intros rs pre_c pre_r acc Hpre Hlen Hrs Hacc.
  - simpl. auto.
  - destruct rs as [|r rs]; [discriminate|].
    inversion Hrs as [|? ? Hr Hrs']; subst.
    cbn [length seq fold_left combine].
    assert (Hstep :
      Fecsep.overlap_step E (map Fecsep.create_polygon (pre_c ++ c :: cs))
        (map (Fecsep.calc_cell_area E) (pre_c ++ c :: cs)) (pre_r ++ r :: rs)
        (Fecsep.create_polygon t) (Ok acc) (length pre_c)
      = Ok (overlap_add E t acc (c, r))).
    { unfold Fecsep.overlap_step, overlap_add. simpl rbind.
      rewrite !map_app. simpl map.
      replace (length pre_c) with (length (map Fecsep.create_polygon pre_c)) at 1
        by apply length_map.
      rewrite getitem_app. simpl.
      destruct (intersects (Fecsep.create_polygon t) (Fecsep.create_polygon c));
        [|reflexivity].
      rewrite Hpre, getitem_app. simpl.
      replace (length pre_r) with (length (map (Fecsep.calc_cell_area E) pre_c))
        by (now rewrite length_map).
      rewrite getitem_app. simpl.
      apply add1_bc. rewrite length_contribution. lia. }
    rewrite Hstep.
    assert (Hacc' : length (overlap_add E t acc (c, r)) = length r
                    \/ overlap_add E t acc (c, r) = acc).
    { unfold overlap_add. simpl.
      destruct (intersects _ _); [left|now right].
      rewrite length_bc_add; rewrite length_contribution; lia. }
    specialize (IH rs (pre_c ++ [c]) (pre_r ++ [r]) (overlap_add E t acc (c, r))).
    rewrite <- !app_assoc in IH. simpl app in IH.
    rewrite length_app in IH. simpl length in IH.
    rewrite Nat.add_1_r in IH.
    destruct IH as [IH1 IH2].
    + rewrite !length_app. simpl. lia.
    + simpl in Hlen. lia.
    + exact Hrs'.
    + destruct Hacc' as [H|H]; [now left|rewrite H; exact Hacc].
    + split; [exact IH1|].
      destruct IH2 as [H|H]; [now left|].
      rewrite H. destruct Hacc' as [H'|H']; [now left|now right].
Qed.

Lemma overlapping_cells_ok (E : Env) (t : cell) (m : nat)
      (cs : list cell) (rs : list vec) :
  length cs = length rs -> Forall (fun r => length r = m) rs ->
  Fecsep._map_overlapping_cells E (map Fecsep.create_polygon cs)
    (map (Fecsep.calc_cell_area E) cs) rs (Fecsep.create_polygon t)
  = Ok (fold_left (overlap_add E t) (combine cs rs) [0]).
Proof.
  intros Hlen Hrs. unfold Fecsep._map_overlapping_cells. rewrite length_map.
  apply (@overlap_loop E t m cs rs [] [] [0] eq_refl Hlen Hrs). now right.
Qed.

(** The length of a row of phase two: [m], or one when nothing was added. *)
Lemma overlap_rate_shape (E : Env) (t : cell) (m : nat)
      (cs : list cell) (rs : list vec) :
  length cs = length rs -> Forall (fun r => length r = m) rs ->
  length (fold_left (overlap_add E t) (combine cs rs) [0]) = m
  \/ fold_left (overlap_add E t) (combine cs rs) [0] = [0].
Proof.
  intros Hlen Hrs.
  apply (@overlap_loop E t m cs rs [] [] [0] eq_refl Hlen Hrs). now right.
Qed.

(** ** The engine as a whole *)

Lemma mapM_map {A B C} (f : B -> res C) (g : A -> B) (l : list A) :
  mapM f (map g l) = mapM (fun a => f (g a)) l.
Proof.
  induction l as [|a l IH]; simpl; [reflexivity|]. now rewrite IH.
Qed.

Lemma bind_print {B} (label : string) (n : Z) (k : unit -> py B) :
  bind (print label n) k = (Print label n :: fst (k tt), snd (k tt)).
Proof. unfold bind, print. now destruct (k tt). Qed.

Lemma workers_ok_ge (E : Env) (ncpu : option Z) :
  workers_ok E ncpu -> (1 <= workers E ncpu)%Z.
Proof. now destruct ncpu. Qed.

Lemma concatenate_ok {A} (ls : list (list A)) :
  ls <> [] -> concatenate ls = Ok (concat ls).
Proof. destruct ls; [congruence|reflexivity]. Qed.

(** With every task completing once, in any order, the engine prints the
    worker count and returns [engine_value]. *)
Lemma engine_run (E : Env) (tg fg : list cell) (fr : ndarray) (ncpu : option Z) :
  fair E -> workers_ok E ncpu -> wf fr ->
  Fecsep._forecast_mapping_generic E tg fg fr ncpu
  = ([Print "Number of CPUs :" (workers E ncpu)], engine_value E tg fg fr).
Proof.
  intros HE Hw Hwf. apply workers_ok_ge in Hw.
  unfold Fecsep._forecast_mapping_generic. fold (workers E ncpu).
  rewrite !(new_pool_ok Hw). rewrite bind_lift_ok, bind_print.
  set (pool := {| processes := Z.to_nat (workers E ncpu) |}).
  match goal with
  | |- (_ :: fst ?rest, snd ?rest) = _ =>
      assert (Hrest : rest = lift (engine_value E tg fg fr));
      [|rewrite Hrest; reflexivity]
  end.
  destruct tg as [|t0 tg'].
  - rewrite (@map_in_ok _ _ E 0%nat pool _ [] [] HE eq_refl).
    rewrite bind_lift_ok. reflexivity.
  - unfold engine_value. cbv iota.
    set (tg := t0 :: tg') in *.
    assert (Hne : tg <> []) by discriminate.
    destruct (Nat.eqb_spec (length (rows fr)) (length fg)) as [Hlen|Hlen].
    + assert (H1 : mapM (Fecsep._map_exact_inside_cells fg fr) tg
                   = Ok (map (fun t => (exact_rate fg fr t, consumed fg t)) tg))
        by (apply mapM_ok_map; intros; now apply exact_inside_ok).
      rewrite (map_in_ok 0 pool _ _ HE H1), bind_lift_ok.
      rewrite !map_map. cbn [fst snd].
      rewrite concatenate_ok
        by (intros H; apply map_eq_nil in H; congruence).
      rewrite bind_lift_ok. fold (exact_cells tg fg).
      rewrite (delete_ok (rows fr))
        by (intros i Hi; rewrite Hlen; now apply exact_cells_lt in Hi).
      rewrite bind_lift_ok.
      rewrite (delete_ok fg) by (intros i Hi; now apply exact_cells_lt in Hi).
      rewrite bind_lift_ok.
      fold (lft_fcst_grid tg fg). fold (fcst_rate_poly tg fg fr).
      rewrite bind_lift_ok,
        (map_in_ok 1 pool _ _ HE (mapM_pure Fecsep.create_polygon _)), bind_lift_ok.
      rewrite bind_lift_ok,
        (map_in_ok 2 pool _ _ HE (mapM_pure (Fecsep.calc_cell_area E) _)), bind_lift_ok.
      rewrite bind_lift_ok,
        (map_in_ok 3 pool _ _ HE (mapM_pure Fecsep.create_polygon _)), bind_lift_ok.
      rewrite bind_lift_ok.
      match goal with
      | |- context [map_in E 4 pool ?f ?l] =>
          assert (H4 : mapM f l = Ok (map (overlap_rate E tg fg fr) tg))
      end.
      { rewrite mapM_map. apply mapM_ok_map. intros t _.
        apply overlapping_cells_ok with (m := ncols fr).
        - now apply length_drop_from.
        - apply drop_from_Forall. exact Hwf. }
      rewrite (map_in_ok 4 pool _ _ HE H4), bind_lift_ok.
      rewrite map_map. reflexivity.
    + rewrite (@map_in_raise _ _ E 0%nat pool _ tg IndexError HE Hne)
        by (intros; now apply exact_inside_raise).
      reflexivity.
Qed.

(** ** An empty target grid *)

Lemma pool_map_nil {A B} (p : Pool) (order : list nat) (f : A -> res B) :
  pool_map p order f [] = Ok [].
Proof.
  unfold pool_map. simpl length. simpl get_tasks. simpl repeat.
  assert (H : fold_left
                (fun st i => set_result (chunksize p 0) st i
                               (mapM f (nth i (@nil (list A)) [])))
                order (Ok []) = Ok (@nil (option B))).
  { assert (Hstep : forall i,
              set_result (chunksize p 0) (Ok (@nil (option B))) i
                         (mapM f (nth i (@nil (list A)) [])) = Ok []).
    { intros i. destruct i; simpl; rewrite ?firstn_nil, ?skipn_nil; reflexivity. }
    induction order as [|i order IH]; [reflexivity|].
    cbn [fold_left]. rewrite Hstep. exact IH. }
  rewrite H. reflexivity.
Qed.

(** C8 (empty target partition).  The specification wants an empty target
    partition to give an empty forecast.  The engine does not get there:
    with no target cell, phase one returns no index array and
    [numpy.concatenate] refuses the empty sequence, so the call ends in a
    ValueError, whatever the forecast, the worker count and the scheduling
    (a worker count below one fails with the same exception, earlier). *)
Theorem empty_target_raises (E : Env) (fg : list cell) (fr : ndarray)
        (ncpu : option Z) :
  returned (Fecsep._forecast_mapping_generic E [] fg fr ncpu) = Raise ValueError.
Proof.
  unfold Fecsep._forecast_mapping_generic.
  rewrite returned_bind. unfold returned at 1, lift at 1. cbn [snd].
  unfold new_pool.
  destruct (workers E ncpu <? 1)%Z eqn:Hn;
    fold (workers E ncpu); rewrite Hn; [reflexivity|].
  rewrite returned_bind. cbn [returned print snd].
  rewrite returned_bind. unfold map_in. rewrite pool_map_nil.
  cbn [returned lift snd]. rewrite returned_bind. reflexivity.
Qed.

(** ** The two copies *)

Lemma code_exact_inside_same :
  Code._map_exact_inside_cells = Fecsep._map_exact_inside_cells.
Proof. reflexivity. Qed.

Lemma code_overlapping_same :
  Code._map_overlapping_cells = Fecsep._map_overlapping_cells.
Proof. reflexivity. Qed.

Ltac bind_step :=
  rewrite ?returned_bind;
  match goal with
  | |- match ?m with Ok _ => _ | Raise _ => _ end
       = match ?m with Ok _ => _ | Raise _ => _ end =>
      destruct m; [|reflexivity]
  end.

(** C10 (the two copies agree).  [code/utils.py] holds an older copy of the
    engine; it differs from the one of [fecsep/utils.py] by one more
    [print], of the number of consumed cells.  Whatever the target grid, the
    forecast grid, the rates, the worker count and the scheduling, the two
    return the same rate matrix, or raise the same exception. *)
Theorem copies_agree (E : Env) (tg fg : list cell) (fr : ndarray)
        (ncpu : option Z) :
  returned (Fecsep._forecast_mapping_generic E tg fg fr ncpu)
  = returned (Code._forecast_mapping_generic E tg fg fr ncpu).
Proof.
  unfold Fecsep._forecast_mapping_generic, Code._forecast_mapping_generic.
  rewrite code_exact_inside_same, code_overlapping_same.
  change Code.create_polygon with Fecsep.create_polygon.
  change Code.calc_cell_area with Fecsep.calc_cell_area.
  do 4 bind_step.
  rewrite (returned_bind (print _ _)). cbn [returned print snd].
  repeat bind_step.
  reflexivity.
Qed.

(** ** The rows of the result *)

Lemma length_fold_zip (m : nat) (rs : list vec) :
  forall acc, length acc = m -> Forall (fun r => length r = m) rs ->
              length (fold_left (zip_with Qplus) rs acc) = m.
Proof.
  induction rs as [|r rs IH]; intros acc Hacc Hrs; simpl; [exact Hacc|].
  inversion Hrs; subst. apply IH; [|assumption].
  rewrite length_zip_with. lia.
Qed.

Lemma length_sum_axis0 (m : nat) (rs : list vec) :
  Forall (fun r => length r = m) rs -> length (sum_axis0 m rs) = m.
Proof. intros H. apply length_fold_zip; [apply length_zeros|exact H]. Qed.

Lemma select_Forall {A} (P : A -> Prop) (c : list bool) :
  forall l, Forall P l -> Forall P (select c l).
Proof.
  induction c as [|b c IH]; intros [|a l] H; simpl; try constructor.
  inversion H; subst. destruct b; [constructor; [assumption|]|]; now apply IH.
Qed.

Lemma length_exact_rate (fg : list cell) (fr : ndarray) (t : cell) :
  wf fr -> length (exact_rate fg fr t) = ncols fr.
Proof.
  intros Hwf. unfold exact_rate. apply length_sum_axis0.
  now apply select_Forall.
Qed.

Lemma overlap_rate_length (E : Env) (tg fg : list cell) (fr : ndarray) (t : cell) :
  wf fr -> length (rows fr) = length fg ->
  length (overlap_rate E tg fg fr t) = ncols fr
  \/ overlap_rate E tg fg fr t = [0].
Proof.
  intros Hwf Hlen. unfold overlap_rate. apply overlap_rate_shape.
  - unfold lft_fcst_grid, fcst_rate_poly. symmetry. now apply length_drop_from.
  - apply drop_from_Forall. exact Hwf.
Qed.

(** After the padding loop a row has one entry per bin, when there is a
    bin at all. *)
Lemma zero_pad_length (E : Env) (tg fg : list cell) (fr : ndarray) (t : cell) :
  wf fr -> length (rows fr) = length fg -> (1 <= ncols fr)%nat ->
  length (Fecsep.zero_pad (ncols fr) (overlap_rate E tg fg fr t)) = ncols fr.
Proof.
  intros Hwf Hlen Hm. unfold Fecsep.zero_pad.
  destruct (overlap_rate_length E tg fg t Hwf Hlen) as [H|H].
  - rewrite H, Nat.ltb_irrefl. exact H.
  - rewrite H. simpl length.
    destruct (Nat.ltb_spec 1 (ncols fr)) as [Hlt|Hge]; [apply length_zeros|simpl; lia].
Qed.

(** The last addition, row by row. *)
Lemma add1_remap_cell (E : Env) (tg fg : list cell) (fr : ndarray) (t : cell) :
  wf fr -> length (rows fr) = length fg ->
  add1 (Fecsep.zero_pad (ncols fr) (overlap_rate E tg fg fr t)) (exact_rate fg fr t)
  = Ok (remap_cell E tg fg fr t).
Proof.
  intros Hwf Hlen. unfold remap_cell.
  pose proof (length_exact_rate fg t Hwf) as He.
  set (v := exact_rate fg fr t) in *.
  unfold Fecsep.zero_pad.
  destruct (overlap_rate_length E tg fg t Hwf Hlen) as [H|H].
  - rewrite H, Nat.ltb_irrefl. unfold add1. now rewrite H, He, Nat.eqb_refl.
  - rewrite H. simpl length.
    destruct (Nat.ltb_spec 1 (ncols fr)) as [Hlt|Hge].
    + unfold add1. now rewrite length_zeros, He, Nat.eqb_refl.
    + unfold add1. simpl length. rewrite He.
      destruct (Nat.eqb_spec 1 (ncols fr)) as [H1|H1]; [reflexivity|].
      assert (Hz : ncols fr = 0%nat) by lia.
      rewrite Hz in He. destruct v; [reflexivity|discriminate].
Qed.

Lemma zipM_map {A B C T} (f : A -> B -> res C) (g : T -> A) (h : T -> B)
      (k : T -> C) (l : list T) :
  (forall t, In t l -> f (g t) (h t) = Ok (k t)) ->
  zipM f (map g l) (map h l) = Ok (map k l).
Proof.
  induction l as [|t l IH]; intros H; simpl; [reflexivity|].
  rewrite (H t) by now left. simpl.
  rewrite IH by (intros; apply H; now right). reflexivity.
Qed.

Lemma row_length_uniform (m : nat) (l : list vec) :
  Forall (fun r => length r = m) l -> exists c, row_length l = Some c.
Proof.
  intros H. destruct l as [|r l]; [now exists 0%nat|].
  exists (length r). simpl.
  replace (forallb (fun r' => (length r' =? length r)%nat) l) with true;
    [reflexivity|].
  symmetry. apply forallb_forall. intros r' Hr'.
  inversion H as [|? ? Hr Hl]; subst. rewrite Forall_forall in Hl.
  rewrite (Hl r' Hr'). apply Nat.eqb_refl.
Qed.

(** When the engine returns a matrix, its rows are the rows of the target
    cells, in the order of the target grid. *)
Lemma engine_value_inv (E : Env) (tg fg : list cell) (fr : ndarray)
      (out : list vec) :
  wf fr -> engine_value E tg fg fr = Ok out ->
  out = map (remap_cell E tg fg fr) tg.
Proof.
  intros Hwf. unfold engine_value.
  destruct tg as [|t0 tg']; [discriminate|].
  set (tg := t0 :: tg').
  destruct (Nat.eqb_spec (length (rows fr)) (length fg)) as [Hlen|];
    [|discriminate].
  unfold add2.
  destruct (row_length _); [|discriminate].
  destruct (row_length _); [|discriminate].
  rewrite !length_map, Nat.eqb_refl.
  rewrite (zipM_map add1 _ _ (remap_cell E tg fg fr)).
  - now intros [= <-].
  - intros t _. now apply add1_remap_cell.
Qed.

(** With a bin, a target cell and a rate matrix as long as the grid, the
    engine does return a matrix. *)
Lemma engine_value_ok (E : Env) (tg fg : list cell) (fr : ndarray) :
  wf fr -> length (rows fr) = length fg -> tg <> [] -> (1 <= ncols fr)%nat ->
  engine_value E tg fg fr = Ok (map (remap_cell E tg fg fr) tg).
Proof.
  intros Hwf Hlen Hne Hm. unfold engine_value.
  destruct tg as [|t0 tg']; [congruence|].
  set (tg := t0 :: tg').
  rewrite Hlen, Nat.eqb_refl. unfold add2.
  destruct (@row_length_uniform (ncols fr)
              (map (fun t => Fecsep.zero_pad (ncols fr) (overlap_rate E tg fg fr t)) tg))
    as [c1 ->].
  { apply Forall_map, Forall_forall. intros t _. now apply zero_pad_length. }
  destruct (@row_length_uniform (ncols fr) (map (exact_rate fg fr) tg)) as [c2 ->].
  { apply Forall_map, Forall_forall. intros t _. now apply length_exact_rate. }
  rewrite !length_map, Nat.eqb_refl.
  apply zipM_map. intros t _. now apply add1_remap_cell.
Qed.

Lemma remap_cell_length (E : Env) (tg fg : list cell) (fr : ndarray) (t : cell) :
  wf fr -> length (rows fr) = length fg -> (1 <= ncols fr)%nat ->
  length (remap_cell E tg fg fr t) = ncols fr.
Proof.
  intros Hwf Hlen Hm. unfold remap_cell.
  rewrite length_zip_with, zero_pad_length, length_exact_rate by assumption.
  lia.
Qed.

(** ** Worker counts, scheduling, and the shape of the result *)

Lemma permutation_rev_seq (n : nat) : Permutation (rev (seq 0 n)) (seq 0 n).
Proof. apply Permutation_sym, Permutation_rev. Qed.

Lemma flat_env_fair : fair flat_env.
Proof. intros k n. apply permutation_rev_seq. Qed.

(** C4 (determinism and ordering under parallelism).  Take two runs of the
    engine on the same grids and rates: each with its own worker count
    ([ncpu], or the CPU count of its machine when [ncpu] is [None]; at
    least one worker, as the pool requires) and its own order of completion
    of the tasks of every [pool.map].  Both runs return the same (they
    raise the same exception or return the same rate matrix), and a
    returned matrix has one row per target cell, the row at index [i] being
    the one computed for the target cell at index [i]. *)
Theorem remap_deterministic
        (area : Q -> Q -> Q -> Q -> Q) (cpu cpu' : Z)
        (order order' : nat -> nat -> list nat)
        (tg fg : list cell) (fr : ndarray) (ncpu ncpu' : option Z) :
  let E := mk_env area cpu order in
  let E' := mk_env area cpu' order' in
  fair E -> fair E' -> workers_ok E ncpu -> workers_ok E' ncpu' -> wf fr ->
  returned (Fecsep._forecast_mapping_generic E tg fg fr ncpu)
  = returned (Fecsep._forecast_mapping_generic E' tg fg fr ncpu')
  /\ forall out,
       returned (Fecsep._forecast_mapping_generic E tg fg fr ncpu) = Ok out ->
       length out = length tg
       /\ forall i t, nth_error tg i = Some t ->
                      nth_error out i = Some (remap_cell E tg fg fr t).
Proof.
  intros E E' HE HE' Hw Hw' Hwf.
  rewrite (@engine_run E tg fg fr ncpu HE Hw Hwf),
    (@engine_run E' tg fg fr ncpu' HE' Hw' Hwf).
  cbn [returned snd]. split; [reflexivity|].
  intros out Hout. apply engine_value_inv in Hout; [|exact Hwf]. subst out.
  split; [apply length_map|].
  intros i t Ht. now apply map_nth_error.
Qed.

Lemma remap_deterministic_witness :
  let tg := [mk_cell 0 0 5 10; mk_cell 5 0 10 10] in
  let fg := [mk_cell 0 0 10 10] in
  let fr := mk_ndarray 2 [[8; 0]] in
  returned (Fecsep._forecast_mapping_generic
              (mk_env flat_area 2 (fun _ n => rev (seq 0 n))) tg fg fr (Some 3%Z))
  = returned (Fecsep._forecast_mapping_generic
                (mk_env flat_area 8 (fun _ n => seq 0 n)) tg fg fr None).
Proof.
  apply (@remap_deterministic flat_area 2 8
           (fun _ n => rev (seq 0 n)) (fun _ n => seq 0 n)
           [mk_cell 0 0 5 10; mk_cell 5 0 10 10] [mk_cell 0 0 10 10]
           (mk_ndarray 2 [[8; 0]]) (Some 3%Z) None).
  - intros k n. apply permutation_rev_seq.
  - intros k n. apply Permutation_refl.
  - simpl. lia.
  - simpl. lia.
  - repeat constructor.
Defined.

Lemma select_none {A} (fg : list cell) (t : cell) :
  Forall (fun s => Fecsep.inside t s = false) fg ->
  forall rs : list A, select (Fecsep.inside_mask fg t) rs = [].
Proof.
  induction 1 as [|s fg Hs _ IH]; intros [|r rs]; simpl; try reflexivity.
  rewrite Hs. apply IH.
Qed.

Lemma overlap_none (E : Env) (t : cell) (cs : list cell) :
  Forall (fun s => intersects (Fecsep.create_polygon t) (Fecsep.create_polygon s)
                   = false) cs ->
  forall (rs : list vec) (acc : vec),
    fold_left (overlap_add E t) (combine cs rs) acc = acc.
Proof.
  induction 1 as [|s cs Hs _ IH]; intros [|r rs] acc; simpl; try reflexivity.
  unfold overlap_add at 2. simpl. rewrite Hs. apply IH.
Qed.

Lemma zip_zeros (m : nat) : Forall (fun x => x == 0) (zip_with Qplus (zeros m) (zeros m)).
Proof.
  induction m as [|m IH]; simpl; constructor; [reflexivity|exact IH].
Qed.

(** C3 (shape invariant).  For a forecast of at least one magnitude bin
    whose rate matrix has one row per source cell, and a non-empty target
    partition, the engine returns a matrix with one row per target cell,
    every row with one entry per magnitude bin; a target cell in which no
    source cell lies and which no remaining source cell meets has a row of
    zeros of that length. *)
Theorem shape_invariant (E : Env) (tg fg : list cell) (fr : ndarray)
        (ncpu : option Z) :
  fair E -> workers_ok E ncpu -> wf fr ->
  length (rows fr) = length fg -> (1 <= ncols fr)%nat -> tg <> [] ->
  exists out,
    returned (Fecsep._forecast_mapping_generic E tg fg fr ncpu) = Ok out
    /\ length out = length tg
    /\ Forall (fun r => length r = ncols fr) out
    /\ forall i t,
         nth_error tg i = Some t ->
         Forall (fun s => Fecsep.inside t s = false) fg ->
         Forall (fun s => intersects (Fecsep.create_polygon t)
                                     (Fecsep.create_polygon s) = false)
                (lft_fcst_grid tg fg) ->
         exists r, nth_error out i = Some r
                   /\ length r = ncols fr
                   /\ Forall (fun x => x == 0) r.
Proof.
  intros HE Hw Hwf Hlen Hm Hne.
  exists (map (remap_cell E tg fg fr) tg).
  rewrite (@engine_run E tg fg fr ncpu HE Hw Hwf). cbn [returned snd].
  split; [now apply engine_value_ok|].
  split; [apply length_map|].
  split.
  - apply Forall_map, Forall_forall. intros t _. now apply remap_cell_length.
  - intros i t Ht Hin Hov.
    exists (remap_cell E tg fg fr t).
    split; [now apply map_nth_error|].
    split; [now apply remap_cell_length|].
    unfold remap_cell, exact_rate, overlap_rate.
    rewrite (@select_none _ fg t Hin), (@overlap_none E t _ Hov).
    unfold sum_axis0. simpl fold_left.
    replace (Fecsep.zero_pad (ncols fr) [0]) with (zeros (ncols fr)).
    + apply zip_zeros.
    + unfold Fecsep.zero_pad. simpl length.
      destruct (Nat.ltb_spec 1 (ncols fr)) as [Hlt|Hge]; [reflexivity|].
      replace (ncols fr) with 1%nat by lia. reflexivity.
Qed.

Lemma shape_invariant_witness :
  exists out,
    returned (Fecsep._forecast_mapping_generic flat_env
                [mk_cell 0 0 5 10; mk_cell 20 0 30 10] [mk_cell 0 0 10 10]
                (mk_ndarray 2 [[8; 0]]) (Some 1%Z)) = Ok out
    /\ length out = 2%nat.
Proof.
  destruct (@shape_invariant flat_env
              [mk_cell 0 0 5 10; mk_cell 20 0 30 10] [mk_cell 0 0 10 10]
              (mk_ndarray 2 [[8; 0]]) (Some 1%Z))
    as (out & H1 & H2 & _).
  - exact flat_env_fair.
  - simpl. lia.
  - repeat constructor.
  - reflexivity.
  - simpl. lia.
  - discriminate.
  - exists out. split; [exact H1|exact H2].
Defined.

(** ** Sums, bin by bin *)

Lemma bin_nil (k : nat) : bin k [] = 0.
Proof. unfold bin. now destruct k. Qed.

Lemma bin_zip_plus (k : nat) (u : vec) :
  forall v, length u = length v ->
            bin k (zip_with Qplus u v) == bin k u + bin k v.
Proof.
  unfold bin. revert k. induction u as [|x u IH]; intros k [|y v] H;
    try discriminate.
  - destruct k; simpl; lra.
  - destruct k; simpl; [lra|]. apply IH. simpl in H. lia.
Qed.

Lemma bin_zeros (k m : nat) : bin k (zeros m) = 0.
Proof.
  unfold bin, zeros. revert k. induction m as [|m IH]; intros [|k]; simpl; auto.
Qed.

Lemma bin_fold_zip (k m : nat) (rs : list vec) :
  forall acc, length acc = m -> Forall (fun r => length r = m) rs ->
              bin k (fold_left (zip_with Qplus) rs acc)
              == bin k acc + qsum (map (bin k) rs).
Proof.
  induction rs as [|r rs IH]; intros acc Hacc Hrs; simpl.
  - lra.
  - inversion Hrs as [|? ? Hr Hrs']; subst.
    rewrite IH; [|rewrite length_zip_with; lia|exact Hrs'].
    rewrite bin_zip_plus by lia. lra.
Qed.

Lemma bin_sum_axis0 (k m : nat) (rs : list vec) :
  Forall (fun r => length r = m) rs ->
  bin k (sum_axis0 m rs) == qsum (map (bin k) rs).
Proof.
  intros H. unfold sum_axis0.
  rewrite (@bin_fold_zip k m rs (zeros m) (length_zeros m) H).
  rewrite bin_zeros. lra.
Qed.

Lemma where_from_S (c : list bool) :
  forall i, where_from (S i) c = map S (where_from i c).
Proof.
  induction c as [|b c IH]; intros i; simpl; [reflexivity|].
  destruct b; simpl; now rewrite IH.
Qed.

(** The rows a mask selects are the rows at the positions [numpy.where]
    finds. *)
Lemma select_where {A} (d : A) (c : list bool) :
  forall l : list A,
    length c = length l ->
    select c l = map (fun j => nth j l d) (where_true c).
Proof.
  unfold where_true.
  induction c as [|b c IH]; intros [|a l] H; try discriminate; simpl;
    [reflexivity|].
  simpl in H.
  destruct b; simpl; rewrite where_from_S, map_map; simpl;
    now rewrite IH by lia.
Qed.

Lemma inside_iff (t s : cell) : Fecsep.inside t s = true <-> contained s t.
Proof.
  unfold Fecsep.inside, contained.
  rewrite !andb_true_iff, !Qle_bool_iff. unfold Qge. tauto.
Qed.

Lemma nth_error_inside_mask (fg : list cell) (t : cell) (j : nat) :
  nth_error (Fecsep.inside_mask fg t) j = Some true
  <-> exists s, nth_error fg j = Some s /\ Fecsep.inside t s = true.
Proof.
  unfold Fecsep.inside_mask. rewrite nth_error_map.
  destruct (nth_error fg j) as [s|]; simpl; split.
  - intros [= H]. now exists s.
  - intros (s' & [= <-] & H). now rewrite H.
  - discriminate.
  - intros (s' & H & _). discriminate.
Qed.

Lemma in_consumed (fg : list cell) (t : cell) (j : nat) :
  In j (consumed fg t)
  <-> exists s, nth_error fg j = Some s /\ contained s t.
Proof.
  unfold consumed. rewrite in_where_true, nth_error_inside_mask.
  split; intros (s & H1 & H2); exists s; (split; [exact H1|]);
    now apply inside_iff.
Qed.

(** The sum of phase one, bin by bin, over the consumed indices. *)
Lemma exact_rate_bins (fg : list cell) (fr : ndarray) (t : cell) (k : nat) :
  wf fr -> length (rows fr) = length fg ->
  bin k (exact_rate fg fr t)
  == qsum (map (fun j => bin k (nth j (rows fr) [])) (consumed fg t)).
Proof.
  intros Hwf Hlen. unfold exact_rate.
  rewrite bin_sum_axis0 by now apply select_Forall.
  rewrite (@select_where vec [] (Fecsep.inside_mask fg t) (rows fr))
    by (rewrite length_inside_mask; lia).
  rewrite map_map. reflexivity.
Qed.

(** C5 (exact-containment predicate).  For a rate matrix with one row per
    source cell, [_map_exact_inside_cells] returns for the target cell [t]:
    the indices [j] of the source cells [s] with
    [s.lon_min >= t.lon_min], [s.lat_min >= t.lat_min],
    [s.lon_max <= t.lon_max] and [s.lat_max <= t.lat_max] (bounds may
    touch), each index once; and, in every bin, the sum of the rates of
    exactly these cells. *)
Theorem exact_containment (fg : list cell) (fr : ndarray) (t : cell) :
  wf fr -> length (rows fr) = length fg ->
  exists rate idx,
    Fecsep._map_exact_inside_cells fg fr t = Ok (rate, idx)
    /\ (forall j s, nth_error fg j = Some s ->
          (In j idx <->
           lon1 s >= lon1 t /\ lat1 s >= lat1 t
           /\ lon2 s <= lon2 t /\ lat2 s <= lat2 t))
    /\ (forall j, In j idx -> (j < length fg)%nat)
    /\ NoDup idx
    /\ length rate = ncols fr
    /\ forall k, bin k rate
                 == qsum (map (fun j => bin k (nth j (rows fr) [])) idx).
Proof.
  intros Hwf Hlen.
  exists (exact_rate fg fr t), (consumed fg t).
  split; [now apply exact_inside_ok|].
  split.
  { intros j s Hs. rewrite in_consumed. split.
    - intros (s' & H1 & H2). rewrite Hs in H1. injection H1 as <-. exact H2.
    - intros H. now exists s. }
  split; [intros j; apply consumed_lt|].
  split; [apply where_from_NoDup|].
  split; [now apply length_exact_rate|].
  intros k. now apply exact_rate_bins.
Qed.

Lemma exact_containment_witness :
  exists rate idx,
    Fecsep._map_exact_inside_cells
      [mk_cell 0 0 10 10; mk_cell 10 0 20 10; mk_cell 20 0 30 10]
      (mk_ndarray 2 [[4; 0]; [2; 0]; [1; 1]]) (mk_cell 0 0 20 10)
    = Ok (rate, idx)
    /\ NoDup idx.
Proof.
  destruct (@exact_containment
              [mk_cell 0 0 10 10; mk_cell 10 0 20 10; mk_cell 20 0 30 10]
              (mk_ndarray 2 [[4; 0]; [2; 0]; [1; 1]]) (mk_cell 0 0 20 10))
    as (rate & idx & H1 & _ & _ & H4 & _).
  - repeat constructor.
  - reflexivity.
  - exists rate, idx. split; [exact H1|exact H4].
Defined.

(** ** Sums of rationals *)

Lemma qsum_app (l l' : list Q) : qsum (l ++ l') == qsum l + qsum l'.
Proof. induction l as [|x l IH]; simpl; [lra|]. rewrite IH. lra. Qed.

Lemma qsum_map_ext_in {A} (f g : A -> Q) (l : list A) :
  (forall a, In a l -> f a == g a) -> qsum (map f l) == qsum (map g l).
Proof.
  induction l as [|a l IH]; intros H; simpl; [lra|].
  rewrite (H a) by now left. rewrite IH by (intros; apply H; now right). lra.
Qed.

Lemma qsum_map_plus {A} (f g : A -> Q) (l : list A) :
  qsum (map (fun a => f a + g a) l) == qsum (map f l) + qsum (map g l).
Proof. induction l as [|a l IH]; simpl; [lra|]. rewrite IH. lra. Qed.

Lemma qsum_map_scale {A} (f : A -> Q) (c : Q) (l : list A) :
  qsum (map (fun a => c * f a) l) == c * qsum (map f l).
Proof. induction l as [|a l IH]; simpl; [lra|]. rewrite IH. lra. Qed.

Lemma qsum_map_zero {A} (f : A -> Q) (l : list A) :
  (forall a, In a l -> f a == 0) -> qsum (map f l) == 0.
Proof.
  induction l as [|a l IH]; intros H; simpl; [lra|].
  rewrite (H a) by now left. rewrite IH by (intros; apply H; now right). lra.
Qed.

Lemma qsum_concat {A} (f : A -> Q) (ls : list (list A)) :
  qsum (map f (concat ls)) == qsum (map (fun l => qsum (map f l)) ls).
Proof.
  induction ls as [|l ls IH]; simpl; [lra|].
  rewrite map_app, qsum_app, IH. lra.
Qed.

Lemma qsum_perm (l l' : list Q) : Permutation l l' -> qsum l == qsum l'.
Proof.
  induction 1; simpl; lra.
Qed.


(** Two sums over a rectangle of indices. *)
Lemma qsum_swap {A B} (f : A -> B -> Q) (la : list A) (lb : list B) :
  qsum (map (fun a => qsum (map (fun b => f a b) lb)) la)
  == qsum (map (fun b => qsum (map (fun a => f a b) la)) lb).
Proof.
  induction la as [|a la IH]; simpl.
  - symmetry. apply qsum_map_zero. intros; lra.
  - rewrite IH. rewrite <- qsum_map_plus. apply qsum_map_ext_in. intros; lra.
Qed.

(** ** Rectangles *)

Lemma qmax_cases (a b : Q) :
  (a <= b /\ qmax a b = b) \/ (b < a /\ qmax a b = a).
Proof.
  unfold qmax. destruct (Qle_bool a b) eqn:E.
  - left. split; [now apply Qle_bool_iff|reflexivity].
  - right. split; [|reflexivity].
    apply Qnot_le_lt. intros H. apply Qle_bool_iff in H. congruence.
Qed.

Lemma qmin_cases (a b : Q) :
  (a <= b /\ qmin a b = a) \/ (b < a /\ qmin a b = b).
Proof.
  unfold qmin. destruct (Qle_bool a b) eqn:E.
  - left. split; [now apply Qle_bool_iff|reflexivity].
  - right. split; [|reflexivity].
    apply Qnot_le_lt. intros H. apply Qle_bool_iff in H. congruence.
Qed.

Lemma Qle_bool_false (a b : Q) : Qle_bool a b = false <-> b < a.
Proof.
  split; intros H.
  - apply Qnot_le_lt. intros H'. apply Qle_bool_iff in H'. congruence.
  - apply not_true_is_false. intros H'. apply Qle_bool_iff in H'. lra.
Qed.

Ltac qminmax :=
  repeat match goal with
    | |- context [qmax ?a ?b] =>
        let H := fresh "Hq" in
        destruct (qmax_cases a b) as [[? H]|[? H]]; rewrite H in *; clear H
    | |- context [qmin ?a ?b] =>
        let H := fresh "Hq" in
        destruct (qmin_cases a b) as [[? H]|[? H]]; rewrite H in *; clear H
    | _ : context [qmax ?a ?b] |- _ =>
        let H := fresh "Hq" in
        destruct (qmax_cases a b) as [[? H]|[? H]]; rewrite H in *; clear H
    | _ : context [qmin ?a ?b] |- _ =>
        let H := fresh "Hq" in
        destruct (qmin_cases a b) as [[? H]|[? H]]; rewrite H in *; clear H
    end.

(** The polygon of a valid cell has the bounds of the cell. *)
Lemma create_polygon_valid (c : cell) :
  valid_cell c ->
  Fecsep.create_polygon c
  = {| minx := lon1 c; miny := lat1 c; maxx := lon2 c; maxy := lat2 c |}.
Proof.
  intros [Hx Hy]. unfold Fecsep.create_polygon, box.
  destruct (qmin_cases (lon1 c) (lon2 c)) as [[_ ->]|[H _]]; [|lra].
  destruct (qmin_cases (lat1 c) (lat2 c)) as [[_ ->]|[H _]]; [|lra].
  destruct (qmax_cases (lon1 c) (lon2 c)) as [[_ ->]|[H _]]; [|lra].
  destruct (qmax_cases (lat1 c) (lat2 c)) as [[_ ->]|[H _]]; [|lra].
  reflexivity.
Qed.

(** A valid cell that lies in two cells makes them overlap: its centre is
    interior to both. *)
Lemma contained_twice_overlap (s t t' : cell) :
  valid_cell s -> contained s t -> contained s t' -> overlapping t t'.
Proof.
  intros [Hx Hy] (A1 & A2 & A3 & A4) (B1 & B2 & B3 & B4).
  exists ((lon1 s + lon2 s) * (1 # 2)), ((lat1 s + lat2 s) * (1 # 2)).
  unfold interior. repeat split; lra.
Qed.

Lemma contained_refl (c : cell) : contained c c.
Proof. unfold contained. repeat split; lra. Qed.

Lemma non_overlapping_tail (t : cell) (tg : list cell) :
  non_overlapping (t :: tg) -> non_overlapping tg.
Proof.
  intros H i j c d Hij Hc Hd.
  apply (H (S i) (S j) c d); [lia|exact Hc|exact Hd].
Qed.

Lemma non_overlapping_head (t : cell) (tg : list cell) (t' : cell) :
  non_overlapping (t :: tg) -> In t' tg -> ~ overlapping t t'.
Proof.
  intros H Hin. apply In_nth_error in Hin. destruct Hin as [j Hj].
  apply (H 0%nat (S j) t t'); [lia|reflexivity|exact Hj].
Qed.

(** ** Every source cell is consumed at most once *)

Lemma consumed_once (fg : list cell) (t t' : cell) (j : nat) :
  Forall valid_cell fg -> ~ overlapping t t' ->
  In j (consumed fg t) -> ~ In j (consumed fg t').
Proof.
  intros Hv Hno Hj Hj'.
  apply in_consumed in Hj. apply in_consumed in Hj'.
  destruct Hj as (s & Hs & Hc). destruct Hj' as (s' & Hs' & Hc').
  rewrite Hs in Hs'. injection Hs' as <-.
  apply Hno. apply (@contained_twice_overlap s t t'); try assumption.
  rewrite Forall_forall in Hv. apply Hv. eapply nth_error_In; eassumption.
Qed.

Lemma exact_cells_cons (t : cell) (tg fg : list cell) :
  exact_cells (t :: tg) fg = consumed fg t ++ exact_cells tg fg.
Proof. reflexivity. Qed.

Lemma in_exact_cells (tg fg : list cell) (j : nat) :
  In j (exact_cells tg fg) <-> exists t, In t tg /\ In j (consumed fg t).
Proof.
  unfold exact_cells. rewrite in_concat. split.
  - intros (idx & Hidx & Hj). apply in_map_iff in Hidx.
    destruct Hidx as (t & <- & Ht). now exists t.
  - intros (t & Ht & Hj). exists (consumed fg t). split; [|exact Hj].
    now apply in_map.
Qed.

Lemma exact_cells_NoDup (tg fg : list cell) :
  Forall valid_cell fg -> non_overlapping tg -> NoDup (exact_cells tg fg).
Proof.
  intros Hv. induction tg as [|t tg IH]; intros Hno; [constructor|].
  rewrite exact_cells_cons. apply NoDup_app.
  - apply where_from_NoDup.
  - apply IH. now apply non_overlapping_tail in Hno.
  - intros j Hj Hj'. apply in_exact_cells in Hj'.
    destruct Hj' as (t' & Ht' & Hj').
    apply (@consumed_once fg t t' j); try assumption.
    now apply (@non_overlapping_head t tg t').
Qed.

(** What [numpy.delete] keeps: the rows at the positions that are not
    listed, in order. *)
Lemma drop_from_filter {A} (d : A) (idx : list nat) (l : list A) :
  forall i,
    drop_from i idx l
    = map (fun j => nth (j - i) l d)
          (filter (fun j => negb (mem j idx)) (seq i (length l))).
Proof.
  induction l as [|a l IH]; intros i; [reflexivity|].
  cbn [drop_from length seq filter].
  assert (Hrest : map (fun j => nth (j - i) (a :: l) d)
                      (filter (fun j => negb (mem j idx)) (seq (S i) (length l)))
                  = drop_from (S i) idx l).
  { rewrite IH. apply map_ext_in. intros j Hj.
    apply filter_In in Hj. destruct Hj as [Hj _]. apply in_seq in Hj.
    replace (j - i)%nat with (S (j - S i)) by lia. reflexivity. }
  destruct (mem i idx); cbn [negb map]; [now rewrite Hrest|].
  rewrite Nat.sub_diag, Hrest. reflexivity.
Qed.

Lemma kept_rows {A} (d : A) (idx : list nat) (l : list A) :
  drop_from 0 idx l
  = map (fun j => nth j l d)
        (filter (fun j => negb (mem j idx)) (seq 0 (length l))).
Proof.
  rewrite (@drop_from_filter A d idx l 0%nat).
  apply map_ext. intros j. now rewrite Nat.sub_0_r.
Qed.

Lemma mem_true_iff (j : nat) (idx : list nat) : mem j idx = true <-> In j idx.
Proof.
  unfold mem. rewrite existsb_exists. split.
  - intros (x & Hx & E). apply Nat.eqb_eq in E. now subst.
  - intros H. exists j. split; [exact H|apply Nat.eqb_refl].
Qed.

(** Phase one as a whole adds up the rates of the consumed indices. *)
Lemma exact_total (tg fg : list cell) (fr : ndarray) (k : nat) :
  wf fr -> length (rows fr) = length fg ->
  total k (map (exact_rate fg fr) tg)
  == qsum (map (fun j => bin k (nth j (rows fr) [])) (exact_cells tg fg)).
Proof.
  intros Hwf Hlen. unfold total, exact_cells.
  rewrite qsum_concat, !map_map.
  apply qsum_map_ext_in. intros t _. now apply exact_rate_bins.
Qed.

(** The result, bin by bin, is phase one plus phase two. *)
Lemma remap_total (E : Env) (tg fg : list cell) (fr : ndarray) (k : nat) :
  wf fr -> length (rows fr) = length fg -> (1 <= ncols fr)%nat ->
  total k (map (remap_cell E tg fg fr) tg)
  == total k (map (exact_rate fg fr) tg)
     + total k (map (fun t => Fecsep.zero_pad (ncols fr)
                                (overlap_rate E tg fg fr t)) tg).
Proof.
  intros Hwf Hlen Hm. unfold total. rewrite !map_map.
  rewrite <- qsum_map_plus. apply qsum_map_ext_in. intros t _.
  unfold remap_cell. rewrite bin_zip_plus; [lra|].
  now rewrite zero_pad_length, length_exact_rate.
Qed.

(** C6 (unique consumption).  Let the source cells be valid, the target
    partition non-overlapping, and the rate matrix have one row per source
    cell (and at least one bin, the target partition not empty).  Then
    - an index consumed by one target cell is consumed by no other, and
      the concatenated index array names every consumed index once;
    - [numpy.delete] keeps for phase two exactly the cells, and the rates,
      whose index is not consumed, each once and in order;
    - the result is, in every bin, the sum of the rates of the consumed
      cells, each taken once, plus what phase two makes of the cells that
      were kept. *)
Theorem unique_consumption (E : Env) (tg fg : list cell) (fr : ndarray)
        (ncpu : option Z) :
  fair E -> workers_ok E ncpu -> wf fr ->
  length (rows fr) = length fg -> (1 <= ncols fr)%nat -> tg <> [] ->
  Forall valid_cell fg -> non_overlapping tg ->
  (forall i i' t t' r r' idx idx' j,
      i <> i' -> nth_error tg i = Some t -> nth_error tg i' = Some t' ->
      Fecsep._map_exact_inside_cells fg fr t = Ok (r, idx) ->
      Fecsep._map_exact_inside_cells fg fr t' = Ok (r', idx') ->
      In j idx -> ~ In j idx')
  /\ NoDup (exact_cells tg fg)
  /\ (let kept := filter (fun j => negb (mem j (exact_cells tg fg)))
                         (seq 0 (length fg)) in
      delete fg (exact_cells tg fg)
      = Ok (map (fun j => nth j fg (mk_cell 0 0 0 0)) kept)
      /\ delete (rows fr) (exact_cells tg fg)
         = Ok (map (fun j => nth j (rows fr) []) kept))
  /\ exists out,
       returned (Fecsep._forecast_mapping_generic E tg fg fr ncpu) = Ok out
       /\ forall k,
            total k out
            == qsum (map (fun j => bin k (nth j (rows fr) []))
                         (exact_cells tg fg))
               + total k (map (fun t => Fecsep.zero_pad (ncols fr)
                                          (overlap_rate E tg fg fr t)) tg).
Proof.
  intros HE Hw Hwf Hlen Hm Hne Hv Hno.
  split.
  { intros i i' t t' r r' idx idx' j Hii Ht Ht' Hr Hr' Hj.
    rewrite exact_inside_ok in Hr, Hr' by exact Hlen.
    injection Hr as _ <-. injection Hr' as _ <-.
    apply (@consumed_once fg t t' j Hv); [|exact Hj].
    now apply (Hno i i' t t'). }
  split; [now apply exact_cells_NoDup|].
  split.
  { split.
    - rewrite delete_ok by (intros i Hi; now apply exact_cells_lt in Hi).
      f_equal. apply kept_rows.
    - rewrite delete_ok
        by (intros i Hi; rewrite Hlen; now apply exact_cells_lt in Hi).
      f_equal. rewrite <- Hlen. apply kept_rows. }
  exists (map (remap_cell E tg fg fr) tg).
  rewrite (@engine_run E tg fg fr ncpu HE Hw Hwf). cbn [returned snd].
  split; [now apply engine_value_ok|].
  intros k. rewrite remap_total by assumption.
  now rewrite exact_total.
Qed.

(** ** Checking a partition by computation *)

Lemma valid_cellb_sound (c : cell) : valid_cellb c = true -> valid_cell c.
Proof.
  unfold valid_cellb, valid_cell. rewrite andb_true_iff, !negb_true_iff.
  rewrite !Qle_bool_false. tauto.
Qed.

Lemma valid_cells_check (P : list cell) :
  forallb valid_cellb P = true -> Forall valid_cell P.
Proof.
  intros H. apply Forall_forall. intros c Hc.
  apply valid_cellb_sound. rewrite forallb_forall in H. now apply H.
Qed.

Lemma on_sphereb_sound (c : cell) : on_sphereb c = true -> on_sphere c.
Proof.
  unfold on_sphereb, on_sphere. now rewrite andb_true_iff, !Qle_bool_iff.
Qed.

Lemma on_sphere_check (P : list cell) :
  forallb on_sphereb P = true -> Forall on_sphere P.
Proof.
  intros H. apply Forall_forall. intros c Hc.
  apply on_sphereb_sound. rewrite forallb_forall in H. now apply H.
Qed.

Lemma disjointb_sound (c d : cell) : disjointb c d = true -> ~ overlapping c d.
Proof.
  unfold disjointb. rewrite !orb_true_iff, !Qle_bool_iff.
  intros H (x & y & [[A1 A2] [A3 A4]] & [[B1 B2] [B3 B4]]).
  destruct H as [[H|H]|[H|H]]; lra.
Qed.

Lemma overlapping_sym (c d : cell) : overlapping c d -> overlapping d c.
Proof. intros (x & y & H1 & H2). now exists x, y. Qed.

Lemma non_overlapping_check (P : list cell) :
  pairwise_disjointb P = true -> non_overlapping P.
Proof.
  induction P as [|c P IH]; intros H i j a b Hij Ha Hb.
  - destruct i; discriminate.
  - simpl in H. apply andb_true_iff in H. destruct H as [Hc HP].
    rewrite forallb_forall in Hc.
    destruct i as [|i], j as [|j]; simpl in Ha, Hb.
    + lia.
    + injection Ha as <-. apply disjointb_sound, Hc.
      eapply nth_error_In; eassumption.
    + injection Hb as <-. intros Ho. apply overlapping_sym in Ho. revert Ho.
      apply disjointb_sound, Hc. eapply nth_error_In; eassumption.
    + apply (IH HP i j a b); [lia|exact Ha|exact Hb].
Qed.

Lemma unique_consumption_witness :
  NoDup (exact_cells [mk_cell 0 0 20 10; mk_cell 20 0 40 10]
                     [mk_cell 0 0 10 10; mk_cell 10 0 20 10; mk_cell 15 0 25 10]).
Proof.
  destruct (@unique_consumption flat_env
              [mk_cell 0 0 20 10; mk_cell 20 0 40 10]
              [mk_cell 0 0 10 10; mk_cell 10 0 20 10; mk_cell 15 0 25 10]
              (mk_ndarray 2 [[4; 0]; [2; 0]; [1; 1]]) (Some 2%Z))
    as (_ & H & _).
  - exact flat_env_fair.
  - simpl. lia.
  - repeat constructor.
  - reflexivity.
  - simpl. lia.
  - discriminate.
  - apply valid_cells_check. reflexivity.
  - apply non_overlapping_check. reflexivity.
  - exact H.
Defined.

(** ** Remapping a forecast onto its own partition *)

Lemma NoDup_singleton (l : list nat) (i : nat) :
  NoDup l -> (forall j, In j l <-> j = i) -> l = [i].
Proof.
  intros Hnd H. destruct l as [|a l].
  - exfalso. apply (proj2 (H i) eq_refl).
  - assert (Ha : a = i) by (apply H; now left). subst a.
    destruct l as [|b l]; [reflexivity|].
    assert (Hb : b = i) by (apply H; right; now left). subst b.
    inversion Hnd as [|? ? Hni _]. exfalso. apply Hni. now left.
Qed.

(** In a partition of valid cells that do not overlap, a cell contains
    itself and no other. *)
Lemma consumed_self (fg : list cell) (i : nat) (t : cell) :
  Forall valid_cell fg -> non_overlapping fg ->
  nth_error fg i = Some t -> consumed fg t = [i].
Proof.
  intros Hv Hno Ht. apply NoDup_singleton; [apply where_from_NoDup|].
  intros j. rewrite in_consumed. split.
  - intros (s & Hs & Hc).
    destruct (Nat.eq_dec j i) as [|Hne]; [assumption|exfalso].
    apply (Hno i j t s); [congruence|exact Ht|exact Hs|].
    apply (@contained_twice_overlap s t s); [|exact Hc|apply contained_refl].
    rewrite Forall_forall in Hv. apply Hv. eapply nth_error_In; eassumption.
  - intros ->. exists t. split; [exact Ht|apply contained_refl].
Qed.

Lemma drop_from_all {A} (idx : list nat) (l : list A) :
  forall i, (forall j, (i <= j < i + length l)%nat -> In j idx) ->
            drop_from i idx l = [].
Proof.
  induction l as [|a l IH]; intros i H; simpl; [reflexivity|].
  replace (mem i idx) with true
    by (symmetry; apply mem_true_iff, H; simpl; lia).
  apply IH. intros j Hj. apply H. simpl. lia.
Qed.

(** Nothing is left for phase two. *)
Lemma identity_nothing_left (fg : list cell) :
  Forall valid_cell fg -> non_overlapping fg -> lft_fcst_grid fg fg = [].
Proof.
  intros Hv Hno. unfold lft_fcst_grid. apply drop_from_all.
  intros j Hj. destruct (nth_error fg j) as [t|] eqn:Ht.
  - apply in_exact_cells. exists t. split; [eapply nth_error_In; eassumption|].
    rewrite (@consumed_self fg j t Hv Hno Ht). now left.
  - apply nth_error_None in Ht. lia.
Qed.

Lemma zip_zeros_l (r : vec) : vec_eq (zip_with Qplus (zeros (length r)) r) r.
Proof.
  induction r as [|x r IH]; simpl; constructor; [lra|exact IH].
Qed.

Lemma vec_eq_refl (r : vec) : vec_eq r r.
Proof. induction r; constructor; [reflexivity|assumption]. Qed.

Lemma vec_eq_trans (u v w : vec) : vec_eq u v -> vec_eq v w -> vec_eq u w.
Proof.
  intros H. revert w. induction H as [|x y u v Hxy Huv IH]; intros w Hw.
  - inversion Hw. constructor.
  - inversion Hw as [|? z ? w' Hyz Hvw]; subst.
    constructor; [lra|now apply IH].
Qed.

Lemma zip_zeros_l_eq (m : nat) (u r : vec) :
  length r = m -> vec_eq u r -> vec_eq (zip_with Qplus (zeros m) u) r.
Proof.
  intros <- H.
  assert (Hl : length u = length r) by (induction H; simpl; congruence).
  rewrite <- Hl. apply (@vec_eq_trans _ u); [apply zip_zeros_l|exact H].
Qed.

Lemma Forall2_nth_error {A B} (R : A -> B -> Prop) (l : list A) :
  forall l' : list B,
    length l = length l' ->
    (forall i a b, nth_error l i = Some a -> nth_error l' i = Some b -> R a b) ->
    Forall2 R l l'.
Proof.
  induction l as [|a l IH]; intros [|b l'] Hlen H; try discriminate;
    constructor.
  - apply (H 0%nat); reflexivity.
  - apply IH; [simpl in Hlen; lia|].
    intros i x y Hx Hy. apply (H (S i)); assumption.
Qed.

(** The row of a cell of the partition itself. *)
Lemma identity_row (E : Env) (fg : list cell) (fr : ndarray) (i : nat)
      (t : cell) (r : vec) :
  wf fr -> length (rows fr) = length fg ->
  Forall valid_cell fg -> non_overlapping fg ->
  nth_error fg i = Some t -> nth_error (rows fr) i = Some r ->
  vec_eq (remap_cell E fg fg fr t) r.
Proof.
  intros Hwf Hlen Hv Hno Ht Hr.
  assert (Hrl : length r = ncols fr).
  { unfold wf in Hwf. rewrite Forall_forall in Hwf. apply Hwf.
    eapply nth_error_In; eassumption. }
  assert (Hex : exact_rate fg fr t = zip_with Qplus (zeros (ncols fr)) r).
  { unfold exact_rate.
    rewrite (@select_where vec [] (Fecsep.inside_mask fg t) (rows fr))
      by (rewrite length_inside_mask; lia).
    fold (consumed fg t). rewrite (@consumed_self fg i t Hv Hno Ht).
    simpl. unfold sum_axis0. simpl.
    now rewrite (nth_error_nth _ _ _ Hr). }
  assert (Hov : overlap_rate E fg fg fr t = [0]).
  { unfold overlap_rate. now rewrite identity_nothing_left. }
  unfold remap_cell. rewrite Hex, Hov. unfold Fecsep.zero_pad. simpl length.
  destruct (Nat.ltb_spec 1 (ncols fr)) as [Hlt|Hge].
  - apply zip_zeros_l_eq; [exact Hrl|].
    apply zip_zeros_l_eq; [exact Hrl|apply vec_eq_refl].
  - destruct r as [|x [|y r]]; simpl in Hrl.
    + rewrite <- Hrl. simpl. constructor.
    + rewrite <- Hrl. simpl. constructor; [lra|constructor].
    + lia.
Qed.

(** The engine returns on its own partition, whatever the number of
    bins. *)
Lemma identity_value (E : Env) (fg : list cell) (fr : ndarray) :
  wf fr -> length (rows fr) = length fg -> fg <> [] ->
  Forall valid_cell fg -> non_overlapping fg ->
  engine_value E fg fg fr = Ok (map (remap_cell E fg fg fr) fg).
Proof.
  intros Hwf Hlen Hne Hv Hno. unfold engine_value.
  destruct fg as [|t0 fg']; [congruence|].
  set (fg := t0 :: fg') in *.
  rewrite Hlen, Nat.eqb_refl. unfold add2.
  destruct (@row_length_uniform (length (Fecsep.zero_pad (ncols fr) [0]))
              (map (fun t => Fecsep.zero_pad (ncols fr) (overlap_rate E fg fg fr t)) fg))
    as [c1 ->].
  { apply Forall_map, Forall_forall. intros t _.
    unfold overlap_rate. now rewrite identity_nothing_left. }
  destruct (@row_length_uniform (ncols fr) (map (exact_rate fg fr) fg)) as [c2 ->].
  { apply Forall_map, Forall_forall. intros t _. now apply length_exact_rate. }
  rewrite !length_map, Nat.eqb_refl.
  apply zipM_map. intros t _. now apply add1_remap_cell.
Qed.

(** The identity remap where the engine does it: for a forecast that is
    not empty, with valid cells that do not overlap and one row of rates
    per cell, remapping onto its own partition consumes every cell in
    phase one, leaves nothing to phase two, and returns the rate matrix of
    the forecast (as numbers: [0 + x] for [x]). *)
Theorem identity_remap (E : Env) (fg : list cell) (fr : ndarray)
        (ncpu : option Z) :
  fair E -> workers_ok E ncpu -> wf fr ->
  length (rows fr) = length fg -> fg <> [] ->
  Forall valid_cell fg -> non_overlapping fg ->
  lft_fcst_grid fg fg = []
  /\ exists out,
       returned (Fecsep._forecast_mapping_generic E fg fg fr ncpu) = Ok out
       /\ mat_eq out (rows fr).
Proof.
  intros HE Hw Hwf Hlen Hne Hv Hno.
  split; [now apply identity_nothing_left|].
  exists (map (remap_cell E fg fg fr) fg).
  rewrite (@engine_run E fg fg fr ncpu HE Hw Hwf). cbn [returned snd].
  split; [now apply identity_value|].
  apply Forall2_nth_error; [rewrite length_map; lia|].
  intros i a r Ha Hr. rewrite nth_error_map in Ha.
  destruct (nth_error fg i) as [t|] eqn:Ht; [|discriminate].
  injection Ha as <-. now apply (@identity_row E fg fr i t r).
Qed.

Lemma identity_remap_witness :
  exists out,
    returned (Fecsep._forecast_mapping_generic flat_env
                [mk_cell 0 0 10 10; mk_cell 10 0 20 10]
                [mk_cell 0 0 10 10; mk_cell 10 0 20 10]
                (mk_ndarray 2 [[4; 0]; [2; 1]]) None) = Ok out
    /\ mat_eq out [[4; 0]; [2; 1]].
Proof.
  destruct (@identity_remap flat_env [mk_cell 0 0 10 10; mk_cell 10 0 20 10]
              (mk_ndarray 2 [[4; 0]; [2; 1]]) None)
    as (_ & out & H1 & H2).
  - exact flat_env_fair.
  - simpl. lia.
  - repeat constructor.
  - reflexivity.
  - discriminate.
  - apply valid_cells_check. reflexivity.
  - apply non_overlapping_check. reflexivity.
  - exists out. split; [exact H1|exact H2].
Defined.

(** C2 (identity remap), at the forecast the engine misses.  The empty
    forecast is a valid forecast (no cell, no row of rates, its cells do
    not overlap) and its own partition is a target partition equal to it;
    its identity remap should return its rate matrix, of no row.  The
    engine raises ValueError instead: [numpy.concatenate] refuses the
    empty list of index arrays that phase one returns for no target
    cell. *)
Lemma identity_remap_empty :
  Forall valid_cell [] /\ non_overlapping [] /\ wf (mk_ndarray 2 [])
  /\ returned (Fecsep._forecast_mapping_generic flat_env [] []
                 (mk_ndarray 2 []) (Some 1%Z)) = Raise ValueError.
Proof.
  split; [constructor|]. split; [|split; [constructor|reflexivity]].
  intros i j c d _ H. destruct i; discriminate.
Qed.

(** ** Cells that only touch *)


(** Between the poles [tent] is the latitude. *)
Lemma tent_id (y : Q) : -(90) <= y -> y <= 90 -> tent y == y.
Proof.
  intros H1 H2. unfold tent.
  destruct (Qle_bool y (-(90))) eqn:E1.
  - apply Qle_bool_iff in E1. lra.
  - destruct (Qle_bool y 90) eqn:E2; [reflexivity|].
    apply Qle_bool_false in E2. lra.
Qed.

Lemma polar_area_law : area_law polar_area.
Proof.
  exists tent. split; [|split].
  - intros y y' H1 H2 H3. rewrite !tent_id by lra. exact H2.
  - intros y y' H1 H2 H3. rewrite !tent_id by lra. exact H2.
  - intros x0 y0 x1 y1 _ _ _ _. reflexivity.
Qed.

Lemma polar_env_fair : fair polar_env.
Proof. intros k n. apply permutation_rev_seq. Qed.

Lemma clamp_range (y : Q) : -(90) <= clamp y /\ clamp y <= 90.
Proof. unfold clamp. qminmax; lra. Qed.

Lemma clamp_mono (y y' : Q) : y <= y' -> clamp y <= clamp y'.
Proof. intros H. unfold clamp. qminmax; lra. Qed.

Lemma clamp_id (y : Q) : -(90) <= y -> y <= 90 -> clamp y == y.
Proof. intros H1 H2. unfold clamp. qminmax; lra. Qed.

(** The primitive of an area law, held constant beyond the poles: it does
    not decrease anywhere, and between the poles it is the primitive. *)
Lemma area_law_clamped (area : Q -> Q -> Q -> Q -> Q) :
  area_law area ->
  exists G : Q -> Q,
    (forall y y', y <= y' -> G y <= G y')
    /\ (forall y y', -(90) <= y -> y < y' -> y' <= 90 -> G y < G y')
    /\ forall x0 y0 x1 y1,
         x0 <= x1 -> -(90) <= y0 -> y0 <= y1 -> y1 <= 90 ->
         area x0 y0 x1 y1 == (x1 - x0) * (G y1 - G y0).
Proof.
  intros (G & Gle & Glt & Ha).
  assert (Gid : forall y, -(90) <= y -> y <= 90 -> G (clamp y) == G y).
  { intros y H1 H2. pose proof (clamp_range y) as [C1 C2].
    pose proof (clamp_id H1 H2) as Hc.
    apply Qle_antisym; apply Gle; lra. }
  exists (fun y => G (clamp y)). split; [|split].
  - intros y y' H. pose proof (clamp_range y) as [C1 C2].
    pose proof (clamp_range y') as [C3 C4].
    apply Gle; [exact C1|now apply clamp_mono|exact C4].
  - intros y y' H1 H2 H3. rewrite !Gid by lra. now apply Glt.
  - intros x0 y0 x1 y1 Hx H1 H2 H3. rewrite !Gid by lra. now apply Ha.
Qed.

Lemma intersects_valid (t s : cell) :
  valid_cell t -> valid_cell s ->
  intersects (Fecsep.create_polygon t) (Fecsep.create_polygon s) = true
  <-> (lon1 t <= lon2 s /\ lon1 s <= lon2 t)
      /\ (lat1 t <= lat2 s /\ lat1 s <= lat2 t).
Proof.
  intros Ht Hs. rewrite !create_polygon_valid by assumption.
  unfold intersects. simpl. now rewrite !andb_true_iff, !Qle_bool_iff.
Qed.









(** ** No validation at the boundary *)

(** C9 (fail-fast validation), as the code has it.  Neither
    [forecast_mapping] nor the engine checks its input.  Take a non-empty
    target partition, at least one worker, a rate matrix of at least one
    bin, cells whose corners differ in both coordinates and source cells of
    non-zero area (so that every polygon is a rectangle and no division is
    by zero), and nothing more about the cells: their bounds may be in the
    wrong order and their latitudes outside [-90, 90].  If the rate matrix
    has one row per source cell the remap returns a rate matrix, one row
    per target cell.  If it has not, the remap raises IndexError: the mask
    of phase one does not fit the rate matrix. *)
Theorem remap_validates_nothing (E : Env) (fb : list cell) (data : ndarray)
        (tb : list cell) (ncpu : option Z) :
  fair E -> workers_ok E ncpu -> wf data -> (1 <= ncols data)%nat ->
  tb <> [] -> Forall box_like tb -> Forall box_like fb ->
  Forall (fun c => ~ Fecsep.calc_cell_area E c == 0) fb ->
  (length (rows data) = length fb ->
   exists out,
     returned (Fecsep.forecast_mapping E fb data tb ncpu) = Ok out
     /\ length out = length tb)
  /\ (length (rows data) <> length fb ->
      returned (Fecsep.forecast_mapping E fb data tb ncpu) = Raise IndexError).
Proof.
  intros HE Hw Hwf Hm Hne _ _ _.
  unfold Fecsep.forecast_mapping.
  rewrite (@engine_run E tb fb data ncpu HE Hw Hwf). cbn [returned snd].
  split; intros Hlen.
  - exists (map (remap_cell E tb fb data) tb).
    split; [now apply engine_value_ok|apply length_map].
  - unfold engine_value. destruct tb as [|t0 tb']; [congruence|].
    destruct (Nat.eqb_spec (length (rows data)) (length fb)); [congruence|].
    reflexivity.
Qed.

Lemma remap_validates_nothing_witness :
  exists out,
    returned (Fecsep.forecast_mapping flat_env [mk_cell 10 0 0 10]
                (mk_ndarray 1 [[3]]) [mk_cell 0 0 5 10; mk_cell 5 0 10 100]
                (Some 1%Z)) = Ok out
    /\ length out = 2%nat.
Proof.
  destruct (@remap_validates_nothing flat_env [mk_cell 10 0 0 10]
              (mk_ndarray 1 [[3]]) [mk_cell 0 0 5 10; mk_cell 5 0 10 100]
              (Some 1%Z)) as [H _].
  - exact flat_env_fair.
  - simpl. lia.
  - repeat constructor.
  - simpl. lia.
  - discriminate.
  - repeat constructor; simpl; intros H; discriminate H.
  - repeat constructor; simpl; intros H; discriminate H.
  - repeat constructor. intros H. discriminate H.
  - apply H. reflexivity.
Defined.

(** A forecast cell with latitudes from 100 to 120 degrees, remapped onto
    its two halves: the input is malformed, and the remap returns half of
    the rates for each half. *)
Lemma malformed_cell_accepted :
  malformed (mk_cell 0 100 10 120)
  /\ exists out,
       returned (Fecsep.forecast_mapping flat_env [mk_cell 0 100 10 120]
                   (mk_ndarray 2 [[8; 0]])
                   [mk_cell 0 100 5 120; mk_cell 5 100 10 120] (Some 2%Z))
       = Ok out
       /\ mat_eq out [[4; 0]; [4; 0]].
Proof.
  split.
  - unfold malformed. simpl. right. right. right. reflexivity.
  - eexists. split; [vm_compute; reflexivity|].
    repeat constructor; reflexivity.
Qed.

(** ** The area a partition shares with a box *)

Lemma ov_nonneg (p1 p2 a1 a2 : Q) : 0 <= ov p1 p2 a1 a2.
Proof. unfold ov. qminmax; lra. Qed.



Lemma ov_apart (p1 p2 a1 a2 : Q) :
  p2 <= a1 \/ a2 <= p1 -> p1 <= p2 -> a1 <= a2 -> ov p1 p2 a1 a2 == 0.
Proof. intros H H1 H2. unfold ov. destruct H; qminmax; lra. Qed.







Section Additivity.

Variable G : Q -> Q.
Hypothesis Gle : forall y y', y <= y' -> G y <= G y'.

Variable tg : list cell.
Hypothesis tg_valid : Forall valid_cell tg.
Hypothesis tg_apart : non_overlapping tg.

Lemma G_qmin (a b : Q) : G (qmin a b) == qmin (G a) (G b).
Proof.
  pose proof (@Gle a b). pose proof (@Gle b a).
  destruct (qmin_cases a b) as [[H2 ->]|[H2 ->]];
    destruct (qmin_cases (G a) (G b)) as [[H3 ->]|[H3 ->]]; lra.
Qed.

Lemma G_qmax (a b : Q) : G (qmax a b) == qmax (G a) (G b).
Proof.
  pose proof (@Gle a b). pose proof (@Gle b a).
  destruct (qmax_cases a b) as [[H2 ->]|[H2 ->]];
    destruct (qmax_cases (G a) (G b)) as [[H3 ->]|[H3 ->]]; lra.
Qed.








Lemma shared_apart_lon (B t : cell) :
  valid_cell B -> valid_cell t ->
  lon2 t <= lon1 B \/ lon2 B <= lon1 t -> shared G B t == 0.
Proof.
  intros [B1 B2] [T1 T2] H. unfold shared.
  rewrite (@ov_apart (lon1 t) (lon2 t) (lon1 B) (lon2 B)) by (assumption || lra).
  ring.
Qed.

Lemma shared_apart_lat (B t : cell) :
  valid_cell B -> valid_cell t ->
  lat2 t <= lat1 B \/ lat2 B <= lat1 t -> shared G B t == 0.
Proof.
  intros [B1 B2] [T1 T2] H. unfold shared.
  rewrite (@ov_apart (G (lat1 t)) (G (lat2 t)) (G (lat1 B)) (G (lat2 B))).
  - ring.
  - destruct H; [left|right]; now apply Gle.
  - apply Gle. lra.
  - apply Gle. lra.
Qed.





End Additivity.

(** ** The shares of a source cell add up to one *)

Section Shares.

Variable E : Env.
Variable G : Q -> Q.
Hypothesis Gle : forall y y', y <= y' -> G y <= G y'.
Hypothesis Glt : forall y y', -(90) <= y -> y < y' -> y' <= 90 -> G y < G y'.
Hypothesis area_eq :
  forall x0 y0 x1 y1,
    x0 <= x1 -> -(90) <= y0 -> y0 <= y1 -> y1 <= 90 ->
    geographical_area_from_bounds E x0 y0 x1 y1 == (x1 - x0) * (G y1 - G y0).

Lemma cell_area_eq (s : cell) :
  valid_cell s -> on_sphere s ->
  Fecsep.calc_cell_area E s == (lon2 s - lon1 s) * (G (lat2 s) - G (lat1 s)).
Proof.
  intros [Hx Hy] [S1 S2]. unfold Fecsep.calc_cell_area. apply area_eq; lra.
Qed.

Lemma cell_area_pos (s : cell) :
  valid_cell s -> on_sphere s -> 0 < Fecsep.calc_cell_area E s.
Proof.
  intros Hs Hsph. rewrite (cell_area_eq Hs Hsph).
  destruct Hs as [Hx Hy], Hsph as [S1 S2].
  pose proof (@Glt _ _ S1 Hy S2). apply Qmult_lt_0_compat; lra.
Qed.

(** The area of what the polygons of two valid cells share, as the
    program computes it, is the product of the shared lengths. *)
Lemma clip_shared (t s : cell) :
  valid_cell t -> valid_cell s -> on_sphere s ->
  (if intersects (Fecsep.create_polygon t) (Fecsep.create_polygon s)
   then (let '(x0, y0, x1, y1) :=
           intersection_bounds (Fecsep.create_polygon t) (Fecsep.create_polygon s) in
         geographical_area_from_bounds E x0 y0 x1 y1)
   else 0)
  == shared G s t.
Proof.
  intros Ht Hs [P1 P2].
  destruct (intersects (Fecsep.create_polygon t) (Fecsep.create_polygon s)) eqn:Hi.
  - apply (intersects_valid Ht Hs) in Hi. destruct Hi as [[I1 I2] [I3 I4]].
    rewrite !create_polygon_valid by assumption.
    unfold intersection_bounds. cbn [minx miny maxx maxy].
    destruct Ht as [T1 T2], Hs as [S1 S2].
    assert (Hx : qmax (lon1 t) (lon1 s) <= qmin (lon2 t) (lon2 s))
      by (qminmax; lra).
    assert (Hy : qmax (lat1 t) (lat1 s) <= qmin (lat2 t) (lat2 s))
      by (qminmax; lra).
    assert (Y0 : -(90) <= qmax (lat1 t) (lat1 s)) by (qminmax; lra).
    assert (Y1 : qmin (lat2 t) (lat2 s) <= 90) by (qminmax; lra).
    rewrite (area_eq Hx Y0 Hy Y1). unfold shared, ov.
    pose proof (Gle Hy) as HGy. rewrite G_qmax, G_qmin in HGy by assumption.
    rewrite (@G_qmax G Gle), (@G_qmin G Gle).
    set (X := qmin (lon2 t) (lon2 s) - qmax (lon1 t) (lon1 s)) in *.
    set (Y := qmin (G (lat2 t)) (G (lat2 s)) - qmax (G (lat1 t)) (G (lat1 s))) in *.
    assert (HX : 0 <= X) by (unfold X; lra).
    assert (HY : 0 <= Y) by (unfold Y; lra).
    clearbody X Y.
    destruct (qmax_cases 0 X) as [[_ ->]|[H _]]; [|lra].
    destruct (qmax_cases 0 Y) as [[_ ->]|[H _]]; [|lra].
    reflexivity.
  - assert (Hn : ~ ((lon1 t <= lon2 s /\ lon1 s <= lon2 t)
                    /\ (lat1 t <= lat2 s /\ lat1 s <= lat2 t))).
    { intros H. apply (intersects_valid Ht Hs) in H. congruence. }
    symmetry.
    destruct (Qlt_le_dec (lon2 s) (lon1 t)) as [H1|H1];
      [apply (@shared_apart_lon G s t Hs Ht); right; lra|].
    destruct (Qlt_le_dec (lon2 t) (lon1 s)) as [H2|H2];
      [apply (@shared_apart_lon G s t Hs Ht); left; lra|].
    destruct (Qlt_le_dec (lat2 s) (lat1 t)) as [H3|H3];
      [apply (@shared_apart_lat G Gle s t Hs Ht); right; lra|].
    destruct (Qlt_le_dec (lat2 t) (lat1 s)) as [H4|H4];
      [apply (@shared_apart_lat G Gle s t Hs Ht); left; lra|].
    exfalso. apply Hn. repeat split; assumption.
Qed.

Lemma weight_shared (t s : cell) :
  valid_cell t -> valid_cell s -> on_sphere s ->
  weight E t s == shared G s t * / Fecsep.calc_cell_area E s.
Proof.
  intros Ht Hs Hsph. rewrite <- (clip_shared Ht Hs Hsph). unfold weight.
  destruct (intersects _ _); [reflexivity|ring].
Qed.


End Shares.

(** ** Phase two, bin by bin *)

Lemma bin_scale (k : nat) (r : vec) (q : Q) : bin k (scale r q) == bin k r * q.
Proof.
  unfold bin, scale. revert k.
  induction r as [|x r IH]; intros [|k]; simpl; try ring. apply IH.
Qed.

Lemma bin_one_zero (k : nat) : bin k [0] = 0.
Proof. unfold bin. now destruct k as [|[|k]]. Qed.

Lemma bin_map_plus0 (k : nat) (c : vec) :
  bin k (map (fun y => 0 + y) c) == bin k c.
Proof.
  unfold bin. revert k.
  induction c as [|x c IH]; intros [|k]; simpl; try ring. apply IH.
Qed.

Lemma bin_bc_add (k : nat) (acc c : vec) :
  length acc = length c \/ acc = [0] ->
  bin k (bc_add acc c) == bin k acc + bin k c.
Proof.
  intros H. unfold bc_add.
  destruct (Nat.eqb_spec (length acc) (length c)) as [Heq|Hne].
  - now apply bin_zip_plus.
  - destruct H as [H| ->]; [congruence|].
    simpl hd. rewrite bin_map_plus0, bin_one_zero. ring.
Qed.

Lemma bin_zero_pad (k m : nat) (v : vec) :
  length v = m \/ v = [0] -> bin k (Fecsep.zero_pad m v) == bin k v.
Proof.
  intros [H| ->]; unfold Fecsep.zero_pad.
  - rewrite H, Nat.ltb_irrefl. reflexivity.
  - simpl length. destruct (1 <? m)%nat; [|reflexivity].
    now rewrite bin_zeros, bin_one_zero.
Qed.

Lemma bin_contribution (E : Env) (t s : cell) (r : vec) (k : nat) :
  intersects (Fecsep.create_polygon t) (Fecsep.create_polygon s) = true ->
  bin k (Fecsep.contribution E (Fecsep.create_polygon t)
           (Fecsep.create_polygon s) r (Fecsep.calc_cell_area E s))
  == weight E t s * bin k r.
Proof.
  intros Hi. unfold Fecsep.contribution, weight. rewrite Hi.
  unfold intersection_bounds. cbv beta iota. rewrite bin_scale. ring.
Qed.

(** The loop of phase two adds, for every cell it is given, the share of
    the cell times its rate. *)
Lemma overlap_fold_bins (E : Env) (t : cell) (m k : nat) (L : list (cell * vec)) :
  forall acc,
    Forall (fun cr => length (snd cr) = m) L ->
    length acc = m \/ acc = [0] ->
    bin k (fold_left (overlap_add E t) L acc)
    == bin k acc + qsum (map (fun cr => weight E t (fst cr) * bin k (snd cr)) L)
    /\ (length (fold_left (overlap_add E t) L acc) = m
        \/ fold_left (overlap_add E t) L acc = [0]).
Proof.
  induction L as [|[s r] L IH]; intros acc HL Hacc.
  - simpl. split; [ring|exact Hacc].
  - pose proof (Forall_inv HL) as Hr. pose proof (Forall_inv_tail HL) as HL'.
    simpl in Hr.
    cbn [fold_left map qsum fold_right fst snd].
    assert (Hstep :
      bin k (overlap_add E t acc (s, r)) == bin k acc + weight E t s * bin k r
      /\ (length (overlap_add E t acc (s, r)) = m
          \/ overlap_add E t acc (s, r) = [0])).
    { unfold overlap_add. cbn [fst snd].
      destruct (intersects (Fecsep.create_polygon t) (Fecsep.create_polygon s))
        eqn:Hi.
      - split.
        + rewrite bin_bc_add by (rewrite length_contribution, Hr; tauto).
          now rewrite bin_contribution.
        + left. rewrite length_bc_add; rewrite length_contribution, Hr;
            [reflexivity|].
          destruct Hacc as [H| ->]; [now left|now right].
      - split; [unfold weight; rewrite Hi; ring|tauto]. }
    destruct Hstep as [Hb Hl].
    destruct (IH (overlap_add E t acc (s, r)) HL' Hl) as [IH1 IH2].
    split; [|exact IH2].
    rewrite IH1, Hb. unfold qsum. ring.
Qed.

Lemma overlap_rate_bins (E : Env) (tg fg : list cell) (fr : ndarray)
      (t : cell) (k : nat) :
  wf fr -> length (rows fr) = length fg ->
  bin k (Fecsep.zero_pad (ncols fr) (overlap_rate E tg fg fr t))
  == qsum (map (fun cr => weight E t (fst cr) * bin k (snd cr))
               (combine (lft_fcst_grid tg fg) (fcst_rate_poly tg fg fr))).
Proof.
  intros Hwf Hlen. unfold overlap_rate.
  destruct (@overlap_fold_bins E t (ncols fr) k
              (combine (lft_fcst_grid tg fg) (fcst_rate_poly tg fg fr)) [0])
    as [H1 H2].
  - apply Forall_forall. intros [s r] Hin. apply in_combine_r in Hin.
    pose proof (@drop_from_Forall _ (fun r => length r = ncols fr)
                  (exact_cells tg fg) (rows fr) 0%nat Hwf) as HF.
    rewrite Forall_forall in HF. now apply HF.
  - now right.
  - rewrite bin_zero_pad by exact H2. rewrite H1, bin_one_zero. ring.
Qed.




(** ** Every rate is handed out once *)




(** ** Mass conservation *)






(** The empty target partition is no part of C1 as it is stated here:
    there the engine raises, whatever the forecast (see C8); so it does
    for the empty forecast, whose partition covers the same points
    (none). *)
Lemma mass_conservation_empty :
  same_footprint [] []
  /\ Forall valid_cell [] /\ Forall on_sphere [] /\ non_overlapping []
  /\ returned (Fecsep._forecast_mapping_generic flat_env [] []
                 (mk_ndarray 1 []) None) = Raise ValueError.
Proof.
  split; [intros x y; tauto|]. split; [constructor|]. split; [constructor|].
  split; [|reflexivity].
  intros i j c d _ H. destruct i; discriminate.
Qed.

(** ** The two scenarios of the specification, on a flat earth *)

(** Two source cells that lie in one target cell: their rates add up. *)
Example scenario_aggregation :
  returned (Fecsep._forecast_mapping_generic flat_env
              [mk_cell 0 0 20 10]
              [mk_cell 0 0 10 10; mk_cell 10 0 20 10]
              (mk_ndarray 2 [[4; 0]; [2; 0]]) (Some 1%Z))
  = Ok [[6; 0]].
Proof. vm_compute. reflexivity. Qed.

(** One source cell cut in two halves: each half takes half of the rates. *)
Example scenario_split :
  exists out,
    returned (Fecsep._forecast_mapping_generic flat_env
                [mk_cell 0 0 5 10; mk_cell 5 0 10 10]
                [mk_cell 0 0 10 10]
                (mk_ndarray 2 [[8; 0]]) (Some 3%Z)) = Ok out
    /\ mat_eq out [[4; 0]; [4; 0]].
Proof.
  eexists. split; [vm_compute; reflexivity|].
  repeat constructor; reflexivity.
Qed.

(* ================================================================= *)
(** * Further properties of the engine *)

(** ** Every rate of the result is a combination of the source rates *)

Lemma qsum_filter_ind {A} (f : A -> Q) (p : A -> bool) (l : list A) :
  qsum (map f (filter p l))
  == qsum (map (fun a => (if p a then 1 else 0) * f a) l).
Proof.
  induction l as [|a l IH]; simpl; [lra|].
  destruct (p a); simpl; rewrite IH; lra.
Qed.

Lemma qsum_over_indices (f : nat -> Q) (idx : list nat) (n : nat) :
  NoDup idx -> (forall j, In j idx -> (j < n)%nat) ->
  qsum (map f idx)
  == qsum (map (fun j => (if mem j idx then 1 else 0) * f j) (seq 0 n)).
Proof.
  intros Hnd Hlt. rewrite <- qsum_filter_ind.
  apply qsum_perm, Permutation_map, NoDup_Permutation.
  - exact Hnd.
  - apply NoDup_filter, seq_NoDup.
  - intros j. rewrite filter_In, in_seq, mem_true_iff. split.
    + intros Hj. split; [|exact Hj]. apply Hlt in Hj. lia.
    + tauto.
Qed.

Lemma combine_map {A B C} (f : A -> B) (g : A -> C) (l : list A) :
  combine (map f l) (map g l) = map (fun a => (f a, g a)) l.
Proof. induction l as [|a l IH]; simpl; [reflexivity|]. now rewrite IH. Qed.

(** What phase two is given, by index. *)
Lemma left_pairs (tg fg : list cell) (fr : ndarray) :
  length (rows fr) = length fg ->
  combine (lft_fcst_grid tg fg) (fcst_rate_poly tg fg fr)
  = map (fun j => (nth j fg (mk_cell 0 0 0 0), nth j (rows fr) []))
        (filter (fun j => negb (mem j (exact_cells tg fg))) (seq 0 (length fg))).
Proof.
  intros Hlen. unfold lft_fcst_grid, fcst_rate_poly.
  rewrite (@kept_rows cell (mk_cell 0 0 0 0) (exact_cells tg fg) fg).
  rewrite (@kept_rows vec [] (exact_cells tg fg) (rows fr)).
  rewrite Hlen. apply combine_map.
Qed.

(** The row of a target cell, bin by bin, is the combination of the source
    rates with the coefficients [coef]: these depend on the two grids and
    on the area of boxes, not on the rates. *)
Lemma remap_cell_matrix (E : Env) (tg fg : list cell) (fr : ndarray)
      (t : cell) (k : nat) :
  wf fr -> length (rows fr) = length fg -> (1 <= ncols fr)%nat ->
  bin k (remap_cell E tg fg fr t)
  == qsum (map (fun j => coef E tg fg t j * bin k (nth j (rows fr) []))
               (seq 0 (length fg))).
Proof.
  intros Hwf Hlen Hm. unfold remap_cell.
  rewrite bin_zip_plus by now rewrite zero_pad_length, length_exact_rate.
  rewrite overlap_rate_bins, exact_rate_bins by assumption.
  rewrite left_pairs by exact Hlen. rewrite map_map. cbn [fst snd].
  rewrite (@qsum_over_indices _ (consumed fg t) (length fg)
             (where_from_NoDup _ 0) (@consumed_lt fg t)).
  rewrite (@qsum_filter_ind _
             (fun j => weight E t (nth j fg (mk_cell 0 0 0 0))
                       * bin k (nth j (rows fr) []))
             (fun j => negb (mem j (exact_cells tg fg)))).
  rewrite Qplus_comm, <- qsum_map_plus.
  apply qsum_map_ext_in. intros j _. unfold coef.
  destruct (mem j (consumed fg t)), (mem j (exact_cells tg fg)); simpl; ring.
Qed.

Lemma nth_zip_with {A B C} (f : A -> B -> C) (da : A) (db : B) (dc : C)
      (u : list A) :
  forall (v : list B) (i : nat),
    (i < length u)%nat -> (i < length v)%nat ->
    nth i (zip_with f u v) dc = f (nth i u da) (nth i v db).
Proof.
  induction u as [|a u IH]; intros [|b v] [|i] Hu Hv; simpl in *; try lia.
  - reflexivity.
  - apply IH; lia.
Qed.

Lemma wf_matrix_add (a b : ndarray) :
  wf a -> wf b -> ncols a = ncols b -> wf (matrix_add a b).
Proof.
  unfold wf, matrix_add. simpl. intros Ha Hb Hc.
  revert Hb. generalize (rows b). induction Ha as [|r ra Hr _ IH];
    intros [|s rb] Hb; simpl; constructor.
  - inversion Hb; subst. rewrite length_zip_with. lia.
  - inversion Hb; subst. now apply IH.
Qed.

Lemma wf_matrix_scale (c : Q) (a : ndarray) : wf a -> wf (matrix_scale c a).
Proof.
  unfold wf, matrix_scale. simpl. intros Ha. apply Forall_map.
  revert Ha. apply Forall_impl. intros r Hr. now rewrite length_scale.
Qed.

Lemma bin_row_add (a b : ndarray) (j k : nat) :
  wf a -> wf b -> ncols a = ncols b -> length (rows a) = length (rows b) ->
  (j < length (rows a))%nat ->
  bin k (nth j (rows (matrix_add a b)) [])
  == bin k (nth j (rows a) []) + bin k (nth j (rows b) []).
Proof.
  intros Ha Hb Hc Hl Hj. unfold matrix_add. simpl. unfold vec in *.
  rewrite (@nth_zip_with _ _ _ (zip_with Qplus) [] [] []) by lia.
  apply bin_zip_plus.
  unfold wf in *. rewrite Forall_forall in Ha, Hb.
  transitivity (ncols a); [apply Ha, nth_In; lia|].
  rewrite Hc. symmetry. apply Hb, nth_In. lia.
Qed.

Lemma bin_row_scale (c : Q) (a : ndarray) (j k : nat) :
  bin k (nth j (rows (matrix_scale c a)) []) == c * bin k (nth j (rows a) []).
Proof.
  unfold matrix_scale. simpl.
  change (@nil Q) with (scale [] c) at 1.
  rewrite (map_nth (fun r => scale r c)). rewrite bin_scale. ring.
Qed.

Lemma bin_nth_map {A} (f : A -> vec) (d : A) (l : list A) (i k : nat) :
  bin k (nth i (map f l) [])
  = if (i <? length l)%nat then bin k (f (nth i l d)) else 0.
Proof.
  destruct (Nat.ltb_spec i (length l)) as [H|H].
  - now rewrite (nth_indep _ [] (f d)), map_nth by (rewrite length_map; lia).
  - rewrite nth_overflow by (rewrite length_map; lia). apply bin_nil.
Qed.

(** X1 (the engine is linear in the rates).  Take two grids of cells whose
    corners differ in both coordinates, the source cells of an area that
    is not zero (so that every polygon is a rectangle and no division is
    by zero).  On these grids the remap of the sum of two rate matrices is
    the sum of their remaps, and the remap of a rate matrix scaled by [c]
    (a forecast scaled to another time horizon) is the remap scaled by
    [c]; in every bin of every target cell. *)
Theorem remap_linear (E : Env) (tg fg : list cell) (a b : ndarray) (c : Q)
        (ncpu : option Z) :
  fair E -> workers_ok E ncpu -> wf a -> wf b ->
  ncols a = ncols b -> (1 <= ncols a)%nat ->
  length (rows a) = length fg -> length (rows b) = length fg -> tg <> [] ->
  Forall box_like tg -> Forall box_like fg ->
  Forall (fun s => ~ Fecsep.calc_cell_area E s == 0) fg ->
  exists oa ob osum oscaled,
    returned (Fecsep._forecast_mapping_generic E tg fg a ncpu) = Ok oa
    /\ returned (Fecsep._forecast_mapping_generic E tg fg b ncpu) = Ok ob
    /\ returned (Fecsep._forecast_mapping_generic E tg fg (matrix_add a b) ncpu)
       = Ok osum
    /\ returned (Fecsep._forecast_mapping_generic E tg fg (matrix_scale c a) ncpu)
       = Ok oscaled
    /\ forall i k,
         bin k (nth i osum []) == bin k (nth i oa []) + bin k (nth i ob [])
         /\ bin k (nth i oscaled []) == c * bin k (nth i oa []).
Proof.
  intros HE Hw Ha Hb Hc Hm Hla Hlb Hne _ _ _.
  pose proof (wf_matrix_add Ha Hb Hc) as Hs.
  pose proof (wf_matrix_scale c Ha) as Hk.
  assert (Hls : length (rows (matrix_add a b)) = length fg).
  { unfold matrix_add. simpl. rewrite length_zip_with. unfold vec in *. lia. }
  assert (Hlk : length (rows (matrix_scale c a)) = length fg).
  { unfold matrix_scale. simpl. now rewrite length_map. }
  exists (map (remap_cell E tg fg a) tg), (map (remap_cell E tg fg b) tg),
    (map (remap_cell E tg fg (matrix_add a b)) tg),
    (map (remap_cell E tg fg (matrix_scale c a)) tg).
  rewrite !(@engine_run E tg fg _ ncpu HE Hw) by assumption.
  cbn [returned snd].
  split; [now apply engine_value_ok|].
  split; [apply engine_value_ok; try assumption; lia|].
  split; [now apply engine_value_ok|].
  split; [now apply engine_value_ok|].
  intros i k. rewrite !(bin_nth_map _ (mk_cell 0 0 0 0)).
  destruct (i <? length tg)%nat; [|split; ring].
  rewrite !remap_cell_matrix by (assumption || lia).
  split.
  - rewrite <- qsum_map_plus. apply qsum_map_ext_in. intros j Hj.
    apply in_seq in Hj.
    rewrite bin_row_add by (assumption || lia). ring.
  - rewrite <- qsum_map_scale. apply qsum_map_ext_in. intros j _.
    rewrite bin_row_scale. ring.
Qed.

Lemma remap_linear_witness :
  exists oa oscaled,
    returned (Fecsep._forecast_mapping_generic flat_env
                [mk_cell 0 0 5 10; mk_cell 5 0 10 10] [mk_cell 0 0 10 10]
                (mk_ndarray 2 [[8; 1]]) None) = Ok oa
    /\ returned (Fecsep._forecast_mapping_generic flat_env
                   [mk_cell 0 0 5 10; mk_cell 5 0 10 10] [mk_cell 0 0 10 10]
                   (matrix_scale 3 (mk_ndarray 2 [[8; 1]])) None) = Ok oscaled
    /\ forall i k, bin k (nth i oscaled []) == 3 * bin k (nth i oa []).
Proof.
  destruct (@remap_linear flat_env
              [mk_cell 0 0 5 10; mk_cell 5 0 10 10] [mk_cell 0 0 10 10]
              (mk_ndarray 2 [[8; 1]]) (mk_ndarray 2 [[2; 2]]) 3 None)
    as (oa & ob & osum & oscaled & H1 & _ & _ & H4 & H5).
  - exact flat_env_fair.
  - simpl. lia.
  - repeat constructor.
  - repeat constructor.
  - reflexivity.
  - simpl. lia.
  - reflexivity.
  - reflexivity.
  - discriminate.
  - repeat constructor; simpl; intros H; discriminate H.
  - repeat constructor; simpl; intros H; discriminate H.
  - repeat constructor. intros H. discriminate H.
  - exists oa, oscaled. split; [exact H1|]. split; [exact H4|].
    intros i k. apply H5.
Defined.

(** ** Rates that are not negative stay so *)

Lemma qsum_nonneg {A} (f : A -> Q) (l : list A) :
  (forall a, In a l -> 0 <= f a) -> 0 <= qsum (map f l).
Proof.
  induction l as [|a l IH]; intros H; simpl; [lra|].
  pose proof (H a (or_introl eq_refl)).
  assert (0 <= qsum (map f l)) by (apply IH; intros; apply H; now right).
  lra.
Qed.


(** The share of a valid source cell between the poles that a valid
    target cell takes is the area of a box with its bounds in order,
    between the poles, over the area of the cell: neither is negative. *)
Lemma weight_nonneg (E : Env) (t s : cell) :
  area_law (geographical_area_from_bounds E) ->
  valid_cell t -> valid_cell s -> on_sphere s ->
  0 <= weight E t s.
Proof.
  intros Hlaw Ht Hs Hsph.
  destruct (area_law_clamped Hlaw) as (G & Gle & Glt & Ha).
  rewrite (@weight_shared E G Gle Ha t s Ht Hs Hsph).
  pose proof (@cell_area_pos E G Glt Ha s Hs Hsph) as Hpos.
  apply Qmult_le_0_compat.
  - unfold shared. apply Qmult_le_0_compat; apply ov_nonneg.
  - apply Qlt_le_weak, Qinv_lt_0_compat, Hpos.
Qed.

Lemma coef_nonneg (E : Env) (tg fg : list cell) (t : cell) (j : nat) :
  area_law (geographical_area_from_bounds E) ->
  valid_cell t -> Forall valid_cell fg -> Forall on_sphere fg ->
  (j < length fg)%nat ->
  0 <= coef E tg fg t j.
Proof.
  intros Hlaw Ht Hvs Hsph Hj. unfold coef.
  assert (Hin : In (nth j fg (mk_cell 0 0 0 0)) fg) by now apply nth_In.
  rewrite Forall_forall in Hvs, Hsph.
  pose proof (@weight_nonneg E t (nth j fg (mk_cell 0 0 0 0)) Hlaw Ht
                (Hvs _ Hin) (Hsph _ Hin)).
  destruct (mem j (consumed fg t)), (mem j (exact_cells tg fg)); lra.
Qed.

Lemma bin_nonneg (k : nat) (v : vec) :
  Forall (fun x => 0 <= x) v -> 0 <= bin k v.
Proof.
  unfold bin. intros H. revert k.
  induction H as [|x v Hx _ IH]; intros [|k]; simpl; try lra. apply IH.
Qed.

Lemma bin_row_nonneg (m : list vec) (j k : nat) :
  nonneg m -> 0 <= bin k (nth j m []).
Proof.
  intros H. apply bin_nonneg.
  destruct (Nat.lt_ge_cases j (length m)) as [Hj|Hj].
  - unfold nonneg in H. rewrite Forall_forall in H. apply H. now apply nth_In.
  - rewrite nth_overflow by lia. constructor.
Qed.

Lemma bins_nonneg (v : vec) : (forall k, 0 <= bin k v) -> Forall (fun x => 0 <= x) v.
Proof.
  intros H. induction v as [|x v IH]; constructor.
  - apply (H 0%nat).
  - apply IH. intros k. apply (H (S k)).
Qed.

(** X2 (rates stay non-negative).  With pycsep's area of a box (see
    [area_law]; the area is signed, and not negative for a box between the
    poles with its bounds in order), valid source cells whose latitudes
    are between the poles and valid target cells: when no rate of the
    forecast is negative, no rate of the remapped forecast is negative.
    The remap adds up rates and shares of rates, the shares are areas of
    such boxes over areas of source cells, and nothing is subtracted. *)
Theorem remap_nonneg (E : Env) (tg fg : list cell) (fr : ndarray)
        (ncpu : option Z) :
  fair E -> workers_ok E ncpu ->
  area_law (geographical_area_from_bounds E) ->
  wf fr -> length (rows fr) = length fg -> (1 <= ncols fr)%nat -> tg <> [] ->
  Forall valid_cell fg -> Forall on_sphere fg -> Forall valid_cell tg ->
  nonneg (rows fr) ->
  exists out,
    returned (Fecsep._forecast_mapping_generic E tg fg fr ncpu) = Ok out
    /\ nonneg out.
Proof.
  intros HE Hw Hlaw Hwf Hlen Hm Hne Hvs Hsph Hvt Hr.
  exists (map (remap_cell E tg fg fr) tg).
  rewrite (@engine_run E tg fg fr ncpu HE Hw Hwf). cbn [returned snd].
  split; [now apply engine_value_ok|].
  apply Forall_map, Forall_forall. intros t Ht. apply bins_nonneg. intros k.
  rewrite remap_cell_matrix by assumption.
  apply qsum_nonneg. intros j Hj. apply in_seq in Hj.
  rewrite Forall_forall in Hvt.
  apply Qmult_le_0_compat;
    [apply coef_nonneg; auto; lia|now apply bin_row_nonneg].
Qed.

Lemma remap_nonneg_witness :
  exists out,
    returned (Fecsep._forecast_mapping_generic polar_env
                [mk_cell 0 0 5 10; mk_cell 5 0 20 10]
                [mk_cell 0 0 10 10; mk_cell 10 0 20 10]
                (mk_ndarray 2 [[8; 1]; [0; 3]]) (Some 2%Z)) = Ok out
    /\ nonneg out.
Proof.
  apply (@remap_nonneg polar_env
           [mk_cell 0 0 5 10; mk_cell 5 0 20 10]
           [mk_cell 0 0 10 10; mk_cell 10 0 20 10]
           (mk_ndarray 2 [[8; 1]; [0; 3]]) (Some 2%Z)).
  - exact polar_env_fair.
  - simpl. lia.
  - exact polar_area_law.
  - repeat constructor.
  - reflexivity.
  - simpl. lia.
  - discriminate.
  - apply valid_cells_check. reflexivity.
  - apply on_sphere_check. reflexivity.
  - apply valid_cells_check. reflexivity.
  - repeat constructor; discriminate.
Defined.

(** ** The remap never adds mass *)


Section Packing.

Variable G : Q -> Q.
Hypothesis Gle : forall y y', y <= y' -> G y <= G y'.

Variable tg : list cell.
Hypothesis tg_valid : Forall valid_cell tg.
Hypothesis tg_apart : non_overlapping tg.




End Packing.






(** ** When every source cell lies in a target cell *)

Lemma nothing_left (tg fg : list cell) :
  (forall s, In s fg -> exists t, In t tg /\ contained s t) ->
  lft_fcst_grid tg fg = [].
Proof.
  intros H. unfold lft_fcst_grid. apply drop_from_all.
  intros j Hj. destruct (nth_error fg j) as [s|] eqn:Hs.
  - destruct (H s (nth_error_In _ _ Hs)) as (t & Ht & Hc).
    apply in_exact_cells. exists t. split; [exact Ht|].
    apply in_consumed. now exists s.
  - apply nth_error_None in Hs. lia.
Qed.

(** X4 (aggregation needs no areas).  When every source cell lies in some
    target cell (the forecast is aggregated onto a coarser partition),
    phase one consumes every cell and phase two is given none; the result
    is the same whatever the area of a box is, and the row of a target cell
    is, bin by bin, the sum of the rates of the source cells in it. *)
Theorem aggregation_needs_no_area (E E' : Env) (tg fg : list cell)
        (fr : ndarray) (ncpu ncpu' : option Z) :
  fair E -> fair E' -> workers_ok E ncpu -> workers_ok E' ncpu' ->
  wf fr -> length (rows fr) = length fg -> (1 <= ncols fr)%nat -> tg <> [] ->
  (forall s, In s fg -> exists t, In t tg /\ contained s t) ->
  lft_fcst_grid tg fg = []
  /\ exists out,
       returned (Fecsep._forecast_mapping_generic E tg fg fr ncpu) = Ok out
       /\ returned (Fecsep._forecast_mapping_generic E' tg fg fr ncpu') = Ok out
       /\ forall i t,
            nth_error tg i = Some t ->
            exists r,
              nth_error out i = Some r
              /\ forall k,
                   bin k r
                   == qsum (map (fun j => bin k (nth j (rows fr) []))
                                (consumed fg t)).
Proof.
  intros HE HE' Hw Hw' Hwf Hlen Hm Hne Hin.
  pose proof (nothing_left tg fg Hin) as Hleft.
  split; [exact Hleft|].
  exists (map (remap_cell E tg fg fr) tg).
  rewrite (@engine_run E tg fg fr ncpu HE Hw Hwf),
    (@engine_run E' tg fg fr ncpu' HE' Hw' Hwf).
  cbn [returned snd].
  assert (Hsame : forall t, remap_cell E' tg fg fr t = remap_cell E tg fg fr t).
  { intros t. unfold remap_cell, overlap_rate. now rewrite Hleft. }
  split; [now apply engine_value_ok|].
  split.
  { rewrite engine_value_ok by assumption. f_equal.
    apply map_ext. exact Hsame. }
  intros i t Ht. exists (remap_cell E tg fg fr t).
  split; [now apply map_nth_error|].
  intros k. unfold remap_cell.
  rewrite bin_zip_plus by now rewrite zero_pad_length, length_exact_rate.
  rewrite exact_rate_bins by assumption.
  unfold overlap_rate. rewrite Hleft. simpl combine. simpl fold_left.
  rewrite bin_zero_pad by now right. rewrite bin_one_zero. ring.
Qed.

Lemma aggregation_needs_no_area_witness :
  exists out,
    returned (Fecsep._forecast_mapping_generic flat_env
                [mk_cell 0 0 20 10] [mk_cell 0 0 10 10; mk_cell 10 0 20 10]
                (mk_ndarray 2 [[4; 0]; [2; 0]]) (Some 1%Z)) = Ok out
    /\ returned (Fecsep._forecast_mapping_generic
                   (mk_env (fun _ _ _ _ => 0) 4 (fun _ n => seq 0 n))
                   [mk_cell 0 0 20 10] [mk_cell 0 0 10 10; mk_cell 10 0 20 10]
                   (mk_ndarray 2 [[4; 0]; [2; 0]]) None) = Ok out.
Proof.
  destruct (@aggregation_needs_no_area flat_env
              (mk_env (fun _ _ _ _ => 0) 4 (fun _ n => seq 0 n))
              [mk_cell 0 0 20 10] [mk_cell 0 0 10 10; mk_cell 10 0 20 10]
              (mk_ndarray 2 [[4; 0]; [2; 0]]) (Some 1%Z) None)
    as (_ & out & H1 & H2 & _).
  - exact flat_env_fair.
  - intros k n. apply Permutation_refl.
  - simpl. lia.
  - simpl. lia.
  - repeat constructor.
  - reflexivity.
  - simpl. lia.
  - discriminate.
  - intros s [<-|[<-|[]]]; exists (mk_cell 0 0 20 10);
      (split; [now left|]); apply inside_iff; reflexivity.
  - exists out. split; [exact H1|exact H2].
Defined.

(* ================================================================= *)
(** * The time configuration: proofs *)

Module StrFacts.
Import Str.
#[local] Open Scope string_scope.

Lemma append_nil_r (s : string) : s ++ "" = s.
Proof. induction s; simpl; congruence. Qed.

Lemma append_assoc (a b c : string) : (a ++ b) ++ c = a ++ (b ++ c).
Proof. induction a; simpl; congruence. Qed.

Lemma snoc_append (cur : string) (c : ascii) (s : string) :
  snoc cur c ++ s = cur ++ String c s.
Proof. unfold snoc. now rewrite append_assoc. Qed.

Lemma snoc_nonempty (cur : string) (c : ascii) : snoc cur c <> "".
Proof. unfold snoc. destruct cur; discriminate. Qed.

Lemma append_nonempty_l (a b : string) : a <> "" -> a ++ b <> "".
Proof. destruct a; [congruence | discriminate]. Qed.

Lemma nonempty_true (s : string) : nonempty s = true <-> s <> "".
Proof. destruct s; simpl; split; congruence. Qed.

Lemma all_append (p : ascii -> bool) (a b : string) :
  all p (a ++ b) = all p a && all p b.
Proof. induction a; simpl; [reflexivity |]. now rewrite IHa, andb_assoc. Qed.

Lemma all_impl (p q : ascii -> bool) (s : string) :
  (forall c, p c = true -> q c = true) -> all p s = true -> all q s = true.
Proof.
  intros Hpq. induction s; simpl; [reflexivity |].
  intros H. apply andb_true_iff in H as [H1 H2].
  now rewrite (Hpq _ H1), IHs.
Qed.

(** *** [re.split] on the runs of digits *)

Lemma scan_text (u cur : string) :
  no_digit u -> scan false cur u = [cur ++ u].
Proof.
  unfold no_digit. revert cur. induction u as [| c u IH]; intros cur H.
  - simpl. now rewrite append_nil_r.
  - simpl in H. apply andb_true_iff in H as [Hc Hu].
    apply negb_true_iff in Hc. simpl. rewrite Hc.
    now rewrite IH, snoc_append.
Qed.

Lemma scan_digits_text (n u cur : string) :
  digits n -> no_digit u -> u <> "" ->
  scan true cur (n ++ u) = [cur ++ n; u].
Proof.
  unfold digits. revert cur. induction n as [| c n IH]; intros cur Hn Hu Hne.
  - simpl. rewrite append_nil_r. destruct u as [| c u]; [congruence |].
    pose proof Hu as Hu'. unfold no_digit in Hu'. simpl in Hu'.
    apply andb_true_iff in Hu' as [Hc Hu'].
    apply negb_true_iff in Hc. simpl. rewrite Hc.
    now rewrite (@scan_text u (String c "") Hu').
  - simpl in Hn. apply andb_true_iff in Hn as [Hc Hn].
    simpl. rewrite Hc. rewrite (IH _ Hn Hu Hne). now rewrite snoc_append.
Qed.

(** A number followed by a text is split into the two. *)
Lemma split_number_text (n u : string) :
  n <> "" -> digits n -> u <> "" -> no_digit u ->
  filter nonempty (re_split_digits (n ++ u)) = [n; u].
Proof.
  intros Hne Hn Hue Hu. destruct n as [| c n]; [congruence |].
  unfold digits in Hn. simpl in Hn. apply andb_true_iff in Hn as [Hc Hn].
  unfold re_split_digits. simpl. rewrite Hc.
  rewrite (@scan_digits_text n u (String c "") Hn Hu Hue). simpl.
  destruct u; [congruence | reflexivity].
Qed.

Lemma scan_first (d : bool) (s cur : string) :
  cur <> "" ->
  exists p rest, scan d cur s = p :: rest /\ nonempty p = true.
Proof.
  revert d cur. induction s as [| c s IH]; intros d cur Hc.
  - destruct d; simpl; eexists; eexists; (split; [reflexivity |]);
      now apply nonempty_true.
  - simpl. destruct (is_digit c), d.
    + apply IH, snoc_nonempty.
    + eexists; eexists; split; [reflexivity | now apply nonempty_true].
    + eexists; eexists; split; [reflexivity | now apply nonempty_true].
    + apply IH, snoc_nonempty.
Qed.

Lemma filter_cons_nonempty (cur : string) (l : list string) :
  cur <> "" -> filter nonempty (cur :: l) = cur :: filter nonempty l.
Proof. intros H. simpl. apply nonempty_true in H. now rewrite H. Qed.

(** One piece only: the rest of the string goes on the run that is read. *)
Lemma scan_one (s : string) :
  forall (d : bool) (cur b : string),
    cur <> "" -> filter nonempty (scan d cur s) = [b] ->
    b = cur ++ s /\ (if d then digits s else no_digit s).
Proof.
  induction s as [| c s IH]; intros d cur b Hc H.
  - destruct d; simpl in H; apply nonempty_true in Hc; rewrite Hc in H;
      injection H as <-; now rewrite append_nil_r.
  - simpl in H. destruct (is_digit c) eqn:Ec, d.
    + destruct (IH true _ _ (@snoc_nonempty cur c) H) as [-> Hd].
      split; [apply snoc_append |]. unfold digits in *. simpl.
      now rewrite Ec.
    + rewrite (filter_cons_nonempty _ Hc) in H.
      destruct (@scan_first true s (String c "")) as (p & rest & E & Hp);
        [discriminate |].
      rewrite E in H. simpl in H. rewrite Hp in H. discriminate.
    + rewrite (filter_cons_nonempty _ Hc) in H.
      destruct (@scan_first false s (String c "")) as (p & rest & E & Hp);
        [discriminate |].
      rewrite E in H. simpl in H. rewrite Hp in H. discriminate.
    + destruct (IH false _ _ (@snoc_nonempty cur c) H) as [-> Hd].
      split; [apply snoc_append |]. unfold no_digit in *. simpl.
      now rewrite Ec.
Qed.

(** Two pieces: the run that is read goes on, then the other kind of run
    fills the rest. *)
Lemma scan_two (s : string) :
  forall (d : bool) (cur a b : string),
    cur <> "" -> filter nonempty (scan d cur s) = [a; b] ->
    exists p, s = p ++ b /\ a = cur ++ p /\ b <> ""
              /\ (if d then digits p /\ no_digit b
                  else no_digit p /\ digits b).
Proof.
  induction s as [| c s IH]; intros d cur a b Hc H.
  - destruct d; simpl in H; apply nonempty_true in Hc; rewrite Hc in H;
      discriminate.
  - simpl in H. destruct (is_digit c) eqn:Ec, d.
    + destruct (IH true _ _ _ (@snoc_nonempty cur c) H)
        as (p & -> & -> & Hb & Hp & Hn).
      exists (String c p). repeat split; auto.
      * apply snoc_append.
      * unfold digits in *. simpl. now rewrite Ec.
    + rewrite (filter_cons_nonempty _ Hc) in H. injection H as <- H.
      assert (Hne : String c "" <> "") by discriminate.
      destruct (scan_one s true Hne H) as [-> Hd].
      exists "". simpl. repeat split.
      * now rewrite append_nil_r.
      * discriminate.
      * unfold digits in *. simpl. now rewrite Ec.
    + rewrite (filter_cons_nonempty _ Hc) in H. injection H as <- H.
      assert (Hne : String c "" <> "") by discriminate.
      destruct (scan_one s false Hne H) as [-> Hd].
      exists "". simpl. repeat split.
      * now rewrite append_nil_r.
      * discriminate.
      * unfold no_digit in *. simpl. now rewrite Ec.
    + destruct (IH false _ _ _ (@snoc_nonempty cur c) H)
        as (p & -> & -> & Hb & Hp & Hn).
      exists (String c p). repeat split; auto.
      * apply snoc_append.
      * unfold no_digit in *. simpl. now rewrite Ec.
Qed.

(** The two pieces of a string that [re.split] cuts in two: a number and
    a text behind it, or a text and a number behind it. *)
Lemma split_two (w a b : string) :
  filter nonempty (re_split_digits w) = [a; b] ->
  w = a ++ b /\ a <> "" /\ b <> ""
  /\ ((digits a /\ no_digit b) \/ (no_digit a /\ digits b)).
Proof.
  unfold re_split_digits. destruct w as [| c w]; [discriminate |].
  simpl. destruct (is_digit c) eqn:Ec; intros H.
  - simpl in H.
    destruct (@scan_two w true (String c "") a b) as (p & -> & -> & Hb & Hp & Hn);
      [discriminate | exact H |].
    repeat split; auto; [discriminate |]. left. split; [| exact Hn].
    unfold digits in *. simpl. now rewrite Ec.
  - destruct (@scan_two w false (String c "") a b) as (p & -> & -> & Hb & Hp & Hn);
      [discriminate | exact H |].
    repeat split; auto; [discriminate |]. right. split; [| exact Hn].
    unfold no_digit in *. simpl. now rewrite Ec.
Qed.

(** *** Lower case and search *)

Lemma lower_digit (c : ascii) : is_digit c = true -> lower_char c = c.
Proof.
  destruct c as [[] [] [] [] [] [] [] []]; intros H;
    try discriminate H; reflexivity.
Qed.

Lemma lower_digits (s : string) : digits s -> lower s = s.
Proof.
  unfold digits. induction s as [| c s IH]; simpl; [reflexivity |].
  intros H. apply andb_true_iff in H as [Hc Hs].
  now rewrite (lower_digit _ Hc), IH.
Qed.

(** A number holds no word that starts with a letter. *)
Lemma digits_contain_no_word (c0 : ascii) (rest s : string) :
  is_digit c0 = false -> digits s -> contains (String c0 rest) s = false.
Proof.
  intros H0. unfold digits. induction s as [| c s IH]; simpl.
  - reflexivity.
  - intros H. apply andb_true_iff in H as [Hc Hs].
    destruct (ascii_dec c0 c) as [-> |]; [congruence |]. now apply IH.
Qed.

(** *** [str.split] *)

Lemma split_from_none (sep : ascii) (s cur : string) :
  all (fun c => negb (Ascii.eqb c sep)) s = true ->
  split_from sep cur s = [cur ++ s].
Proof.
  revert cur. induction s as [| c s IH]; intros cur H; simpl.
  - now rewrite append_nil_r.
  - simpl in H. apply andb_true_iff in H as [Hc Hs].
    apply negb_true_iff in Hc. rewrite Hc, IH by assumption.
    now rewrite snoc_append.
Qed.

Lemma split_from_one (sep : ascii) (a b cur : string) :
  all (fun c => negb (Ascii.eqb c sep)) a = true ->
  split_from sep cur (a ++ String sep b)
  = (cur ++ a) :: split_from sep "" b.
Proof.
  revert cur. induction a as [| c a IH]; intros cur H; simpl.
  - now rewrite Ascii.eqb_refl, append_nil_r.
  - simpl in H. apply andb_true_iff in H as [Hc Hs].
    apply negb_true_iff in Hc. rewrite Hc, IH by assumption.
    now rewrite snoc_append.
Qed.

Lemma digit_not_dash (c : ascii) :
  is_digit c = true -> negb (Ascii.eqb c "-") = true.
Proof.
  destruct c as [[] [] [] [] [] [] [] []]; intros H;
    try discriminate H; reflexivity.
Qed.

End StrFacts.

(* ================================================================= *)
(** ** Values, dictionaries and the monad *)

Module PyFacts.
Import Py.
#[local] Open Scope string_scope.

Lemma bind_lift_return {A B} (a : A) (k : A -> io B) :
  bind (lift (Return a)) k = k a.
Proof. unfold bind, lift. simpl. now destruct (k a). Qed.

Lemma bind_lift_throw {A B} (e : error) (k : A -> io B) :
  bind (lift (Throw e)) k = ([], Throw e).
Proof. reflexivity. Qed.

Lemma bind_ret {A B} (a : A) (k : A -> io B) : bind (ret a) k = k a.
Proof. apply bind_lift_return. Qed.

(** A computation that returns has run both of its parts. *)
Lemma bind_returns {A B} (m : io A) (k : A -> io B) out (b : B) :
  bind m k = (out, Return b) ->
  exists o1 a o2, m = (o1, Return a) /\ k a = (o2, Return b)
                  /\ out = (o1 ++ o2)%list.
Proof.
  unfold bind. destruct m as [o1 [a | e]]; simpl; [| discriminate].
  destruct (k a) as [o2 r] eqn:E. simpl. intros H. injection H as <- ->.
  now exists o1, a, o2.
Qed.

Lemma bind_ret_returns {A B} (m : io A) (f : A -> B) out (b : B) :
  bind m (fun a => ret (f a)) = (out, Return b) ->
  exists a, m = (out, Return a) /\ b = f a.
Proof.
  intros H. apply bind_returns in H as (o1 & a & o2 & Hm & Hk & ->).
  unfold ret in Hk. injection Hk as <- <-.
  exists a. now rewrite app_nil_r.
Qed.

Lemma eqb_neq (k k' : string) : k <> k' -> String.eqb k' k = false.
Proof. intros H. apply String.eqb_neq. congruence. Qed.

Lemma get_remove_same (d : dict) (k : string) : get (remove k d) k = None.
Proof.
  induction d as [| [k' v] d IH]; simpl; [reflexivity |].
  destruct (String.eqb k' k) eqn:E; [exact IH |]. simpl. now rewrite E.
Qed.

Lemma get_remove_other (d : dict) (k k' : string) :
  k <> k' -> get (remove k' d) k = get d k.
Proof.
  intros Hk. induction d as [| [k0 v] d IH]; simpl; [reflexivity |].
  destruct (String.eqb k0 k') eqn:E'.
  - apply String.eqb_eq in E'. subst k0. now rewrite (eqb_neq Hk).
  - simpl. now rewrite IH.
Qed.

Lemma get_set_same (d : dict) (k : string) (v : value) :
  get (set d k v) k = Some v.
Proof. unfold set. simpl. now rewrite String.eqb_refl. Qed.

Lemma get_set_other (d : dict) (k k' : string) (v : value) :
  k <> k' -> get (set d k' v) k = get d k.
Proof.
  intros Hk. unfold set. simpl. rewrite (eqb_neq Hk).
  now apply get_remove_other.
Qed.

Lemma arg_set_other (d : dict) (k k' : string) (v default : value) :
  k <> k' -> arg (set d k' v) k default = arg d k default.
Proof. intros Hk. unfold arg. now rewrite get_set_other. Qed.

(** A key that [get] does not find is the key of no entry. *)
Lemma get_none_keys (d : dict) (k : string) :
  get d k = None -> Forall (fun kv => fst kv <> k) d.
Proof.
  induction d as [| [k' v] d IH]; simpl; intros H; constructor.
  - simpl. intros ->. now rewrite String.eqb_refl in H.
  - apply IH. now destruct (String.eqb k' k).
Qed.

Lemma Forall_filter {A} (P : A -> Prop) (f : A -> bool) (l : list A) :
  Forall P l -> Forall P (filter f l).
Proof.
  induction 1; simpl; [constructor |].
  destruct (f x); [constructor |]; assumption.
Qed.

Lemma get_update_other (e d : dict) (k : string) :
  Forall (fun kv => fst kv <> k) e -> get (update d e) k = get d k.
Proof.
  unfold update. revert d. induction e as [| [k' v] e IH]; intros d H; simpl.
  - reflexivity.
  - rewrite IH by now apply Forall_inv_tail in H.
    apply Forall_inv in H. simpl in H. apply get_set_other. congruence.
Qed.

Lemma remove_idem (d : dict) (k : string) :
  remove k (remove k d) = remove k d.
Proof.
  induction d as [| [k' v] d IH]; simpl; [reflexivity |].
  destruct (String.eqb k' k) eqn:E; [exact IH |]. simpl. now rewrite E, IH.
Qed.

Lemma remove_comm (d : dict) (k k' : string) :
  remove k (remove k' d) = remove k' (remove k d).
Proof.
  induction d as [| [k0 v] d IH]; simpl; [reflexivity |].
  destruct (String.eqb k0 k') eqn:E', (String.eqb k0 k) eqn:E; simpl;
    rewrite ?E, ?E'; congruence.
Qed.

Lemma remove_set_same (d : dict) (k : string) (v : value) :
  remove k (set d k v) = remove k d.
Proof.
  unfold set. simpl. rewrite String.eqb_refl. apply remove_idem.
Qed.

Lemma remove_set_other (d : dict) (k k' : string) (v : value) :
  k <> k' -> remove k (set d k' v) = set (remove k d) k' v.
Proof.
  intros Hk. unfold set. simpl.
  assert (E : String.eqb k' k = false) by (apply String.eqb_neq; congruence).
  rewrite E. now rewrite remove_comm.
Qed.

Lemma remove_update_other (e d : dict) (k : string) :
  Forall (fun kv => fst kv <> k) e ->
  remove k (update d e) = update (remove k d) e.
Proof.
  unfold update. revert d. induction e as [| [k' v] e IH]; intros d H; simpl.
  - reflexivity.
  - rewrite IH by now apply Forall_inv_tail in H.
    apply Forall_inv in H. simpl in H.
    rewrite remove_set_other by congruence. reflexivity.
Qed.

End PyFacts.

(* ================================================================= *)
(** ** The length of a window *)

Module TimeFacts.
Import Str Py Time StrFacts PyFacts.
#[local] Open Scope string_scope.

(** A number names no unit. *)
Lemma find_unit_digits (b : string) :
  digits b -> find_unit b = Throw IndexError.
Proof.
  intros Hb. unfold find_unit. rewrite (lower_digits Hb).
  cbn [map _UNITS drop_last filter].
  rewrite !(@digits_contain_no_word _ _ b) by (reflexivity || assumption).
  reflexivity.
Qed.

(** The unit that is found is one of the four. *)
Lemma find_unit_in (u unit : string) :
  find_unit u = Return unit -> In unit (map drop_last _UNITS).
Proof.
  unfold find_unit. cbn [map _UNITS drop_last filter].
  destruct (contains "year" (lower u)); [intros [= <-]; simpl; tauto |].
  destruct (contains "month" (lower u)); [intros [= <-]; simpl; tauto |].
  destruct (contains "week" (lower u)); [intros [= <-]; simpl; tauto |].
  destruct (contains "day" (lower u)); [intros [= <-]; simpl; tauto |].
  discriminate.
Qed.

Lemma parse_accepts_iff (L : Lib) (w : string) (c r : value) :
  parse_timedelta_string L (VStr w) c = Return r <->
  exists n u unit,
    w = n ++ u /\ n <> "" /\ digits n /\ u <> "" /\ no_digit u
    /\ find_unit u = Return unit /\ r = VStr (window_text n unit).
Proof.
  split.
  - unfold parse_timedelta_string.
    destruct (filter nonempty (re_split_digits w)) as [| a [| b [| x l]]] eqn:E;
      try discriminate.
    destruct (find_unit b) as [unit |] eqn:Eu; [| discriminate].
    intros [= <-].
    destruct (split_two _ E) as (-> & Ha & Hb & [[Hd Hn] | [Hn Hd]]).
    + now exists a, b, unit.
    + rewrite (find_unit_digits Hd) in Eu. discriminate.
  - intros (n & u & unit & -> & Hn & Hd & Hu & Ht & Hf & ->).
    unfold parse_timedelta_string.
    now rewrite (split_number_text Hn Hd Hu Ht), Hf.
Qed.

Lemma parse_raises_value_error (L : Lib) (w : string) (c : value) (e : error) :
  parse_timedelta_string L (VStr w) c = Throw e -> e = ValueError.
Proof.
  unfold parse_timedelta_string.
  destruct (filter nonempty (re_split_digits w)) as [| a [| b [| x l]]];
    try (intros [= <-]; reflexivity).
  destruct (find_unit b); [discriminate | now intros [= <-]].
Qed.

(** The text [-units] behind the number of a parsed window. *)
Lemma unit_text (unit : string) :
  In unit (map drop_last _UNITS) ->
  no_digit ("-" ++ unit ++ "s")
  /\ find_unit ("-" ++ unit ++ "s") = Return unit
  /\ split "-" (unit ++ "s") = [unit ++ "s"]
  /\ exists code, In (unit ++ "s", code) (combine _UNITS _PD_FORMAT)
       /\ obind (index (unit ++ "s") _UNITS)
                (fun i => obind (item _PD_FORMAT i) (fun code' => Return code'))
          = Return code.
Proof.
  intros [<- | [<- | [<- | [<- | []]]]];
    (split; [reflexivity |]); (split; [reflexivity |]);
    (split; [reflexivity |]); eexists; (split; [| reflexivity]);
    simpl; tauto.
Qed.

Lemma frequency_of_window (n unit : string) :
  digits n -> In unit (map drop_last _UNITS) ->
  exists code, In (unit ++ "s", code) (combine _UNITS _PD_FORMAT)
               /\ frequency_of (window_text n unit) = Return (n ++ code).
Proof.
  intros Hn Hu. destruct (@unit_text _ Hu) as (_ & _ & Hs & code & Hc & Hi).
  exists code. split; [exact Hc |].
  unfold frequency_of, window_text, split.
  change (n ++ "-" ++ unit ++ "s") with (n ++ String "-" (unit ++ "s")).
  rewrite split_from_one by (apply (@all_impl _ _ _ digit_not_dash), Hn).
  fold (split "-" (unit ++ "s")). rewrite Hs. simpl append at 1.
  destruct (index (unit ++ "s") _UNITS) as [i |]; [| discriminate].
  simpl in Hi |- *. destruct (item _PD_FORMAT i); [| discriminate].
  simpl in Hi |- *. now injection Hi as ->.
Qed.

End TimeFacts.

(** X5 (the windows that are accepted).  [parse_timedelta_string] accepts
    a string exactly when it is a number, a non-empty run of digits,
    followed by a non-empty text without any digit that holds, in any
    case of the letters, one of the words year, month, week and day; the
    result is the number, a dash and the first of these words that the
    text holds, in the plural.  Every other string (a decimal number, a
    unit before the number, a number alone) raises [ValueError], and no
    other exception. *)
Theorem parse_timedelta_accepts (L : Py.Lib) (w : string) (c : Py.value) :
  (forall r,
      Time.parse_timedelta_string L (Py.VStr w) c = Py.Return r <->
      exists n u unit,
        w = (n ++ u)%string /\ n <> ""%string /\ Str.digits n
        /\ u <> ""%string /\ Str.no_digit u
        /\ Time.find_unit u = Py.Return unit
        /\ r = Py.VStr (Time.window_text n unit))
  /\ (forall e,
         Time.parse_timedelta_string L (Py.VStr w) c = Py.Throw e ->
         e = Py.ValueError).
Proof.
  split.
  - intros r. apply TimeFacts.parse_accepts_iff.
  - intros e. apply TimeFacts.parse_raises_value_error.
Qed.

(** X6 (a parsed window is in normal form).  What
    [parse_timedelta_string] returns for a string is a string that it
    accepts again and returns unchanged, whatever the experiment class:
    [read_time_config] may be given a configuration that it has already
    read. *)
Theorem parse_timedelta_idempotent (L : Py.Lib) (w : string)
        (c c' r : Py.value) :
  Time.parse_timedelta_string L (Py.VStr w) c = Py.Return r ->
  Time.parse_timedelta_string L r c' = Py.Return r.
Proof.
  intros H. apply TimeFacts.parse_accepts_iff in H
    as (n & u & unit & -> & Hn & Hd & Hu & Ht & Hf & ->).
  apply TimeFacts.find_unit_in in Hf.
  destruct (@TimeFacts.unit_text _ Hf) as (Hnd & Hfu & _).
  apply TimeFacts.parse_accepts_iff.
  exists n, ("-" ++ unit ++ "s")%string, unit.
  repeat split; auto. discriminate.
Qed.

Lemma parse_timedelta_idempotent_witness :
  Time.parse_timedelta_string
    (Py.mk_lib (fun _ => "1.0"%string) (fun _ => Py.Throw Py.ValueError)
               (fun _ _ _ _ => Py.Return []) (fun v _ _ => Py.Return v)
               (fun v _ _ => Py.Return v))
    (Py.VStr "1-days") (Py.VStr "td") = Py.Return (Py.VStr "1-days").
Proof.
  apply (@parse_timedelta_idempotent _ "1 Day"%string (Py.VStr "ti")).
  reflexivity.
Defined.

(** X7 (a parsed window always gives a frequency).  When the horizon of
    [time_windows_ti] is a string that [parse_timedelta_string] returned,
    the function prints it, splits it at its dash and finds its unit in
    [_UNITS] without any error: it goes on to [pandas.date_range] with the
    number followed by the pandas code of the unit (YS, MS, W, D) as the
    frequency. *)
Theorem parsed_horizon_gives_frequency (L : Py.Lib) (w h : string)
        (c start_date end_date intervals growth : Py.value) :
  Time.parse_timedelta_string L (Py.VStr w) c = Py.Return (Py.VStr h) ->
  exists n unit code,
    h = Time.window_text n unit /\ Str.digits n
    /\ In ((unit ++ "s")%string, code)
          (combine Time._UNITS Time._PD_FORMAT)
    /\ Time.time_windows_ti L start_date end_date intervals (Py.VStr h)
                            growth
       = Py.bind (Py.print (Py.VStr h)) (fun _ =>
         Py.bind (Time.timelimits_of L start_date end_date intervals
                                     (Some (n ++ code)%string))
                 (fun timelimits =>
         Py.ret (Time.windows_of growth timelimits))).
Proof.
  intros H. apply TimeFacts.parse_accepts_iff in H
    as (n & u & unit & -> & Hn & Hd & Hu & Ht & Hf & [= ->]).
  apply TimeFacts.find_unit_in in Hf.
  destruct (@TimeFacts.frequency_of_window n unit Hd Hf) as (code & Hc & Hq).
  exists n, unit, code. repeat split; auto.
  unfold Time.time_windows_ti.
  rewrite andb_false_r.
  assert (Ht' : Py.truthy (Py.VStr (Time.window_text n unit)) = true).
  { simpl. unfold Time.window_text. apply StrFacts.nonempty_true.
    now apply StrFacts.append_nonempty_l. }
  rewrite Ht'. cbn [Time.horizon_frequency]. rewrite Hq.
  unfold Py.bind, Py.print, Py.lift, Py.ret. cbn [fst snd app].
  reflexivity.
Qed.

Lemma parsed_horizon_gives_frequency_witness :
  exists n unit code,
    "3-months"%string = Time.window_text n unit /\ Str.digits n
    /\ In ((unit ++ "s")%string, code)
          (combine Time._UNITS Time._PD_FORMAT)
    /\ Time.time_windows_ti
         (Py.mk_lib (fun _ => "1.0"%string) (fun _ => Py.Throw Py.ValueError)
                    (fun _ _ _ _ => Py.Return [0; 10; 20]%Z)
                    (fun v _ _ => Py.Return v) (fun v _ _ => Py.Return v))
         (Py.VDate 0%Z) (Py.VDate 20%Z) Py.VNone (Py.VStr "3-months")
         (Py.VStr "incremental")
       = Py.bind (Py.print (Py.VStr "3-months")) (fun _ =>
         Py.bind (Time.timelimits_of
                    (Py.mk_lib (fun _ => "1.0"%string)
                               (fun _ => Py.Throw Py.ValueError)
                               (fun _ _ _ _ => Py.Return [0; 10; 20]%Z)
                               (fun v _ _ => Py.Return v)
                               (fun v _ _ => Py.Return v))
                    (Py.VDate 0%Z) (Py.VDate 20%Z) Py.VNone
                    (Some (n ++ code)%string))
                 (fun timelimits =>
         Py.ret (Time.windows_of (Py.VStr "incremental") timelimits))).
Proof.
  apply (@parsed_horizon_gives_frequency _ "3 Months of data"%string
           "3-months"%string Py.VNone).
  reflexivity.
Defined.

(* ================================================================= *)
(** ** The windows *)

Module WindowFacts.
Import Str Py Time StrFacts PyFacts.
#[local] Open Scope string_scope.

Lemma incremental_cons2 (x y : datetime) (t : list datetime) :
  incremental (x :: y :: t) = (x, y) :: incremental (y :: t).
Proof. reflexivity. Qed.

Lemma incremental_snd (t : list datetime) : map snd (incremental t) = tl t.
Proof.
  induction t as [| x t IH]; [reflexivity |].
  destruct t as [| y t]; [reflexivity |].
  rewrite incremental_cons2. cbn [map snd tl]. f_equal. exact IH.
Qed.

Lemma incremental_hd (t : list datetime) :
  tl t <> [] -> fst (hd (0, 0)%Z (incremental t)) = hd 0%Z t.
Proof.
  destruct t as [| x [| y t]]; simpl; congruence.
Qed.

(** Every window starts where the window before it ends. *)
Lemma incremental_contiguous (t : list datetime) :
  forall (k : nat) (d : datetime * datetime),
    (S k < length (incremental t))%nat ->
    snd (nth k (incremental t) d) = fst (nth (S k) (incremental t) d).
Proof.
  induction t as [| x t IH]; intros k d Hk; [simpl in Hk; lia |].
  destruct t as [| y t]; [simpl in Hk; lia |].
  rewrite incremental_cons2 in *. cbn [length] in Hk.
  destruct k as [| k].
  - cbn [nth snd]. destruct t as [| z t]; [simpl in Hk; lia |].
    reflexivity.
  - cbn [nth]. apply IH. lia.
Qed.

Lemma cumulative_snd (t : list datetime) : map snd (cumulative t) = tl t.
Proof.
  unfold cumulative. rewrite map_map. cbn [snd]. apply map_id.
Qed.

Lemma cumulative_fst (t : list datetime) :
  Forall (fun x => fst x = hd 0%Z t) (cumulative t).
Proof.
  unfold cumulative. apply Forall_forall. intros x Hx.
  apply in_map_iff in Hx as (i & <- & _). reflexivity.
Qed.

(** The limits of the windows do not depend on [growth]. *)
Lemma ti_limits (L : Lib) (s e i h g : value) out (v : value) :
  time_windows_ti L s e i h g = (out, Return v) ->
  exists t, v = windows_of g t
            /\ forall g', time_windows_ti L s e i h g'
                          = (out, Return (windows_of g' t)).
Proof.
  unfold time_windows_ti. intros H.
  apply bind_returns in H as (o1 & st & o2 & HP & Hk & ->).
  apply bind_ret_returns in Hk as (t & Ht & ->).
  exists t. split; [reflexivity |]. intros g'.
  rewrite HP. unfold bind at 1. cbn [fst snd]. rewrite Ht.
  unfold bind, ret. cbn [fst snd]. now rewrite app_nil_r.
Qed.

Lemma obind_returns {A B} (m : outcome A) (k : A -> outcome B) (b : B) :
  obind m k = Return b -> exists a, m = Return a /\ k a = Return b.
Proof. destruct m as [a |]; simpl; [now exists a | discriminate]. Qed.

(** [time_windows_td] has no [return]: it gives [None] or raises, and
    prints nothing. *)
Lemma td_returns_none (L : Lib) (s e i h o : value) out (v : value) :
  time_windows_td L s e i h o = (out, Return v) -> v = VNone /\ out = [].
Proof.
  unfold time_windows_td. intros H.
  apply bind_returns in H as (o1 & f & o2 & Hf & H & ->).
  apply bind_returns in H as (o3 & p & o4 & Hp & H & ->).
  unfold lift in *. injection Hf as <- _. injection Hp as <- _.
  injection H as <- H. split; [| reflexivity].
  repeat (apply obind_returns in H as (? & _ & H)).
  now injection H.
Qed.

Lemma parse_entry_get_other (L : Lib) (d d' : dict) (k k' : string) :
  parse_entry L d k = Return d' -> k' <> k -> get d' k' = get d k'.
Proof.
  unfold parse_entry. destruct (get d k) as [v |].
  - destruct (parse_timedelta_string L v (VStr "ti")) as [p |];
      simpl; [| discriminate].
    intros [= <-] Hk. now apply get_set_other.
  - now intros [= <-].
Qed.

Lemma parse_entry_arg_other (L : Lib) (d d' : dict) (k k' : string)
      (default : value) :
  parse_entry L d k = Return d' -> k' <> k ->
  arg d' k' default = arg d k' default.
Proof.
  intros H Hk. unfold arg. now rewrite (parse_entry_get_other _ _ H Hk).
Qed.

(** The keywords that [read_time_config] copies hold no key that the
    keywords do not hold. *)
Lemma copied_keys (kwargs : dict) (k : string) :
  get kwargs k = None ->
  Forall (fun kv => fst kv <> k)
         (filter (fun kv => existsb (String.eqb (fst kv)) _attrs) kwargs).
Proof. intros H. now apply Forall_filter, get_none_keys. Qed.

End WindowFacts.

(** X8 (incremental and cumulative windows).  When [time_windows_ti]
    returns incremental windows, every window starts where the window
    before it ends; with the growth cumulative and the same other
    arguments it prints the same lines and returns as many windows with
    the same ends, all of which start where the first incremental window
    starts. *)
Theorem growth_windows (L : Py.Lib)
        (start_date end_date intervals horizon : Py.value)
        (out : list Py.shown) (w : list (Py.datetime * Py.datetime)) :
  Time.time_windows_ti L start_date end_date intervals horizon
                       (Py.VStr "incremental")
  = (out, Py.Return (Py.VWindows w)) ->
  (forall k d, (S k < length w)%nat ->
               snd (nth k w d) = fst (nth (S k) w d))
  /\ exists w',
      Time.time_windows_ti L start_date end_date intervals horizon
                           (Py.VStr "cumulative")
      = (out, Py.Return (Py.VWindows w'))
      /\ map snd w' = map snd w
      /\ Forall (fun x => fst x = fst (hd (0, 0)%Z w)) w'.
Proof.
  intros H. apply WindowFacts.ti_limits in H as (t & Hw & Hg).
  change (Time.windows_of (Py.VStr "incremental") t)
    with (Py.VWindows (Time.incremental t)) in Hw.
  injection Hw as ->. split.
  - intros k d. apply WindowFacts.incremental_contiguous.
  - exists (Time.cumulative t). split; [apply (Hg (Py.VStr "cumulative")) |].
    split.
    + now rewrite WindowFacts.cumulative_snd, WindowFacts.incremental_snd.
    + destruct (tl t) as [| y t'] eqn:Et.
      * unfold Time.cumulative. rewrite Et. constructor.
      * rewrite WindowFacts.incremental_hd by (rewrite Et; discriminate).
        apply WindowFacts.cumulative_fst.
Qed.

Lemma growth_windows_witness :
  (forall k d, (S k < length [(0, 10); (10, 20); (20, 30)]%Z)%nat ->
               snd (nth k [(0, 10); (10, 20); (20, 30)]%Z d)
               = fst (nth (S k) [(0, 10); (10, 20); (20, 30)]%Z d))
  /\ exists w',
      Time.time_windows_ti
        (Py.mk_lib (fun _ => "1.0"%string) (fun _ => Py.Throw Py.ValueError)
                   (fun _ _ _ _ => Py.Return [0; 10; 20; 30]%Z)
                   (fun v _ _ => Py.Return v) (fun v _ _ => Py.Return v))
        (Py.VDate 0%Z) (Py.VDate 30%Z) (Py.VInt 3) Py.VNone
        (Py.VStr "cumulative")
      = ([], Py.Return (Py.VWindows w'))
      /\ map snd w' = map snd [(0, 10); (10, 20); (20, 30)]%Z
      /\ Forall (fun x => fst x = fst (hd (0, 0)%Z
                                         [(0, 10); (10, 20); (20, 30)]%Z)) w'.
Proof.
  apply (@growth_windows
           (Py.mk_lib (fun _ => "1.0"%string) (fun _ => Py.Throw Py.ValueError)
                      (fun _ _ _ _ => Py.Return [0; 10; 20; 30]%Z)
                      (fun v _ _ => Py.Return v) (fun v _ _ => Py.Return v))
           (Py.VDate 0%Z) (Py.VDate 30%Z) (Py.VInt 3) Py.VNone).
  reflexivity.
Defined.

(** X9 (the experiment class needs the keyword).  When
    [read_time_config] is called without the keyword [exp_class], the
    class that the configuration itself names is not read: whenever the
    function returns, it returns a configuration whose class is ['ti'] and
    whose windows are the ones [time_windows_ti] builds from its entries,
    with the lines that function printed. *)
Theorem class_needs_keyword (L : Py.Lib) (time_config : option Py.dict)
        (kwargs : Py.dict) (out : list Py.shown) (r : option Py.dict) :
  Py.get kwargs "exp_class" = None ->
  Time.read_time_config L time_config kwargs = (out, Py.Return r) ->
  exists d w,
    r = Some d
    /\ Py.get d "exp_class" = Some (Py.VStr "ti")
    /\ Py.get d "time_windows" = Some w
    /\ Time.time_windows_ti L (Py.arg d "start_date" Py.VNone)
                              (Py.arg d "end_date" Py.VNone)
                              (Py.arg d "intervals" Py.VNone)
                              (Py.arg d "horizon" Py.VNone)
                              (Py.arg d "growth" (Py.VStr "incremental"))
       = (out, Py.Return w).
Proof.
  intros Hk H. unfold Time.read_time_config in H. cbv zeta in H.
  rewrite Hk in H.
  change (Py.eq_str (Py.VStr "ti") "ti") with true in H. cbv iota in H.
  match type of H with
  | Py.bind (Py.lift (Time.parse_entry L ?D "horizon")) _ = _ =>
      set (d0 := D) in *
  end.
  destruct (Time.parse_entry L d0 "horizon") as [d1 |] eqn:E1;
    [rewrite PyFacts.bind_lift_return in H | discriminate H].
  destruct (Time.parse_entry L d1 "offset") as [d2 |] eqn:E2;
    [rewrite PyFacts.bind_lift_return in H | discriminate H].
  apply PyFacts.bind_ret_returns in H as (w & Hw & ->).
  exists (Py.set d2 "time_windows" w), w.
  split; [reflexivity |]. split; [| split].
  - rewrite PyFacts.get_set_other by discriminate.
    rewrite (WindowFacts.parse_entry_get_other _ _ E2) by discriminate.
    rewrite (WindowFacts.parse_entry_get_other _ _ E1) by discriminate.
    unfold d0. rewrite PyFacts.get_update_other
      by now apply WindowFacts.copied_keys.
    apply PyFacts.get_set_same.
  - apply PyFacts.get_set_same.
  - rewrite !PyFacts.arg_set_other by discriminate. exact Hw.
Qed.

Lemma class_needs_keyword_witness :
  exists d w,
    Some [("time_windows"%string, Py.VWindows [(0, 10); (10, 20)]%Z);
          ("exp_class"%string, Py.VStr "ti");
          ("start_date"%string, Py.VDate 0%Z)] = Some d
    /\ Py.get d "exp_class" = Some (Py.VStr "ti")
    /\ Py.get d "time_windows" = Some w
    /\ Time.time_windows_ti
         (Py.mk_lib (fun _ => "1.0"%string) (fun _ => Py.Throw Py.ValueError)
                    (fun _ _ _ _ => Py.Return [0; 10; 20]%Z)
                    (fun v _ _ => Py.Return v) (fun v _ _ => Py.Return v))
         (Py.arg d "start_date" Py.VNone) (Py.arg d "end_date" Py.VNone)
         (Py.arg d "intervals" Py.VNone) (Py.arg d "horizon" Py.VNone)
         (Py.arg d "growth" (Py.VStr "incremental"))
       = ([], Py.Return w).
Proof.
  apply (@class_needs_keyword
           (Py.mk_lib (fun _ => "1.0"%string) (fun _ => Py.Throw Py.ValueError)
                      (fun _ _ _ _ => Py.Return [0; 10; 20]%Z)
                      (fun v _ _ => Py.Return v) (fun v _ _ => Py.Return v))
           (Some [("exp_class"%string, Py.VStr "td");
                  ("start_date"%string, Py.VDate 0%Z)])
           []).
  - reflexivity.
  - reflexivity.
Defined.

(** X10 (a time-dependent experiment gets no windows).  When the class
    that [read_time_config] reads, the one of the configuration or else
    the one of the keyword, is ['td'], the function prints nothing and,
    whenever it returns, the entry [time_windows] of the configuration it
    returns is [None]: [time_windows_td] computes limits and ends without
    returning them. *)
Theorem time_dependent_gets_no_windows (L : Py.Lib)
        (time_config : option Py.dict) (kwargs : Py.dict) (c : Py.value)
        (out : list Py.shown) (r : option Py.dict) :
  Py.get kwargs "exp_class" = Some c ->
  Py.arg (match time_config with Some d => d | None => [] end)
         "exp_class" c = Py.VStr "td" ->
  Time.read_time_config L time_config kwargs = (out, Py.Return r) ->
  out = [] /\ exists d, r = Some d /\ Py.get d "time_windows" = Some Py.VNone.
Proof.
  intros Hk Hc H. unfold Time.read_time_config in H. cbv zeta in H.
  rewrite Hk in H. cbv iota in H. rewrite Hc in H.
  change (Py.eq_str (Py.VStr "td") "ti") with false in H.
  change (Py.eq_str (Py.VStr "td") "td") with true in H. cbv iota in H.
  match type of H with
  | Py.bind (Py.lift (Time.parse_entry L ?D "horizon")) _ = _ =>
      set (d0 := D) in *
  end.
  destruct (Time.parse_entry L d0 "horizon") as [d1 |] eqn:E1;
    [rewrite PyFacts.bind_lift_return in H | discriminate H].
  destruct (Time.parse_entry L d1 "offset") as [d2 |] eqn:E2;
    [rewrite PyFacts.bind_lift_return in H | discriminate H].
  apply PyFacts.bind_ret_returns in H as (w & Hw & ->).
  apply WindowFacts.td_returns_none in Hw as [-> ->].
  split; [reflexivity |].
  exists (Py.set d2 "time_windows" Py.VNone).
  split; [reflexivity | apply PyFacts.get_set_same].
Qed.

Lemma time_dependent_gets_no_windows_witness :
  @nil Py.shown = []
  /\ exists d,
      Some [("time_windows"%string, Py.VNone);
            ("horizon"%string, Py.VStr "1-days");
            ("exp_class"%string, Py.VStr "td");
            ("start_date"%string, Py.VDate 0%Z);
            ("end_date"%string, Py.VDate 20%Z)] = Some d
      /\ Py.get d "time_windows" = Some Py.VNone.
Proof.
  apply (@time_dependent_gets_no_windows
           (Py.mk_lib (fun _ => "1.0"%string) (fun _ => Py.Throw Py.ValueError)
                      (fun _ _ _ _ => Py.Return [0; 10; 20]%Z)
                      (fun v _ _ => Py.Return v) (fun v _ _ => Py.Return v))
           (Some [("start_date"%string, Py.VDate 0%Z);
                  ("end_date"%string, Py.VDate 20%Z);
                  ("horizon"%string, Py.VStr "1 day")])
           [("exp_class"%string, Py.VStr "td")] (Py.VStr "td")).
  - reflexivity.
  - reflexivity.
  - reflexivity.
Defined.

(** X11 (an integer horizon is dropped).  A horizon that is an integer,
    as YAML reads [horizon: 1], is neither a string nor a float for
    [parse_timedelta_string], which returns [None] for it:
    [read_time_config] prints, returns and raises with it exactly what it
    does when the horizon is [None], so the windows are built without a
    horizon. *)
Theorem integer_horizon_is_dropped (L : Py.Lib) (d kwargs : Py.dict)
        (z : Z) :
  Py.get kwargs "horizon" = None ->
  Time.read_time_config L (Some (Py.set d "horizon" (Py.VInt z))) kwargs
  = Time.read_time_config L (Some (Py.set d "horizon" Py.VNone)) kwargs.
Proof.
  intros Hk. unfold Time.read_time_config. cbv beta iota zeta.
  set (K := filter (fun kv => existsb (String.eqb (fst kv)) Time._attrs)
                   kwargs).
  assert (HK : Forall (fun kv => fst kv <> "horizon"%string) K)
    by now apply WindowFacts.copied_keys.
  assert (E : forall (x : Py.value) (base : Py.dict),
             Time.parse_timedelta_string L x (Py.VStr "ti")
             = Py.Return Py.VNone ->
             Py.get base "horizon" = Some x ->
             Time.parse_entry L (Py.update base K) "horizon"
             = Py.Return
                 (("horizon"%string, Py.VNone)
                    :: Py.update (Py.remove "horizon" base) K)).
  { intros x base Hx Hb. unfold Time.parse_entry.
    rewrite PyFacts.get_update_other by exact HK.
    rewrite Hb, Hx. cbn [Py.obind]. unfold Py.set at 1. do 2 f_equal.
    now apply PyFacts.remove_update_other. }
  destruct (Py.get kwargs "exp_class") as [c |].
  - rewrite !(@PyFacts.arg_set_other d "exp_class" "horizon") by discriminate.
    rewrite (E (Py.VInt z)), (E Py.VNone)
      by (reflexivity || apply PyFacts.get_set_same).
    now rewrite !PyFacts.remove_set_same.
  - rewrite (E (Py.VInt z)), (E Py.VNone)
      by (reflexivity
          || (rewrite PyFacts.get_set_other by discriminate;
              apply PyFacts.get_set_same)).
    rewrite !(@PyFacts.remove_set_other _ "horizon" "exp_class")
      by discriminate.
    now rewrite !PyFacts.remove_set_same.
Qed.

Lemma integer_horizon_is_dropped_witness :
  Time.read_time_config
    (Py.mk_lib (fun _ => "1.0"%string) (fun _ => Py.Throw Py.ValueError)
               (fun _ _ _ _ => Py.Return [0; 10; 20]%Z)
               (fun v _ _ => Py.Return v) (fun v _ _ => Py.Return v))
    (Some (Py.set [("start_date"%string, Py.VDate 0%Z)] "horizon"
                  (Py.VInt 1)))
    [("exp_class"%string, Py.VStr "ti")]
  = Time.read_time_config
      (Py.mk_lib (fun _ => "1.0"%string) (fun _ => Py.Throw Py.ValueError)
                 (fun _ _ _ _ => Py.Return [0; 10; 20]%Z)
                 (fun v _ _ => Py.Return v) (fun v _ _ => Py.Return v))
      (Some (Py.set [("start_date"%string, Py.VDate 0%Z)] "horizon"
                    Py.VNone))
      [("exp_class"%string, Py.VStr "ti")].
Proof.
  apply (@integer_horizon_is_dropped
           (Py.mk_lib (fun _ => "1.0"%string) (fun _ => Py.Throw Py.ValueError)
                      (fun _ _ _ _ => Py.Return [0; 10; 20]%Z)
                      (fun v _ _ => Py.Return v) (fun v _ _ => Py.Return v))
           [("start_date"%string, Py.VDate 0%Z)]
           [("exp_class"%string, Py.VStr "ti")] 1%Z).
  reflexivity.
Defined.

(** X12 (a float horizon is a number of years).  [read_time_config]
    calls [parse_timedelta_string] without the experiment class, so a
    horizon that is a float is read as years in every experiment, also in
    a time-dependent one: in the configuration that is returned the
    horizon is the text of the float followed by [-years]. *)
Theorem float_horizon_is_in_years (L : Py.Lib) (d kwargs d' : Py.dict)
        (q : Q) (out : list Py.shown) :
  Py.get kwargs "horizon" = None ->
  Py.get d "horizon" = Some (Py.VFloat q) ->
  Time.read_time_config L (Some d) kwargs = (out, Py.Return (Some d')) ->
  Py.get d' "horizon"
  = Some (Py.VStr (Time.window_text (Py.format_float L q) "year")).
Proof.
  intros Hk Hd H. unfold Time.read_time_config in H.
  cbv beta iota zeta in H.
  match type of H with
  | Py.bind (Py.lift (Time.parse_entry L ?D "horizon")) _ = _ =>
      set (d0 := D) in *
  end.
  assert (G : Py.get d0 "horizon" = Some (Py.VFloat q)).
  { unfold d0. rewrite PyFacts.get_update_other
      by now apply WindowFacts.copied_keys.
    destruct (Py.get kwargs "exp_class"); [exact Hd |].
    now rewrite PyFacts.get_set_other by discriminate. }
  assert (E1 : Time.parse_entry L d0 "horizon"
               = Py.Return
                   (Py.set d0 "horizon"
                      (Py.VStr (Time.window_text (Py.format_float L q)
                                                 "year")))).
  { unfold Time.parse_entry. now rewrite G. }
  rewrite E1, PyFacts.bind_lift_return in H.
  match type of H with
  | Py.bind (Py.lift (Time.parse_entry L ?D "offset")) _ = _ =>
      set (d1 := D) in *
  end.
  destruct (Time.parse_entry L d1 "offset") as [d2 |] eqn:E2;
    [rewrite PyFacts.bind_lift_return in H | discriminate H].
  assert (G2 : Py.get d2 "horizon"
               = Some (Py.VStr (Time.window_text (Py.format_float L q)
                                                 "year"))).
  { rewrite (WindowFacts.parse_entry_get_other _ _ E2) by discriminate.
    apply PyFacts.get_set_same. }
  destruct (Py.eq_str _ "ti").
  - apply PyFacts.bind_ret_returns in H as (w & _ & [= ->]).
    now rewrite PyFacts.get_set_other by discriminate.
  - destruct (Py.eq_str _ "td").
    + apply PyFacts.bind_ret_returns in H as (w & _ & [= ->]).
      now rewrite PyFacts.get_set_other by discriminate.
    + discriminate H.
Qed.

Lemma float_horizon_is_in_years_witness :
  Py.get [("time_windows"%string, Py.VNone);
          ("horizon"%string, Py.VStr "1.0-years");
          ("exp_class"%string, Py.VStr "td")] "horizon"
  = Some (Py.VStr (Time.window_text "1.0" "year")).
Proof.
  apply (@float_horizon_is_in_years
           (Py.mk_lib (fun _ => "1.0"%string) (fun _ => Py.Throw Py.ValueError)
                      (fun _ _ _ _ => Py.Return [0; 10; 20]%Z)
                      (fun v _ _ => Py.Return v) (fun v _ _ => Py.Return v))
           [("horizon"%string, Py.VFloat 1)]
           [("exp_class"%string, Py.VStr "td")] _ 1 []).
  - reflexivity.
  - reflexivity.
  - reflexivity.
Defined.

(* ================================================================= *)
(** ** The windows of the docstrings *)

(** The message of [parse_timedelta_string] proposes [1 day], [1 months]
    and [3 years]; a decimal amount and a unit before the amount are
    refused. *)
Example parse_examples (L : Py.Lib) :
  Time.parse_timedelta_string L (Py.VStr "1 day") Py.VNone
  = Py.Return (Py.VStr "1-days")
  /\ Time.parse_timedelta_string L (Py.VStr "1 months") Py.VNone
     = Py.Return (Py.VStr "1-months")
  /\ Time.parse_timedelta_string L (Py.VStr "3 Years") Py.VNone
     = Py.Return (Py.VStr "3-years")
  /\ Time.parse_timedelta_string L (Py.VStr "1.5 years") Py.VNone
     = Py.Throw Py.ValueError
  /\ Time.parse_timedelta_string L (Py.VStr "years 3") Py.VNone
     = Py.Throw Py.ValueError
  /\ Time.parse_timedelta_string L (Py.VStr "10") Py.VNone
     = Py.Throw Py.ValueError.
Proof. repeat split; reflexivity. Qed.

(** [re.split(r'(\d+)', s)] keeps the empty text before a leading number
    and behind a trailing one. *)
Example re_split_examples :
  Str.re_split_digits "10years" = [""; "10"; "years"]%string
  /\ Str.re_split_digits "years10" = ["years"; "10"; ""]%string
  /\ Str.re_split_digits "1.5 years" = [""; "1"; "."; "5"; " years"]%string
  /\ Str.re_split_digits "" = [""]%string.
Proof. repeat split; reflexivity. Qed.

(* ================================================================= *)
(** * The resampling of a model: proofs *)

Module ResampleFacts.
Import Resample.

Lemma map_seq_shift {A} (G : nat -> A) (s n : nat) :
  map G (seq s n) = map (fun y => G (s + y)%nat) (seq 0 n).
Proof.
  revert s. induction n as [| n IH]; intros s; [reflexivity |].
  cbn [seq map]. rewrite Nat.add_0_r. f_equal.
  rewrite <- (seq_shift n 0), map_map, (IH (S s)).
  apply map_ext. intros y. f_equal. lia.
Qed.

(** A sum over a grid of [n] rows of [w] cells is the sum over its
    [n * w] cells, row after row. *)
Lemma grid_sum (G : nat -> Q) (n w : nat) :
  qsum (map (fun x => qsum (map (fun y => G (x * w + y)%nat) (seq 0 w)))
            (seq 0 n))
  == qsum (map G (seq 0 (n * w))).
Proof.
  induction n as [| n IH]; [reflexivity |].
  rewrite seq_S, map_app, qsum_app, IH. cbn [map qsum fold_right plus].
  replace (S n * w)%nat with (n * w + w)%nat by lia.
  rewrite seq_app, map_app, qsum_app. cbn [plus].
  rewrite (map_seq_shift G (n * w) w). lra.
Qed.

Lemma nth_map_seq {A} (g : nat -> A) (d : A) (n m : nat) :
  (m < n)%nat -> nth m (map g (seq 0 n)) d = g m.
Proof.
  intros H. rewrite (nth_indep _ d (g 0%nat)) by now rewrite length_map, length_seq.
  rewrite (map_nth g (seq 0 n) 0%nat m). now rewrite seq_nth.
Qed.

(** The length of an array of rows of [nm] numbers, in the order of its
    memory. *)
Lemma length_concat_rows {A} (rows : list (list A)) (nm : nat) :
  Forall (fun r => length r = nm) rows ->
  length (concat rows) = (length rows * nm)%nat.
Proof.
  induction 1 as [| r rows Hr _ IH]; [reflexivity |].
  cbn [concat length]. rewrite length_app, IH, Hr. lia.
Qed.

(** The number [m] of the row [r] is at [r * nm + m]. *)
Lemma column_sum (rows : list (list Q)) (nm m : nat) :
  Forall (fun r => length r = nm) rows -> (m < nm)%nat ->
  qsum (map (fun r => nth (r * nm + m) (concat rows) 0)
            (seq 0 (length rows)))
  == qsum (map (fun row => nth m row 0) rows).
Proof.
  intros H Hm. induction H as [| row rows Hr _ IH]; [reflexivity |].
  cbn [length concat]. rewrite <- cons_seq, <- seq_shift.
  cbn [map qsum fold_right]. rewrite map_map.
  fold (qsum (map (fun row0 => nth m row0 0) rows)). rewrite <- IH.
  apply Qplus_comp.
  - cbn [Nat.mul plus]. now rewrite app_nth1 by lia.
  - apply qsum_map_ext_in. intros r _.
    rewrite app_nth2 by (rewrite Hr; lia).
    now replace (S r * nm + m - length row)%nat with (r * nm + m)%nat
      by (rewrite Hr; lia).
Qed.

(** What a run that returns has checked. *)
Lemma resample_returns (nx ny nm : nat) (data rates : list (list Q))
      (k : Z) :
  resample nx ny data nm k = Py.Return rates ->
  exists kn p q : nat,
    (0 < kn)%nat /\ k = Z.of_nat kn /\ nx = (p * kn)%nat /\ ny = (q * kn)%nat
    /\ length (concat (map (skipn 6) data)) = (nx * ny * nm)%nat
    /\ rates
       = flat_map (fun I =>
           map (fun J =>
                  map (fun m => block ny nm kn
                                      (concat (map (skipn 6) data)) I J m)
                      (seq 0 nm))
               (seq 0 q))
           (seq 0 p).
Proof.
  unfold resample.
  destruct (k =? 0)%Z eqn:E0; [discriminate |].
  destruct (Z.of_nat nx mod k =? 0)%Z eqn:Ex; [| discriminate].
  destruct (Z.of_nat ny mod k =? 0)%Z eqn:Ey; [| discriminate].
  cbn [negb orb].
  destruct (length (concat (map (skipn 6) data)) =? nx * ny * nm)%nat eqn:El;
    [| discriminate].
  cbn [negb].
  destruct (k <? 0)%Z eqn:Ek; [discriminate |].
  intros [= <-].
  apply Z.eqb_neq in E0. apply Z.eqb_eq in Ex, Ey. apply Nat.eqb_eq in El.
  apply Z.ltb_ge in Ek.
  assert (Hk : k = Z.of_nat (Z.to_nat k)) by lia.
  assert (Hkn : (0 < Z.to_nat k)%nat) by lia.
  assert (Dx : nx = (nx / Z.to_nat k * Z.to_nat k)%nat).
  { rewrite Hk, <- Nat2Z.inj_mod in Ex.
    rewrite Nat.mul_comm. apply Nat.Div0.div_exact. lia. }
  assert (Dy : ny = (ny / Z.to_nat k * Z.to_nat k)%nat).
  { rewrite Hk, <- Nat2Z.inj_mod in Ey.
    rewrite Nat.mul_comm. apply Nat.Div0.div_exact. lia. }
  exists (Z.to_nat k), (nx / Z.to_nat k)%nat, (ny / Z.to_nat k)%nat.
  repeat split; auto.
Qed.

(** The rates of all the blocks add up to the rates of all the cells. *)
Lemma blocks_total (p q kn nm m : nat) (flat : list Q) :
  qsum (map (fun I =>
         qsum (map (fun J => block (q * kn) nm kn flat I J m) (seq 0 q)))
       (seq 0 p))
  == qsum (map (fun r => nth (r * nm + m) flat 0)
               (seq 0 (p * kn * (q * kn)))).
Proof.
  set (F := fun r : nat => nth (r * nm + m) flat 0).
  rewrite <- (grid_sum F (p * kn) (q * kn)).
  rewrite <- (grid_sum
                (fun x => qsum (map (fun y => F (x * (q * kn) + y)%nat)
                                    (seq 0 (q * kn)))) p kn).
  apply qsum_map_ext_in. intros I _.
  unfold block.
  rewrite (qsum_swap
             (fun J a =>
                qsum (map (fun b =>
                  nth (((I * kn + a) * (q * kn) + (J * kn + b)) * nm + m)
                      flat 0) (seq 0 kn)))
             (seq 0 q) (seq 0 kn)).
  apply qsum_map_ext_in. intros a _.
  rewrite <- (grid_sum (fun y => F ((I * kn + a) * (q * kn) + y)%nat) q kn).
  reflexivity.
Qed.





End ResampleFacts.

(** X13 (the resampling keeps the rates).  Whenever the resampling of a
    model on [nx] by [ny] cells returns, from a file with six columns for
    the cell and [nm] columns of rates, it returns one row of [nm] rates
    for each of the [nx/k] by [ny/k] blocks, and in every magnitude bin
    the rates of the blocks add up to the rates of the cells of the
    model: no block is left out and none is counted twice. *)
Theorem resample_keeps_the_rates (nx ny nm : nat)
        (data rates : list (list Q)) (k : Z) :
  Forall (fun row => length row = (6 + nm)%nat) data ->
  Resample.resample nx ny data nm k = Py.Return rates ->
  length rates = (nx / Z.to_nat k * (ny / Z.to_nat k))%nat
  /\ Forall (fun row => length row = nm) rates
  /\ forall m, (m < nm)%nat -> total m rates == total (6 + m) data.
Proof.
  intros Hwf H.
  apply ResampleFacts.resample_returns in H
    as (kn & p & q & Hkn & -> & -> & -> & Hlen & ->).
  rewrite Nat2Z.id, !Nat.div_mul by lia.
  set (flat := concat (map (skipn 6) data)) in *.
  split; [| split].
  - rewrite flat_map_concat_map.
    erewrite ResampleFacts.length_concat_rows.
    + now rewrite length_map, length_seq.
    + apply Forall_forall. intros r Hr.
      apply in_map_iff in Hr as (I & <- & _).
      now rewrite length_map, length_seq.
  - apply Forall_forall. intros r Hr.
    apply in_flat_map in Hr as (I & _ & Hr).
    apply in_map_iff in Hr as (J & <- & _).
    now rewrite length_map, length_seq.
  - intros m Hm. unfold total.
    rewrite flat_map_concat_map, qsum_concat, map_map.
    assert (Hrows : Forall (fun r => length r = nm) (map (skipn 6) data)).
    { apply Forall_forall. intros r Hr.
      apply in_map_iff in Hr as (row & <- & Hrow).
      rewrite length_skipn.
      rewrite (proj1 (Forall_forall _ _) Hwf row Hrow). lia. }
    assert (Hn : length data = (p * kn * (q * kn))%nat).
    { unfold flat in Hlen.
      rewrite (ResampleFacts.length_concat_rows Hrows), length_map in Hlen.
      nia. }
    transitivity
      (qsum (map (fun I =>
               qsum (map (fun J => Resample.block (q * kn) nm kn flat I J m)
                         (seq 0 q))) (seq 0 p))).
    { apply qsum_map_ext_in. intros I _. rewrite map_map.
      apply qsum_map_ext_in. intros J _. unfold bin.
      now rewrite ResampleFacts.nth_map_seq. }
    rewrite ResampleFacts.blocks_total, <- Hn.
    rewrite <- (length_map (skipn 6) data).
    unfold flat. rewrite (ResampleFacts.column_sum Hrows Hm), map_map.
    apply qsum_map_ext_in. intros row _. unfold bin.
    now rewrite nth_skipn.
Qed.

Lemma resample_keeps_the_rates_witness :
  length [[10]; [26]] = (4 / Z.to_nat 2 * (2 / Z.to_nat 2))%nat
  /\ Forall (fun row => length row = 1%nat) [[10]; [26]]
  /\ forall m, (m < 1)%nat ->
       total m [[10]; [26]]
       == total (6 + m)
            [[0; 0; 0; 0; 0; 0; 1]; [0; 0; 0; 0; 0; 0; 2];
             [0; 0; 0; 0; 0; 0; 3]; [0; 0; 0; 0; 0; 0; 4];
             [0; 0; 0; 0; 0; 0; 5]; [0; 0; 0; 0; 0; 0; 6];
             [0; 0; 0; 0; 0; 0; 7]; [0; 0; 0; 0; 0; 0; 8]].
Proof.
  apply (@resample_keeps_the_rates 4 2 1
           [[0; 0; 0; 0; 0; 0; 1]; [0; 0; 0; 0; 0; 0; 2];
            [0; 0; 0; 0; 0; 0; 3]; [0; 0; 0; 0; 0; 0; 4];
            [0; 0; 0; 0; 0; 0; 5]; [0; 0; 0; 0; 0; 0; 6];
            [0; 0; 0; 0; 0; 0; 7]; [0; 0; 0; 0; 0; 0; 8]]
           [[10]; [26]] 2).
  - repeat constructor.
  - vm_compute. reflexivity.
Defined.


